(** * The fault-tolerant request pipeline of day-06-error-handling

    A shallow embedding of [resilient_agent.go]: the token-bucket rate
    limiter, the retry manager, the circuit breaker, the monitor and the
    [Chat] composition, followed by the properties of the specification.

    Conventions of the embedding.
    - Go's [int], [int64] and [time.Duration] are [Z]; increments are
      wrapped to 64 bits with [wrap64].
    - A [time.Time] is the number of nanoseconds since Go's zero time, so
      that the zero value of a [time.Time] field is [0].
    - Every reading of the clock ([time.Now], [time.Since]) and of a random
      source is an explicit argument of the function that performs it.
    - The [float64] values the rate limiter and the retry manager compute
      with (the token count and its refill, the backoff delay and its
      jitter) are binary64 numbers, [F64.t], and every operation on them
      rounds as on amd64, where no product is fused with the addition
      that follows it.  [math.Pow] is a parameter of the retry manager,
      but for the special cases its documentation fixes.
    - The other [float64] values (the rates and averages of the monitor,
      the index of its 95th percentile, the draw a half-open breaker
      compares with its test rate) are rationals ([Q]): their rounding
      is not modelled.
    - The mutexes are not modelled: every method is one atomic step. *)

From Stdlib Require Import ZArith QArith Qround Qminmax Qpower Lia Lqa Bool.
From Stdlib Require Import SpecFloat.
From Stdlib Require Import String Ascii.
From stdpp Require Import base list sorting strings gmap.

Local Open Scope Z_scope.

(** ** Machine integers and time *)

Definition minInt64 : Z := - 2 ^ 63.
Definition maxInt64 : Z := 2 ^ 63 - 1.

Definition in_int64 (z : Z) : Prop := minInt64 <= z <= maxInt64.

(** Two's complement wrap-around of a 64-bit signed result. *)
Definition wrap64 (z : Z) : Z := (z + 2 ^ 63) mod 2 ^ 64 - 2 ^ 63.

(** A [time.Duration] is an [int64] count of nanoseconds; a [time.Time]
    is read as its distance in nanoseconds from the zero time. *)
Abbreviation Duration := Z (only parsing).
Abbreviation Time := Z (only parsing).

Definition Nanosecond : Duration := 1.
Definition Second : Duration := 1000000000.
Definition Minute : Duration := 60 * Second.

(** [t.Sub(u)]: the difference, saturated to the range of a Duration. *)
Definition Time_Sub (t u : Time) : Duration :=
  if maxInt64 <? t - u then maxInt64
  else if t - u <? minInt64 then minInt64
  else t - u.

(** [t.Add(d)]. *)
Definition Time_Add (t : Time) (d : Duration) : Time := t + d.

(** [t.After(u)]. *)
Definition Time_After (t u : Time) : bool := u <? t.

(** ** Floating point

    A [float64] is an IEEE 754 binary64 number, with the operations of
    the Standard Library's [SpecFloat] at precision 53 and maximal
    exponent 1024: every arithmetic operation rounds to nearest, ties to
    even, as the amd64 instructions Go compiles to do. *)

Module F64.

Definition prec : Z := 53.
Definition emax : Z := 1024.

Definition t : Type := spec_float.

(** The values of the type that are binary64 numbers: the mantissa fits
    the precision and the exponent, the range. *)
Definition valid (x : t) : bool := valid_binary prec emax x.

(** [float64(n)] for an integer [n]. *)
Definition of_int (z : Z) : t := binary_normalize prec emax z 0 false.

Definition add : t -> t -> t := SFadd prec emax.
Definition sub : t -> t -> t := SFsub prec emax.
Definition mul : t -> t -> t := SFmul prec emax.
Definition div : t -> t -> t := SFdiv prec emax.

(** [x == y], [x < y] and [x <= y]: false as soon as one side is NaN. *)
Definition eqb : t -> t -> bool := SFeqb.
Definition ltb : t -> t -> bool := SFltb.
Definition leb : t -> t -> bool := SFleb.

Definition zero : t := S754_zero false.
Definition half : t := S754_finite false 4503599627370496 (-53).
Definition one : t := S754_finite false 4503599627370496 (-52).

(** [math.IsNaN(x)], [math.IsInf(x, -1)] and [math.Signbit(x)]. *)
Definition IsNaN (x : t) : bool :=
  match x with S754_nan => true | _ => false end.

Definition IsInf_neg (x : t) : bool :=
  match x with S754_infinity true => true | _ => false end.

Definition Signbit (x : t) : bool :=
  match x with
  | S754_zero s | S754_infinity s | S754_finite s _ _ => s
  | S754_nan => false
  end.

(** Zero or a finite number: neither an infinity nor NaN. *)
Definition is_finite (x : t) : bool :=
  match x with
  | S754_zero _ | S754_finite _ _ _ => true
  | _ => false
  end.

(** The value of a number in units of [2 ^ E0].  The exponent of a valid
    float is at least -1074, so that the values of the valid floats and
    the exact products of two of them are whole numbers of units. *)
Definition E0 : Z := -2148.
Definition U : Z := 2 ^ 2148.

Definition scaled (x : t) : Z :=
  match x with
  | S754_finite s m e => cond_Zopp s (Zpos m * 2 ^ (e - E0))
  | _ => 0
  end.

(** The value of a number as a rational. *)
Definition value (x : t) : Q := Qmake (scaled x) (Z.to_pos U).

(** The integer part of a number, toward zero. *)
Definition trunc (x : t) : Z :=
  match x with
  | S754_finite s m e => cond_Zopp s (Z.shiftl (Zpos m) e)
  | _ => 0
  end.

(** [int64(x)], and so [int(x)] and [time.Duration(x)]: the fraction is
    discarded.  For NaN, the infinities and the numbers outside the range
    of an [int64] the language leaves the result to the implementation;
    the conversion instruction of amd64 gives the minimal [int64], which
    is what the model returns. *)
Definition to_int64 (x : t) : Z :=
  match x with
  | S754_zero _ => 0
  | S754_finite _ _ _ =>
      let z := trunc x in
      if (minInt64 <=? z) && (z <=? maxInt64) then z else minInt64
  | _ => minInt64
  end.

End F64.

(** [d.Seconds()]: [float64(d / Second) + float64(d % Second) / 1e9]. *)
Definition Duration_Seconds (d : Duration) : F64.t :=
  F64.add (F64.of_int (Z.quot d Second))
          (F64.div (F64.of_int (Z.rem d Second)) (F64.of_int 1000000000)).

(** [math.Min], with its special cases in the order of the library:
    minus infinity, NaN, and the two zeros. *)
Definition math_Min (x y : F64.t) : F64.t :=
  if F64.IsInf_neg x || F64.IsInf_neg y then S754_infinity true
  else if F64.IsNaN x || F64.IsNaN y then S754_nan
  else if F64.eqb x F64.zero && F64.eqb x y
       then (if F64.Signbit x then x else y)
  else if F64.ltb x y then x else y.

(** [math.Pow(x, y)].  The documentation of the library fixes special
    cases, of which the first three, in its order, are [Pow(x, ±0) = 1],
    [Pow(1, y) = 1] and [Pow(x, 1) = x]; it does not say how the other
    results are rounded.  Those are taken from [general], a parameter of
    the model. *)
Definition math_Pow (general : F64.t -> F64.t -> F64.t) (x y : F64.t) : F64.t :=
  if F64.eqb y F64.zero || F64.eqb x F64.one then F64.one
  else if F64.eqb y F64.one then x
  else general x y.

(** Conversion of a rational to an integer: the fraction is discarded. *)
Definition Q_to_int (x : Q) : Z := Z.quot (Qnum x) (Zpos (Qden x)).

(** An [error] is represented by its message, [err.Error()]. *)
Definition error : Type := String.string.

(** ** Configuration *)

Record RetryConfig := {
  MaxAttempts : Z;
  BaseDelay : Duration;
  MaxDelay : Duration;
  BackoffMultiplier : F64.t;
  JitterPercent : Z;
  RetriableErrors : list String.string
}.

Record CircuitBreakerConfig := {
  FailureThreshold : Z;
  RecoveryTimeout : Duration;
  TestRequestRate : Q;
  ConsecutiveSuccesses : Z
}.

Record RateLimitConfig := {
  RequestsPerMinute : Z;
  BurstSize : Z;
  AdaptiveEnabled : bool;
  QuotaPercentage : Q
}.

Record MonitoringConfig := {
  MetricsEnabled : bool;
  HealthChecksEnabled : bool;
  AlertThreshold : Q;
  MetricsRetention : Duration
}.

Record ReliabilityConfig := {
  Retry : RetryConfig;
  CircuitBreaker_cfg : CircuitBreakerConfig;
  RateLimit : RateLimitConfig;
  Monitoring : MonitoringConfig
}.

Definition Millisecond : Duration := 1000000.
Definition Hour : Duration := 60 * Minute.

Definition DefaultReliabilityConfig : ReliabilityConfig := {|
  Retry := {|
    MaxAttempts := 3;
    BaseDelay := 100 * Millisecond;
    MaxDelay := 30 * Second;
    BackoffMultiplier := F64.of_int 2;
    JitterPercent := 25;
    RetriableErrors :=
      [ "rate_limit"%string; "timeout"%string; "server_error"%string; "network"%string ]
  |};
  CircuitBreaker_cfg := {|
    FailureThreshold := 5;
    RecoveryTimeout := 60 * Second;
    TestRequestRate := 1 # 10;
    ConsecutiveSuccesses := 3
  |};
  RateLimit := {|
    RequestsPerMinute := 60;
    BurstSize := 10;
    AdaptiveEnabled := true;
    QuotaPercentage := 80
  |};
  Monitoring := {|
    MetricsEnabled := true;
    HealthChecksEnabled := true;
    AlertThreshold := 5 # 100;
    MetricsRetention := 24 * Hour
  |}
|}.

(** ** Circuit breaker *)

Inductive CircuitState := CircuitClosed | CircuitOpen | CircuitHalfOpen.

Definition CircuitState_eqb (a b : CircuitState) : bool :=
  match a, b with
  | CircuitClosed, CircuitClosed
  | CircuitOpen, CircuitOpen
  | CircuitHalfOpen, CircuitHalfOpen => true
  | _, _ => false
  end.

Definition CircuitState_String (s : CircuitState) : String.string :=
  match s with
  | CircuitClosed => "CLOSED"
  | CircuitOpen => "OPEN"
  | CircuitHalfOpen => "HALF_OPEN"
  end.

Module CircuitBreaker.

Record t := mk {
  config : CircuitBreakerConfig;
  state : CircuitState;
  failureCount : Z;
  lastFailureTime : Time;
  successCount : Z
}.

(** [NewCircuitBreaker]: the unset fields take their zero values. *)
Definition New (cfg : CircuitBreakerConfig) : t :=
  {| config := cfg; state := CircuitClosed; failureCount := 0;
     lastFailureTime := 0; successCount := 0 |}.

(** [time.Since(cb.lastFailureTime) >= cb.config.RecoveryTimeout] *)
Definition shouldAttemptReset (cb : t) (now : Time) : bool :=
  RecoveryTimeout (config cb) <=? Time_Sub now (lastFailureTime cb).

(** [rand.Float64() < cb.config.TestRequestRate]; [r] is the draw. *)
Definition shouldAllowTestRequest (cb : t) (r : Q) : bool :=
  negb (Qle_bool (TestRequestRate (config cb)) r).

(** [Allow] takes the read lock and assigns no field: the breaker it
    leaves behind is the one it was called on. *)
Definition Allow (cb : t) (now : Time) (r : Q) : t * bool :=
  match state cb with
  | CircuitClosed => (cb, true)
  | CircuitOpen => (cb, shouldAttemptReset cb now)
  | CircuitHalfOpen => (cb, shouldAllowTestRequest cb r)
  end.

Definition RecordFailure (cb : t) (now : Time) : t :=
  let failureCount' := wrap64 (failureCount cb + 1) in
  let state' :=
    if CircuitState_eqb (state cb) CircuitClosed
       && (FailureThreshold (config cb) <=? failureCount')
    then CircuitOpen
    else if CircuitState_eqb (state cb) CircuitHalfOpen then CircuitOpen
    else state cb in
  {| config := config cb; state := state'; failureCount := failureCount';
     lastFailureTime := now; successCount := 0 |}.

Definition RecordSuccess (cb : t) : t :=
  let successCount' := wrap64 (successCount cb + 1) in
  if CircuitState_eqb (state cb) CircuitOpen then
    {| config := config cb; state := CircuitHalfOpen; failureCount := 0;
       lastFailureTime := lastFailureTime cb; successCount := successCount' |}
  else if CircuitState_eqb (state cb) CircuitHalfOpen
          && (ConsecutiveSuccesses (config cb) <=? successCount')
  then
    {| config := config cb; state := CircuitClosed; failureCount := 0;
       lastFailureTime := lastFailureTime cb; successCount := 0 |}
  else
    {| config := config cb; state := state cb; failureCount := 0;
       lastFailureTime := lastFailureTime cb; successCount := successCount' |}.

Definition Reset (cb : t) : t :=
  {| config := config cb; state := CircuitClosed; failureCount := 0;
     lastFailureTime := lastFailureTime cb; successCount := 0 |}.

Definition GetState (cb : t) : CircuitState := state cb.

(** The methods of the breaker, with the clock and random readings each
    one performs. *)
Inductive call :=
| CallAllow (now : Time) (r : Q)
| CallRecordFailure (now : Time)
| CallRecordSuccess
| CallReset
| CallGetState.

Definition step (cb : t) (c : call) : t :=
  match c with
  | CallAllow now r => fst (Allow cb now r)
  | CallRecordFailure now => RecordFailure cb now
  | CallRecordSuccess => RecordSuccess cb
  | CallReset => Reset cb
  | CallGetState => cb
  end.

Definition run (cb : t) (cs : list call) : t := fold_left step cs cb.

(** [n] consecutive [RecordFailure] calls at the given times. *)
Definition failures (times : list Time) : list call :=
  map CallRecordFailure times.

(** [n] consecutive [RecordSuccess] calls. *)
Definition successes (n : nat) : list call := replicate n CallRecordSuccess.

(** States a breaker built by [NewCircuitBreaker] can reach. *)
Inductive reachable (cfg : CircuitBreakerConfig) : t -> Prop :=
| reach_new : reachable cfg (New cfg)
| reach_step cb c : reachable cfg cb -> reachable cfg (step cb c).

End CircuitBreaker.

(** ** Token-bucket rate limiter *)

Module RateLimiter.

Record t := mk {
  config : RateLimitConfig;
  tokens : F64.t;
  lastRefill : Time;
  requestTimes : list Time
}.

(** [NewRateLimiter], created at clock reading [now]. *)
Definition New (cfg : RateLimitConfig) (now : Time) : t :=
  {| config := cfg; tokens := F64.of_int (BurstSize cfg);
     lastRefill := now; requestTimes := [] |}.

(** The cleaning loop of [Allow]: the slice is cut at the first request
    time after [cutoff]; when there is none the loop ends without
    assigning. *)
Fixpoint firstAfter (cutoff : Time) (l : list Time) : option (list Time) :=
  match l with
  | [] => None
  | reqTime :: rest =>
      if Time_After reqTime cutoff then Some l else firstAfter cutoff rest
  end.

Definition cleanOld (cutoff : Time) (l : list Time) : list Time :=
  match firstAfter cutoff l with
  | Some l' => l'
  | None => l
  end.

Definition Allow (rl : t) (now : Time) : t * bool :=
  let elapsed := Time_Sub now (lastRefill rl) in
  let tokensToAdd :=
    F64.div (F64.mul (Duration_Seconds elapsed)
                     (F64.of_int (RequestsPerMinute (config rl))))
            (F64.of_int 60) in
  let tokens1 :=
    math_Min (F64.add (tokens rl) tokensToAdd)
             (F64.of_int (BurstSize (config rl))) in
  if F64.leb F64.one tokens1 then
    let requestTimes1 := requestTimes rl ++ [now] in
    let cutoff := Time_Add now (- Minute) in
    ({| config := config rl; tokens := F64.sub tokens1 F64.one; lastRefill := now;
        requestTimes := cleanOld cutoff requestTimes1 |}, true)
  else
    ({| config := config rl; tokens := tokens1; lastRefill := now;
        requestTimes := requestTimes rl |}, false).

(** A sequence of [Allow] calls, one per clock reading. *)
Definition run (rl : t) (times : list Time) : t :=
  fold_left (fun rl now => fst (Allow rl now)) times rl.

(** The answers of a sequence of [Allow] calls. *)
Fixpoint answers (rl : t) (times : list Time) : list bool :=
  match times with
  | [] => []
  | now :: rest =>
      let (rl', allowed) := Allow rl now in allowed :: answers rl' rest
  end.

(** The token count is a number in [[0, BurstSize]]. *)
Definition within_bounds (rl : t) : Prop :=
  F64.valid (tokens rl) = true /\ F64.is_finite (tokens rl) = true /\
  (0 <= F64.value (tokens rl) <= inject_Z (BurstSize (config rl)))%Q.

(** The token count is a number between 0 and [float64(BurstSize)], the
    capacity that [Allow] compares it with. *)
Definition within_capacity (rl : t) : Prop :=
  F64.valid (tokens rl) = true /\ F64.is_finite (tokens rl) = true /\
  (0 <= F64.value (tokens rl)
   <= F64.value (F64.of_int (BurstSize (config rl))))%Q.

End RateLimiter.

(** Clock readings that never go back. *)
Fixpoint nondecreasing (l : list Time) : Prop :=
  match l with
  | [] => True
  | t :: rest =>
      match rest with
      | [] => True
      | u :: _ => t <= u
      end /\ nondecreasing rest
  end.

(** ** Substring search and error classification *)

Definition len (s : String.string) : Z := Z.of_nat (String.length s).

(** [s[i:j]] for [0 <= i <= j <= len(s)]. *)
Definition slice (s : String.string) (i j : Z) : String.string :=
  String.substring (Z.to_nat i) (Z.to_nat (j - i)) s.

(** The loop of [indexOfSubstring], started at index [i]. *)
Fixpoint indexOfSubstring_from (fuel : nat) (i : Z) (s substr : String.string) : Z :=
  match fuel with
  | O => -1
  | S fuel' =>
      if i <=? len s - len substr then
        if String.eqb (slice s i (i + len substr)) substr then i
        else indexOfSubstring_from fuel' (i + 1) s substr
      else -1
  end.

Definition indexOfSubstring (s substr : String.string) : Z :=
  indexOfSubstring_from (S (String.length s)) 0 s substr.

Definition contains (s substr : String.string) : bool :=
  (len substr <=? len s) &&
  (String.eqb s substr ||
   ((len substr <? len s) &&
    (String.eqb (slice s 0 (len substr)) substr ||
     String.eqb (slice s (len s - len substr) (len s)) substr ||
     negb (indexOfSubstring s substr =? -1)))).

(** ** Retry manager *)

(** What the [select] of [Execute] observes while it waits: the context is
    done, with [ctx.Err()], or the timer of the delay fires. *)
Inductive selected :=
| CtxDone (ctxErr : error)
| TimerFired.

Module RetryManager.

(** The manager holds its configuration and a random source; [random k]
    is the [Float64()] drawn while the delay after attempt [k] is
    computed.  [pow] is what [math.Pow] returns outside its special
    cases. *)
Record t := mk {
  config : RetryConfig;
  random : Z -> F64.t;
  pow : F64.t -> F64.t -> F64.t
}.

Definition isRetriable (rm : t) (err : error) : bool :=
  existsb (fun retriableErr => contains err retriableErr)
          (RetriableErrors (config rm)).

Definition calculateDelay (rm : t) (attempt : Z) : Duration :=
  let exponentialDelay :=
    F64.mul (F64.of_int (BaseDelay (config rm)))
            (math_Pow (pow rm) (BackoffMultiplier (config rm))
                      (F64.of_int (wrap64 (attempt - 1)))) in
  let exponentialDelay :=
    if F64.ltb (F64.of_int (MaxDelay (config rm))) exponentialDelay
    then F64.of_int (MaxDelay (config rm))
    else exponentialDelay in
  let jitter :=
    if 0 <? JitterPercent (config rm) then
      let jitterRange :=
        F64.div (F64.of_int (JitterPercent (config rm))) (F64.of_int 100) in
      F64.add F64.one
        (F64.mul (F64.sub (F64.mul (random rm attempt) (F64.of_int 2)) F64.one)
                 jitterRange)
    else F64.one in
  F64.to_int64 (F64.mul exponentialDelay jitter).

(** The outcome of [Execute], with what it did on the way: how many
    times the operation was invoked and the delays it started to wait. *)
Record outcome := {
  result : String.string;
  err : option error;
  calls : nat;
  delays : list Duration
}.

Section Execute.

(** [operation n] is what the operation returns when it is invoked
    after [n] earlier invocations; [wait k d] is what the [select]
    observes during the delay [d] that follows attempt [k]. *)
Variable rm : t.
Variable wait : Z -> Duration -> selected.
Variable operation : nat -> String.string * option error.

(** The [for] loop from [attempt] on; [fuel] bounds the iterations. *)
Fixpoint loop (fuel : nat) (attempt : Z) (lastErr : option error)
         (calls : nat) (delays : list Duration) : option outcome :=
  if attempt <=? MaxAttempts (config rm) then
    match fuel with
    | O => None
    | S fuel' =>
        match operation calls with
        | (res, None) =>
            Some {| result := res; err := None;
                    calls := S calls; delays := delays |}
        | (_, Some e) =>
            if (attempt =? MaxAttempts (config rm)) || negb (isRetriable rm e)
            then Some {| result := ""; err := Some e;
                         calls := S calls; delays := delays |}
            else
              let delay := calculateDelay rm attempt in
              match wait attempt delay with
              | CtxDone ctxErr =>
                  Some {| result := ""; err := Some ctxErr;
                          calls := S calls; delays := delays ++ [delay] |}
              | TimerFired =>
                  loop fuel' (wrap64 (attempt + 1)) (Some e)
                       (S calls) (delays ++ [delay])
              end
        end
    end
  else
    Some {| result := ""; err := lastErr; calls := calls; delays := delays |}.

Definition Execute : option outcome :=
  loop (Z.to_nat (MaxAttempts (config rm))) 1 None O [].

End Execute.

End RetryManager.

(** ** Monitor *)

Record Metrics := {
  TotalRequests : Z;
  SuccessfulRequests : Z;
  FailedRequests : Z;
  ErrorRate : Q;
  TotalRetries : Z;
  SuccessfulRetries : Z;
  FailedRetries : Z;
  RetrySuccessRate : Q;
  CircuitBreakerTrips : Z;
  CircuitBreakerState : String.string;
  LastCircuitBreakerTrip : Time;
  RateLimitedRequests : Z;
  RequestsPerMinute_observed : Q;
  QuotaUsage : Q;
  AvgResponseTime : Duration;
  P95ResponseTime : Duration;
  FastestResponse : Duration;
  SlowestResponse : Duration
}.

Module Monitor.

Record t := mk {
  config : MonitoringConfig;
  totalRequests : Z;
  successfulRequests : Z;
  failedRequests : Z;
  totalRetries : Z;
  successfulRetries : Z;
  failedRetries : Z;
  circuitBreakerTrips : Z;
  rateLimitedRequests : Z;
  responseTimes : list Duration;
  lastAPISuccess : Time;
  lastAPIFailure : Time
}.

Definition New (cfg : MonitoringConfig) : t :=
  {| config := cfg; totalRequests := 0; successfulRequests := 0;
     failedRequests := 0; totalRetries := 0; successfulRetries := 0;
     failedRetries := 0; circuitBreakerTrips := 0; rateLimitedRequests := 0;
     responseTimes := []; lastAPISuccess := 0; lastAPIFailure := 0 |}.

(** [s[len(s)-1000:]] when [len(s) > 1000], else [s]. *)
Definition keepRecent (s : list Duration) : list Duration :=
  if (1000 <? length s)%nat then drop (length s - 1000) s else s.

Definition RecordSuccess (m : t) (duration : Duration) (now : Time) : t :=
  {| config := config m;
     totalRequests := wrap64 (totalRequests m + 1);
     successfulRequests := wrap64 (successfulRequests m + 1);
     failedRequests := failedRequests m;
     totalRetries := totalRetries m;
     successfulRetries := successfulRetries m;
     failedRetries := failedRetries m;
     circuitBreakerTrips := circuitBreakerTrips m;
     rateLimitedRequests := rateLimitedRequests m;
     responseTimes := keepRecent (responseTimes m ++ [duration]);
     lastAPISuccess := now;
     lastAPIFailure := lastAPIFailure m |}.

Definition RecordFailure (m : t) (duration : Duration) (now : Time) : t :=
  {| config := config m;
     totalRequests := wrap64 (totalRequests m + 1);
     successfulRequests := successfulRequests m;
     failedRequests := wrap64 (failedRequests m + 1);
     totalRetries := totalRetries m;
     successfulRetries := successfulRetries m;
     failedRetries := failedRetries m;
     circuitBreakerTrips := circuitBreakerTrips m;
     rateLimitedRequests := rateLimitedRequests m;
     responseTimes := responseTimes m ++ [duration];
     lastAPISuccess := lastAPISuccess m;
     lastAPIFailure := now |}.

Definition RecordRateLimited (m : t) : t :=
  {| config := config m;
     totalRequests := wrap64 (totalRequests m + 1);
     successfulRequests := successfulRequests m;
     failedRequests := failedRequests m;
     totalRetries := totalRetries m;
     successfulRetries := successfulRetries m;
     failedRetries := failedRetries m;
     circuitBreakerTrips := circuitBreakerTrips m;
     rateLimitedRequests := wrap64 (rateLimitedRequests m + 1);
     responseTimes := responseTimes m;
     lastAPISuccess := lastAPISuccess m;
     lastAPIFailure := lastAPIFailure m |}.

Definition Reset (m : t) : t :=
  {| config := config m; totalRequests := 0; successfulRequests := 0;
     failedRequests := 0; totalRetries := 0; successfulRetries := 0;
     failedRetries := 0; circuitBreakerTrips := 0; rateLimitedRequests := 0;
     responseTimes := []; lastAPISuccess := lastAPISuccess m;
     lastAPIFailure := lastAPIFailure m |}.

(** A recording call of the monitor. *)
Inductive record :=
| Success (duration : Duration) (now : Time)
| Failure (duration : Duration) (now : Time).

Definition apply (m : t) (r : record) : t :=
  match r with
  | Success d now => RecordSuccess m d now
  | Failure d now => RecordFailure m d now
  end.

Definition run (m : t) (rs : list record) : t := fold_left apply rs m.

(** *** The sort of [GetMetrics] *)

(** The body of the inner loop at index [j]: [sorted[j]] and
    [sorted[j+1]] are exchanged when out of order.  Go would panic on an
    index out of range; the loop bounds keep [j+1] below the length. *)
Definition swapStep (sorted : list Duration) (j : nat) : list Duration :=
  match sorted !! j, sorted !! S j with
  | Some a, Some b =>
      if b <? a then <[S j := a]> (<[j := b]> sorted) else sorted
  | _, _ => sorted
  end.

(** [for j := 0; j < len(sorted)-i-1; j++] *)
Definition innerLoop (sorted : list Duration) (i : nat) : list Duration :=
  fold_left swapStep (seq 0 (length sorted - i - 1)) sorted.

(** [for i := 0; i < len(sorted)-1; i++] *)
Definition sortCopy (responseTimes : list Duration) : list Duration :=
  fold_left innerLoop (seq 0 (length responseTimes - 1)) responseTimes.

(** [int(float64(len(sorted)) * 0.95)].  The binary64 product has the
    same integer part as the exact one: at a multiple of 20 it rounds
    back to the integer [0.95 * n], elsewhere the fraction is at least
    0.05. *)
Definition p95Index (n : nat) : nat :=
  Z.to_nat (Q_to_int (inject_Z (Z.of_nat n) * (95 # 100))%Q).

(** The loop over the response times: running total, fastest, slowest. *)
Definition scan (acc : Duration * Duration * Duration) (rt : Duration)
  : Duration * Duration * Duration :=
  let '(total, fastest, slowest) := acc in
  (wrap64 (total + rt),
   if rt <? fastest then rt else fastest,
   if slowest <? rt then rt else slowest).

Definition ratio (a b : Z) : Q := (inject_Z a / inject_Z b)%Q.

Definition GetMetrics (m : t) (cb : CircuitBreaker.t) (rl : RateLimiter.t)
  : Metrics :=
  let rts := responseTimes m in
  let '(avg, p95, fastest, slowest) :=
    match rts with
    | [] => (0, 0, 0, 0)
    | first :: _ =>
        let '(total, fastest, slowest) := fold_left scan rts (0, first, first) in
        let p95 :=
          if (20 <=? length rts)%nat then
            let sorted := sortCopy rts in
            nth (p95Index (length sorted)) sorted 0
          else 0 in
        (Z.quot total (Z.of_nat (length rts)), p95, fastest, slowest)
    end in
  {| TotalRequests := totalRequests m;
     SuccessfulRequests := successfulRequests m;
     FailedRequests := failedRequests m;
     ErrorRate :=
       if 0 <? totalRequests m
       then ratio (failedRequests m) (totalRequests m) else 0%Q;
     TotalRetries := totalRetries m;
     SuccessfulRetries := successfulRetries m;
     FailedRetries := failedRetries m;
     RetrySuccessRate :=
       if 0 <? totalRetries m
       then ratio (successfulRetries m) (totalRetries m) else 0%Q;
     CircuitBreakerTrips := circuitBreakerTrips m;
     CircuitBreakerState := CircuitState_String (CircuitBreaker.GetState cb);
     LastCircuitBreakerTrip := 0;
     RateLimitedRequests := rateLimitedRequests m;
     RequestsPerMinute_observed :=
       inject_Z (Z.of_nat (length (RateLimiter.requestTimes rl)));
     QuotaUsage := 0%Q;
     AvgResponseTime := avg;
     P95ResponseTime := p95;
     FastestResponse := fastest;
     SlowestResponse := slowest |}.

End Monitor.

(** The 95th percentile by the nearest-rank method, as the specification
    words it: on a sorted copy of the [n] samples, the value of rank
    [ceil(95 * n / 100)], ranks counted from 1. *)
Definition nearestRank (n : nat) : nat :=
  Z.to_nat (Qceiling (95 * inject_Z (Z.of_nat n) / 100)%Q).

Definition nearestRankP95 (samples : list Duration) : Duration :=
  nth (nearestRank (length samples) - 1) (merge_sort Z.le samples) 0.

(** ** The agent *)

Module ResilientAgent.

(** The OpenAI client and the fault injector are reached only through
    [performRequest], which [Chat] hands to the retry manager as the
    operation. *)
Record t := mk {
  config : ReliabilityConfig;
  retryManager : RetryManager.t;
  circuitBreaker : CircuitBreaker.t;
  rateLimiter : RateLimiter.t;
  monitor : Monitor.t
}.

(** The clock and random readings of one [Chat] call, in program order. *)
Record readings := {
  startTime : Time;          (* time.Now() on entry *)
  limiterNow : Time;         (* time.Now() in rateLimiter.Allow *)
  breakerNow : Time;         (* time.Since in circuitBreaker.Allow *)
  breakerDraw : Q;           (* rand.Float64() in circuitBreaker.Allow *)
  sinceNow : Time;           (* time.Since(startTime) *)
  breakerRecordNow : Time;   (* time.Now() in circuitBreaker.RecordFailure *)
  monitorRecordNow : Time    (* time.Now() in monitor.Record... *)
}.

(** What a [Chat] call returns and what it ran: [executed] is the
    outcome of [retryManager.Execute] when it was invoked. *)
Record reply := {
  response : String.string;
  err : option error;
  executed : option RetryManager.outcome
}.

Section Chat.

Variable wait : Z -> Duration -> selected.
Variable performRequest : nat -> String.string * option error.

Definition Chat (ra : t) (clk : readings) : option (t * reply) :=
  let (rl, allowed) := RateLimiter.Allow (rateLimiter ra) (limiterNow clk) in
  if negb allowed then
    Some ({| config := config ra; retryManager := retryManager ra;
             circuitBreaker := circuitBreaker ra; rateLimiter := rl;
             monitor := Monitor.RecordRateLimited (monitor ra) |},
          {| response := ""; err := Some "rate limit exceeded"%string;
             executed := None |})
  else
    let (cb, admitted) :=
      CircuitBreaker.Allow (circuitBreaker ra) (breakerNow clk) (breakerDraw clk) in
    let duration := Time_Sub (sinceNow clk) (startTime clk) in
    if negb admitted then
      Some ({| config := config ra; retryManager := retryManager ra;
               circuitBreaker := cb; rateLimiter := rl;
               monitor := Monitor.RecordFailure (monitor ra) duration
                            (monitorRecordNow clk) |},
            {| response := ""; err := Some "circuit breaker is open"%string;
               executed := None |})
    else
      match RetryManager.Execute (retryManager ra) wait performRequest with
      | None => None
      | Some out =>
          match RetryManager.err out with
          | Some e =>
              Some ({| config := config ra; retryManager := retryManager ra;
                       circuitBreaker :=
                         CircuitBreaker.RecordFailure cb (breakerRecordNow clk);
                       rateLimiter := rl;
                       monitor := Monitor.RecordFailure (monitor ra) duration
                                    (monitorRecordNow clk) |},
                    {| response := ""; err := Some e; executed := Some out |})
          | None =>
              Some ({| config := config ra; retryManager := retryManager ra;
                       circuitBreaker := CircuitBreaker.RecordSuccess cb;
                       rateLimiter := rl;
                       monitor := Monitor.RecordSuccess (monitor ra) duration
                                    (monitorRecordNow clk) |},
                    {| response := RetryManager.result out; err := None;
                       executed := Some out |})
          end
      end.

End Chat.

End ResilientAgent.


(** ** Auxiliary notions of the proofs *)

(** What holds of the success counter in every reachable state of the
    breaker. *)
Definition counters_ok (cb : CircuitBreaker.t) : Prop :=
  match CircuitBreaker.state cb with
  | CircuitClosed => True
  | CircuitOpen => CircuitBreaker.successCount cb = 0
  | CircuitHalfOpen =>
      1 <= CircuitBreaker.successCount cb /\
      (CircuitBreaker.successCount cb = 1
       \/ CircuitBreaker.successCount cb
          < ConsecutiveSuccesses (CircuitBreaker.config cb))
  end.

(** Attempt [j] of [Execute], the invocation after [j-1] earlier ones,
    fails with a retriable error. *)
Definition fails_retriably (rm : RetryManager.t)
           (operation : nat -> String.string * option error) (j : Z) : Prop :=
  exists res e, operation (Z.to_nat (j - 1)) = (res, Some e)
                /\ RetryManager.isRetriable rm e = true.

(** The delays computed after the [m] attempts that start at [a]. *)
Definition delays_from (rm : RetryManager.t) (a : Z) (m : nat) : list Duration :=
  map (fun i => RetryManager.calculateDelay rm (a + Z.of_nat i)) (seq 0 m).





(** A function for the general case of [math.Pow] in the examples: for a
    whole exponent [n >= 0], the product of [n] factors [x], rounded after
    each multiplication. *)
Definition pow_products (x y : F64.t) : F64.t :=
  Nat.iter (Z.to_nat (F64.to_int64 y)) (fun a => F64.mul a x) F64.one.

(** *** Rounding

    The notions in which the rounding of [SpecFloat] is described. *)

(** [X / 2 ^ k] rounded to the nearest integer, ties to even. *)
Definition rne (X k : Z) : Z :=
  let q := X / 2 ^ k in
  match 2 * (X mod 2 ^ k) ?= 2 ^ k with
  | Lt => q
  | Eq => if Z.even q then q else q + 1
  | Gt => q + 1
  end.

(** A shift record that describes [X] shifted right by [k] bits: the
    quotient, the bit shifted out last, and whether a bit shifted out
    before it was set. *)
Definition shr_exact (X k : Z) (mrs : shr_record) : Prop :=
  shr_m mrs = X / 2 ^ k /\
  shr_r mrs = Z.odd (X / 2 ^ (k - 1)) && (0 <? k) /\
  shr_s mrs = negb (X mod 2 ^ (k - 1) =? 0) && (0 <? k).

(** The exponent of the mantissa of a number with [e] binary digits
    before the point. *)
Definition fexp64 (e : Z) : Z := Z.max (e - 53) (-1074).

(** The float with sign [s] and value [N * 2 ^ g], for [N] a rounded
    mantissa: the mantissa [2 ^ 53] carries into the exponent, and an
    exponent above the range gives an infinity. *)
Definition pack (s : bool) (N g : Z) : F64.t :=
  if N =? 0 then S754_zero s
  else if N =? 2 ^ 53
       then (if g + 1 <=? 971 then S754_finite s (Z.to_pos (2 ^ 52)) (g + 1)
             else S754_infinity s)
       else (if g <=? 971 then S754_finite s (Z.to_pos N) g
             else S754_infinity s).

(** A rounded mantissa on the exponent [g]: normal above the least
    exponent. *)
Definition on_grid (N g : Z) : Prop :=
  0 <= N <= 2 ^ 53 /\ -1074 <= g /\ (-1074 < g -> 2 ^ 52 <= N).

(** The float nearest to [V] units of [2 ^ E0], with sign [s]. *)
Definition rnd (s : bool) (V : Z) : F64.t :=
  let g := fexp64 (Zdigits2 V + F64.E0) in
  pack s (rne V (g - F64.E0)) g.

Definition round_signed (V : Z) : F64.t :=
  match V with
  | Z0 => S754_zero false
  | Zpos _ => rnd false V
  | Zneg p => rnd true (Zpos p)
  end.

(** A number that is not negative. *)
Definition nnf (x : F64.t) : Prop :=
  F64.valid x = true /\ F64.is_finite x = true /\ 0 <= F64.scaled x.

(** A number that is not negative, or plus infinity. *)
Definition nnw (x : F64.t) : Prop :=
  x = S754_infinity false \/ nnf x.

(** One pass of the inner loop, on lists: the first [m] adjacent pairs are
    compared from left to right and exchanged when out of order. *)
Fixpoint bubblePass (m : nat) (l : list Z) : list Z :=
  match m, l with
  | S m', a :: b :: rest =>
      if b <? a then b :: bubblePass m' (a :: rest)
      else a :: bubblePass m' (b :: rest)
  | _, _ => l
  end.

(** After [i] passes the last [i] elements are in their final place:
    they are sorted and nothing before them is larger. *)
Definition sorted_tail (i : nat) (s : list Z) : Prop :=
  exists a b, s = a ++ b /\ length b = i /\ StronglySorted Z.le b
              /\ Forall (fun x => Forall (Z.le x) b) a.

(** ** Error classification and the fault injector *)

(** [fmt.Errorf(prefix + ": %w", err)]: the message of the wrapped error
    follows the prefix. *)
Definition wrapError (prefix : String.string) (err : error) : error :=
  String.append prefix (String.append ": " err).

Definition classifyError (err : error) : error :=
  if contains err "rate limit" then wrapError "rate_limit" err
  else if contains err "timeout" then wrapError "timeout" err
  else if contains err "server error" || contains err "internal error"
  then wrapError "server_error" err
  else if contains err "network" || contains err "connection"
  then wrapError "network" err
  else err.

Module FaultInjector.

Record t := mk {
  activeFailures : gmap String.string Z
}.

Definition New : t := {| activeFailures := ∅ |}.

Definition InjectFault (fi : t) (faultType : String.string)
           (duration : Duration) (now : Time) : t :=
  {| activeFailures := <[faultType := Time_Add now duration]> (activeFailures fi) |}.

Definition ClearFaults (fi : t) : t := {| activeFailures := ∅ |}.

(** The [switch] of [ShouldFail]: the error of a fault type, when the
    type is one of the five it knows. *)
Definition faultError (faultType : String.string) : option error :=
  if String.eqb faultType "timeout"
  then Some "timeout: simulated timeout error"%string
  else if String.eqb faultType "ratelimit"
  then Some "rate_limit: simulated rate limit error"%string
  else if String.eqb faultType "server_error"
  then Some "server_error: simulated server error"%string
  else if String.eqb faultType "network"
  then Some "network: simulated network error"%string
  else if String.eqb faultType "quota"
  then Some "quota: simulated quota exhaustion"%string
  else None.

(** The first loop of [ShouldFail] over the entries of the map in the
    order [range] yields them: it returns at the first entry that has
    not expired and whose type the [switch] knows. *)
Fixpoint firstFault (now : Time) (entries : list (String.string * Z))
  : option error :=
  match entries with
  | [] => None
  | (faultType, expiry) :: rest =>
      if now <? expiry then
        match faultError faultType with
        | Some e => Some e
        | None => firstFault now rest
        end
      else firstFault now rest
  end.

(** [ShouldFail] at clock reading [now].  Go leaves the order in which
    [range] visits a map open: [entries] is that order.  When no fault
    fires, the entries that [now] is after are deleted. *)
Definition ShouldFail (fi : t) (now : Time)
           (entries : list (String.string * Z)) : t * option error :=
  match firstFault now entries with
  | Some e => (fi, Some e)
  | None =>
      ({| activeFailures :=
            filter (fun kv => negb (Time_After now (snd kv)) = true)
                   (activeFailures fi) |},
       None)
  end.

(** An order in which [range] may visit the map. *)
Definition visits (fi : t) (entries : list (String.string * Z)) : Prop :=
  entries ≡ₚ map_to_list (activeFailures fi).

(** A fault of a type that [ShouldFail] knows is active at [now]. *)
Definition active (fi : t) (now : Time) (faultType : String.string) : Prop :=
  exists expiry, activeFailures fi !! faultType = Some expiry
                 /\ now < expiry /\ is_Some (faultError faultType).

End FaultInjector.

(** What [client.CreateChatCompletion] answers: an error, or the contents
    of the choices of the response. *)
Inductive completion :=
| CompletionError (err : error)
| CompletionChoices (contents : list String.string).

(** [performRequest]: the fault injector is asked first; the client is
    called only when no fault fires, and [answer] is then what it
    returns. *)
Definition performRequest (fi : FaultInjector.t) (now : Time)
           (entries : list (String.string * Z)) (answer : completion)
  : FaultInjector.t * (String.string * option error) :=
  match FaultInjector.ShouldFail fi now entries with
  | (fi', Some e) => (fi', (""%string, Some e))
  | (fi', None) =>
      match answer with
      | CompletionError err => (fi', (""%string, Some (classifyError err)))
      | CompletionChoices [] =>
          (fi', (""%string, Some "no response choices received"%string))
      | CompletionChoices (content :: _) => (fi', (content, None))
      end
  end.

(** ** Health *)

Record HealthStatus := {
  Overall : bool;
  APIConnection : bool;
  CircuitBreakerOpen : bool;
  RateLimitExceeded : bool;
  LastAPISuccess : Time;
  LastAPIFailure : Time;
  ConsecutiveFailures : Z;
  AvailableTokens : Z;
  MemoryUsage : Q;
  GoroutineCount : Z
}.

(** [Monitor.GetHealthStatus].  [alloc] and [goroutines] are what the
    runtime reports; [now1] and [now2] are the clock readings of the two
    [time.Since] calls, in the order they are made. *)
Definition GetHealthStatus (m : Monitor.t) (cb : CircuitBreaker.t)
           (rl : RateLimiter.t) (alloc goroutines : Z) (now1 now2 : Time)
  : HealthStatus :=
  let circuitOpen := CircuitState_eqb (CircuitBreaker.state cb) CircuitOpen in
  let consecutiveFailures := CircuitBreaker.failureCount cb in
  let availableTokens := F64.to_int64 (RateLimiter.tokens rl) in
  let rateLimitExceeded := F64.ltb (RateLimiter.tokens rl) F64.one in
  let apiConnected :=
    Time_Sub now1 (Monitor.lastAPISuccess m)
    <? Time_Sub now2 (Monitor.lastAPIFailure m) in
  let overall := apiConnected && negb circuitOpen && negb rateLimitExceeded in
  {| Overall := overall;
     APIConnection := apiConnected;
     CircuitBreakerOpen := circuitOpen;
     RateLimitExceeded := rateLimitExceeded;
     LastAPISuccess := Monitor.lastAPISuccess m;
     LastAPIFailure := Monitor.lastAPIFailure m;
     ConsecutiveFailures := consecutiveFailures;
     AvailableTokens := availableTokens;
     MemoryUsage := inject_Z alloc;
     GoroutineCount := goroutines |}.

(** ** Further notions of the proofs *)

(** [sub] occurs in [s] at byte offset [i]. *)
Definition occurs_at (s sub : String.string) (i : nat) : Prop :=
  exists pre post, s = String.append pre (String.append sub post)
                   /\ String.length pre = i.

(** The calls of the monitor: the two recordings with a latency sample,
    the recording of a rate-limited request, and the reset. *)
Inductive monitor_call :=
| MonitorRecord (r : Monitor.record)
| MonitorRateLimited
| MonitorReset.

Definition monitor_step (m : Monitor.t) (c : monitor_call) : Monitor.t :=
  match c with
  | MonitorRecord r => Monitor.apply m r
  | MonitorRateLimited => Monitor.RecordRateLimited m
  | MonitorReset => Monitor.Reset m
  end.

Definition monitor_run (m : Monitor.t) (cs : list monitor_call) : Monitor.t :=
  fold_left monitor_step cs m.

(** The request times kept by the limiter: in the order of the calls,
    none later than the last refill, and all of them less than a minute
    before the latest one. *)
Definition request_window (rl : RateLimiter.t) : Prop :=
  StronglySorted Z.le (RateLimiter.requestTimes rl) /\
  Forall (fun t => t <= RateLimiter.lastRefill rl) (RateLimiter.requestTimes rl) /\
  exists latest, Forall (fun t => latest - Minute < t <= latest)
                        (RateLimiter.requestTimes rl).

(** The counters of a monitor after at most [n] recordings. *)
Definition counts_ok (m : Monitor.t) (n : Z) : Prop :=
  0 <= Monitor.successfulRequests m /\
  0 <= Monitor.failedRequests m /\
  0 <= Monitor.rateLimitedRequests m /\
  Monitor.totalRequests m
    = Monitor.successfulRequests m + Monitor.failedRequests m
      + Monitor.rateLimitedRequests m /\
  Monitor.totalRequests m <= n /\
  Monitor.totalRetries m = 0 /\ Monitor.successfulRetries m = 0 /\
  Monitor.failedRetries m = 0 /\ Monitor.circuitBreakerTrips m = 0.

(** The sum of a list of durations. *)
Definition Zsum (l : list Z) : Z := fold_right Z.add 0 l.

(** The inputs of one [Chat] call: its clock and random readings, what
    its context does during the delays, and what the operation returns
    at each invocation. *)
Record chat_input := {
  readings_of : ResilientAgent.readings;
  context_of : Z -> Duration -> selected;
  operation_of : nat -> String.string * option error
}.

(** [Chat] calls made one after the other on the same agent. *)
Fixpoint chats (ra : ResilientAgent.t) (inputs : list chat_input)
  : option (ResilientAgent.t * list ResilientAgent.reply) :=
  match inputs with
  | [] => Some (ra, [])
  | i :: rest =>
      match ResilientAgent.Chat (context_of i) (operation_of i) ra
                                (readings_of i) with
      | None => None
      | Some (ra', r) =>
          match chats ra' rest with
          | None => None
          | Some (ra'', rs) => Some (ra'', r :: rs)
          end
      end
  end.

(** * The scenarios of the specification *)

(** Capacity 10 at 60 requests per minute: ten calls back to back are
    allowed, the eleventh is denied, and one second later one more is
    allowed. *)
Example limiter_burst_scenario :
  RateLimiter.answers
    (RateLimiter.New (RateLimit DefaultReliabilityConfig) 0)
    (replicate 11 0 ++ [Second])
  = replicate 10 true ++ [false; true].
Proof. vm_compute. reflexivity. Qed.

(** Threshold 5: after five failures [Allow] answers false at once, and
    true once the recovery timeout has passed since the last failure. *)
Example breaker_trip_scenario :
  let cb := CircuitBreaker.run
              (CircuitBreaker.New (CircuitBreaker_cfg DefaultReliabilityConfig))
              (CircuitBreaker.failures [1; 2; 3; 4; 5]) in
  snd (CircuitBreaker.Allow cb 6 0) = false /\
  snd (CircuitBreaker.Allow cb (5 + 60 * Second) 0) = true.
Proof. split; reflexivity. Qed.

(** Three attempts, base delay 100ms, multiplier 2, no jitter: an
    operation that fails twice and then succeeds returns its value after
    delays of 100ms and 200ms. *)
Example retry_scenario :
  let rm := {| RetryManager.config :=
                 {| MaxAttempts := 3; BaseDelay := 100 * Millisecond;
                    MaxDelay := 30 * Second; BackoffMultiplier := F64.of_int 2;
                    JitterPercent := 0;
                    RetriableErrors := RetriableErrors (Retry DefaultReliabilityConfig) |};
               RetryManager.random := fun _ => F64.zero;
         RetryManager.pow := pow_products |} in
  let operation := fun n : nat =>
    if (n <? 2)%nat then (""%string, Some "timeout: try again"%string)
    else ("done"%string, None) in
  RetryManager.Execute rm (fun _ _ => TimerFired) operation
  = Some {| RetryManager.result := "done"; RetryManager.err := None;
            RetryManager.calls := 3;
            RetryManager.delays := [100 * Millisecond; 200 * Millisecond] |}.
Proof. vm_compute. reflexivity. Qed.

(** * Properties *)

(** ** Machine arithmetic *)

Lemma wrap64_id z : in_int64 z -> wrap64 z = z.
Proof.
  unfold in_int64, wrap64, minInt64, maxInt64. intros Hz.
  rewrite Z.mod_small; lia.
Qed.

Lemma wrap64_succ z : minInt64 <= z < maxInt64 -> wrap64 (z + 1) = z + 1.
Proof.
  intros Hz. apply wrap64_id. unfold in_int64 in *. lia.
Qed.

Lemma Time_Sub_nonneg now t : t <= now -> 0 <= Time_Sub now t.
Proof.
  intros Hle. unfold Time_Sub, maxInt64, minInt64.
  repeat case_match; lia.
Qed.

(** ** Binary64 arithmetic *)

(** *** Digits *)

Lemma digits2_pos_bounds (p : positive) :
  2 ^ (Zpos (digits2_pos p) - 1) <= Zpos p < 2 ^ Zpos (digits2_pos p).
Proof.
  induction p as [p IH|p IH|]; cbn [digits2_pos].
  - rewrite Pos2Z.inj_succ.
    replace (Z.succ (Zpos (digits2_pos p)) - 1) with (Z.succ (Zpos (digits2_pos p) - 1)) by lia.
    rewrite !Z.pow_succ_r by lia. lia.
  - rewrite Pos2Z.inj_succ.
    replace (Z.succ (Zpos (digits2_pos p)) - 1) with (Z.succ (Zpos (digits2_pos p) - 1)) by lia.
    rewrite !Z.pow_succ_r by lia. lia.
  - simpl. lia.
Qed.

Lemma Zdigits2_bounds (z : Z) :
  0 < z -> 2 ^ (Zdigits2 z - 1) <= z < 2 ^ Zdigits2 z.
Proof.
  destruct z as [|p|p]; try lia. intros _. apply digits2_pos_bounds.
Qed.

Lemma Zdigits2_pos (z : Z) : 0 < z -> 0 < Zdigits2 z.
Proof. destruct z; simpl; lia. Qed.

Lemma Zdigits2_nonneg (z : Z) : 0 <= Zdigits2 z.
Proof. destruct z; simpl; lia. Qed.

Lemma pow2_lt_inv (a b : Z) : 0 <= b -> 2 ^ a < 2 ^ b -> a < b.
Proof.
  intros Hb H. destruct (Z.lt_ge_cases a b) as [|Hge]; [assumption|].
  assert (2 ^ b <= 2 ^ a) by (apply Z.pow_le_mono_r; lia). lia.
Qed.

Lemma Zdigits2_unique (z k : Z) :
  0 < z -> 2 ^ (k - 1) <= z < 2 ^ k -> Zdigits2 z = k.
Proof.
  intros Hz [Hlo Hhi].
  destruct (Zdigits2_bounds z Hz) as [Hlo' Hhi'].
  pose proof (Zdigits2_pos z Hz) as Hd.
  assert (0 < k).
  { destruct (Z.lt_ge_cases 0 k); [assumption|].
    rewrite Z.pow_neg_r in Hhi by lia || (destruct (Z.eq_dec k 0); subst; simpl in *; lia).
    lia. }
  assert (Zdigits2 z - 1 < k) by (apply pow2_lt_inv; lia).
  assert (k - 1 < Zdigits2 z) by (apply pow2_lt_inv; lia).
  lia.
Qed.

Lemma Zdigits2_mul_pow2 (z n : Z) :
  0 < z -> 0 <= n -> Zdigits2 (z * 2 ^ n) = Zdigits2 z + n.
Proof.
  intros Hz Hn. destruct (Zdigits2_bounds z Hz) as [Hlo Hhi].
  pose proof (Zdigits2_pos z Hz) as Hd.
  assert (0 < 2 ^ n) by (apply Z.pow_pos_nonneg; lia).
  apply Zdigits2_unique; [nia|].
  replace (Zdigits2 z + n - 1) with ((Zdigits2 z - 1) + n) by lia.
  rewrite !Z.pow_add_r by lia. nia.
Qed.


Lemma Zdigits2_lt_pow2 (z k : Z) : 0 <= k -> 0 <= z < 2 ^ k -> Zdigits2 z <= k.
Proof.
  intros Hk [Hz Hlt].
  destruct (Z.eq_dec z 0) as [->|Hnz]; [simpl; lia|].
  destruct (Zdigits2_bounds z ltac:(lia)) as [Hlo _].
  assert (Zdigits2 z - 1 < k) by (apply pow2_lt_inv; lia). lia.
Qed.

Lemma Zdigits2_ge_pow2 (z k : Z) : 2 ^ k <= z -> 0 <= k -> k + 1 <= Zdigits2 z.
Proof.
  intros Hle Hk.
  assert (0 < 2 ^ k) by (apply Z.pow_pos_nonneg; lia).
  destruct (Zdigits2_bounds z ltac:(lia)) as [_ Hhi].
  pose proof (Zdigits2_nonneg z).
  assert (k < Zdigits2 z) by (apply pow2_lt_inv; lia). lia.
Qed.

Lemma Zdigits2_div_pow2 (z n : Z) :
  0 < z -> 0 <= n -> n < Zdigits2 z ->
  Zdigits2 (z / 2 ^ n) = Zdigits2 z - n.
Proof.
  intros Hz Hn Hlt. destruct (Zdigits2_bounds z Hz) as [Hlo Hhi].
  assert (Hp : 0 < 2 ^ n) by (apply Z.pow_pos_nonneg; lia).
  assert (Hlo' : 2 ^ (Zdigits2 z - n - 1) <= z / 2 ^ n).
  { apply Z.div_le_lower_bound; [lia|].
    rewrite <- Z.pow_add_r by lia.
    replace (n + (Zdigits2 z - n - 1)) with (Zdigits2 z - 1) by lia. exact Hlo. }
  assert (Hhi' : z / 2 ^ n < 2 ^ (Zdigits2 z - n)).
  { apply Z.div_lt_upper_bound; [lia|].
    rewrite <- Z.pow_add_r by lia.
    replace (n + (Zdigits2 z - n)) with (Zdigits2 z) by lia. exact Hhi. }
  assert (0 < 2 ^ (Zdigits2 z - n - 1)) by (apply Z.pow_pos_nonneg; lia).
  apply Zdigits2_unique; [lia|]. split; assumption.
Qed.

Lemma div_pow2_small (z n : Z) :
  0 <= z -> Zdigits2 z <= n -> z / 2 ^ n = 0.
Proof.
  intros Hz Hn. destruct (Z.eq_dec z 0) as [->|Hnz].
  - apply Z.div_0_l. pose proof (Zdigits2_nonneg 0).
    assert (0 < 2 ^ n) by (apply Z.pow_pos_nonneg; simpl in *; lia). lia.
  - destruct (Zdigits2_bounds z ltac:(lia)) as [_ Hhi].
    pose proof (Zdigits2_pos z ltac:(lia)).
    apply Z.div_small. split; [lia|].
    assert (2 ^ Zdigits2 z <= 2 ^ n) by (apply Z.pow_le_mono_r; lia). lia.
Qed.

Lemma Zdigits2_mul (a b : Z) :
  0 < a -> 0 < b ->
  Zdigits2 a + Zdigits2 b - 1 <= Zdigits2 (a * b) <= Zdigits2 a + Zdigits2 b.
Proof.
  intros Ha Hb.
  destruct (Zdigits2_bounds a Ha) as [Hla Hha].
  destruct (Zdigits2_bounds b Hb) as [Hlb Hhb].
  pose proof (Zdigits2_pos a Ha). pose proof (Zdigits2_pos b Hb).
  assert (0 < 2 ^ (Zdigits2 a - 1)) by (apply Z.pow_pos_nonneg; lia).
  assert (0 < 2 ^ (Zdigits2 b - 1)) by (apply Z.pow_pos_nonneg; lia).
  split.
  - assert (2 ^ (Zdigits2 a + Zdigits2 b - 2) <= a * b).
    { replace (Zdigits2 a + Zdigits2 b - 2)
        with ((Zdigits2 a - 1) + (Zdigits2 b - 1)) by lia.
      rewrite Z.pow_add_r by lia. nia. }
    pose proof (Zdigits2_ge_pow2 (a * b) (Zdigits2 a + Zdigits2 b - 2)). lia.
  - apply Zdigits2_lt_pow2; [lia|]. split; [nia|].
    rewrite Z.pow_add_r by lia. nia.
Qed.

(** *** Shifting the mantissa right *)

Lemma shr_1_m (mrs : shr_record) :
  0 <= shr_m mrs -> shr_m (shr_1 mrs) = shr_m mrs / 2.
Proof.
  destruct mrs as [m r s]. simpl. intros Hm.
  destruct m as [|[p|p|]|p]; simpl; try lia; try reflexivity.
  - rewrite Pos2Z.inj_xI. apply Z.div_unique with 1; lia.
  - rewrite Pos2Z.inj_xO. apply Z.div_unique with 0; lia.
Qed.

Lemma iter_shr_1_m (p : positive) : forall mrs : shr_record,
  0 <= shr_m mrs -> shr_m (SpecFloat.iter_pos shr_1 p mrs) = shr_m mrs / 2 ^ Zpos p.
Proof.
  induction p as [p IH|p IH|]; intros mrs Hm; cbn [SpecFloat.iter_pos].
  - assert (H1 : 0 <= shr_m (shr_1 mrs))
      by (rewrite shr_1_m by assumption; apply Z.div_pos; lia).
    assert (H2 : 0 <= shr_m (SpecFloat.iter_pos shr_1 p (shr_1 mrs)))
      by (rewrite IH by assumption; apply Z.div_pos; [lia|apply Z.pow_pos_nonneg; lia]).
    rewrite IH, IH, shr_1_m by assumption.
    rewrite !Z.div_div by (try apply Z.pow_pos_nonneg; lia).
    f_equal. rewrite (Pos2Z.inj_xI p).
    replace (2 * Zpos p + 1) with (1 + Zpos p + Zpos p) by lia.
    rewrite Z.pow_add_r by lia. rewrite Z.pow_add_r by lia. lia.
  - assert (H2 : 0 <= shr_m (SpecFloat.iter_pos shr_1 p mrs))
      by (rewrite IH by assumption; apply Z.div_pos; [lia|apply Z.pow_pos_nonneg; lia]).
    rewrite IH, IH by assumption.
    rewrite !Z.div_div by (try apply Z.pow_pos_nonneg; lia).
    f_equal. rewrite (Pos2Z.inj_xO p).
    replace (2 * Zpos p) with (Zpos p + Zpos p) by lia.
    rewrite Z.pow_add_r by lia. lia.
  - rewrite shr_1_m by assumption. reflexivity.
Qed.

Lemma shr_m_spec (m : Z) (r s : bool) (e n : Z) :
  0 <= m ->
  shr (Build_shr_record m r s) e n
  = (fst (shr (Build_shr_record m r s) e n), Z.max e (e + n)) /\
  shr_m (fst (shr (Build_shr_record m r s) e n)) = m / 2 ^ Z.max 0 n.
Proof.
  intros Hm. destruct n as [|p|p]; simpl.
  - split; [f_equal; lia | rewrite Z.div_1_r; reflexivity].
  - split; [f_equal; lia |].
    rewrite iter_shr_1_m by assumption. reflexivity.
  - split; [f_equal; lia | rewrite Z.div_1_r; reflexivity].
Qed.

(** *** Rounding to nearest, ties to even *)

Lemma mod_pow2_split (X k : Z) :
  1 <= k ->
  X mod 2 ^ k = X mod 2 ^ (k - 1) + 2 ^ (k - 1) * ((X / 2 ^ (k - 1)) mod 2).
Proof.
  intros Hk.
  assert (Hp : 0 < 2 ^ (k - 1)) by (apply Z.pow_pos_nonneg; lia).
  assert (Hpk : 2 ^ k = 2 * 2 ^ (k - 1)).
  { replace k with (Z.succ (k - 1)) at 1 by lia. apply Z.pow_succ_r. lia. }
  pose proof (Z.div_mod X (2 ^ (k - 1)) ltac:(lia)) as HX.
  pose proof (Z.mod_pos_bound X (2 ^ (k - 1)) Hp) as Hr0.
  pose proof (Z.div_mod (X / 2 ^ (k - 1)) 2 ltac:(lia)) as Ha.
  pose proof (Z.mod_pos_bound (X / 2 ^ (k - 1)) 2 ltac:(lia)) as Hc.
  symmetry. apply Z.mod_unique with (X / 2 ^ (k - 1) / 2); [left; nia|].
  rewrite Hpk. nia.
Qed.

Lemma shr_1_r (mrs : shr_record) :
  0 <= shr_m mrs -> shr_r (shr_1 mrs) = Z.odd (shr_m mrs).
Proof.
  destruct mrs as [m r s]. simpl. intros Hm.
  destruct m as [|[p|p|]|p]; simpl; try lia; reflexivity.
Qed.

Lemma shr_1_s (mrs : shr_record) :
  shr_s (shr_1 mrs) = shr_r mrs || shr_s mrs.
Proof.
  destruct mrs as [m r s]. simpl.
  destruct m as [|[p|p|]|[p|p|]]; reflexivity.
Qed.

Lemma shr_exact_0 (X : Z) : shr_exact X 0 (Build_shr_record X false false).
Proof.
  unfold shr_exact. simpl. rewrite Z.div_1_r, andb_false_r, andb_false_r. auto.
Qed.

Lemma shr_exact_step (X k : Z) (mrs : shr_record) :
  0 <= X -> 0 <= k -> shr_exact X k mrs -> shr_exact X (k + 1) (shr_1 mrs).
Proof.
  intros HX Hk (Hm & Hr & Hs).
  assert (Hp : 0 < 2 ^ k) by (apply Z.pow_pos_nonneg; lia).
  assert (Hm0 : 0 <= shr_m mrs) by (rewrite Hm; apply Z.div_pos; lia).
  unfold shr_exact. replace (k + 1 - 1) with k by lia.
  assert (H01 : (0 <? k + 1) = true) by (apply Z.ltb_lt; lia).
  rewrite H01, !andb_true_r.
  split; [|split].
  - rewrite shr_1_m, Hm by assumption.
    rewrite Z.div_div by lia. rewrite Z.pow_add_r by lia. reflexivity.
  - rewrite shr_1_r, Hm by assumption. reflexivity.
  - rewrite shr_1_s, Hr, Hs.
    destruct (Z.ltb_spec 0 k) as [Hk1|Hk0].
    + rewrite !andb_true_r.
      rewrite (mod_pow2_split X k) by lia.
      assert (Hp1 : 0 < 2 ^ (k - 1)) by (apply Z.pow_pos_nonneg; lia).
      pose proof (Z.mod_pos_bound X (2 ^ (k - 1)) Hp1) as Hr0.
      rewrite (Zmod_odd (X / 2 ^ (k - 1))).
      destruct (Z.odd (X / 2 ^ (k - 1))); simpl.
      * symmetry. apply negb_true_iff, Z.eqb_neq. nia.
      * rewrite Z.mul_0_r, Z.add_0_r. reflexivity.
    + assert (k = 0) as -> by lia. rewrite !andb_false_r. simpl.
      rewrite Z.mod_1_r. reflexivity.
Qed.

Lemma shr_exact_iter (p : positive) : forall (X k : Z) (mrs : shr_record),
  0 <= X -> 0 <= k -> shr_exact X k mrs ->
  shr_exact X (k + Zpos p) (SpecFloat.iter_pos shr_1 p mrs).
Proof.
  induction p as [p IH|p IH|]; intros X k mrs HX Hk H; cbn [SpecFloat.iter_pos].
  - rewrite (Pos2Z.inj_xI p).
    replace (k + (2 * Zpos p + 1)) with (k + 1 + Zpos p + Zpos p) by lia.
    apply IH; [lia | lia |]. apply IH; [lia | lia |].
    apply shr_exact_step; assumption.
  - rewrite (Pos2Z.inj_xO p).
    replace (k + 2 * Zpos p) with (k + Zpos p + Zpos p) by lia.
    apply IH; [lia | lia |]. apply IH; assumption.
  - apply shr_exact_step; assumption.
Qed.

Lemma round_shr_exact (X k : Z) (mrs : shr_record) :
  0 <= X -> 0 <= k -> shr_exact X k mrs ->
  round_nearest_even (shr_m mrs) (loc_of_shr_record mrs) = rne X k.
Proof.
  intros HX Hk (Hm & Hr & Hs). unfold rne.
  destruct mrs as [m r s]. simpl in Hm, Hr, Hs. simpl shr_m.
  destruct (Z.ltb_spec 0 k) as [Hk1|Hk0].
  - rewrite andb_true_r in Hr, Hs.
    assert (Hp1 : 0 < 2 ^ (k - 1)) by (apply Z.pow_pos_nonneg; lia).
    assert (Hpk : 2 ^ k = 2 * 2 ^ (k - 1)).
    { replace k with (Z.succ (k - 1)) at 1 by lia. apply Z.pow_succ_r. lia. }
    pose proof (Z.mod_pos_bound X (2 ^ (k - 1)) Hp1) as Hr0.
    rewrite (mod_pow2_split X k) by lia.
    rewrite (Zmod_odd (X / 2 ^ (k - 1))), <- Hr, <- Hm.
    destruct r; cbn [loc_of_shr_record round_nearest_even].
    + destruct s; cbn [loc_of_shr_record round_nearest_even].
      * symmetry in Hs. apply negb_true_iff, Z.eqb_neq in Hs.
        assert (Hc : (2 * (X mod 2 ^ (k - 1) + 2 ^ (k - 1) * 1) ?= 2 ^ k) = Gt)
          by (apply Z.compare_gt_iff; lia).
        rewrite Hc. reflexivity.
      * symmetry in Hs. apply negb_false_iff, Z.eqb_eq in Hs.
        assert (Hc : (2 * (X mod 2 ^ (k - 1) + 2 ^ (k - 1) * 1) ?= 2 ^ k) = Eq)
          by (apply Z.compare_eq_iff; lia).
        rewrite Hc. reflexivity.
    + assert (Hc : (2 * (X mod 2 ^ (k - 1) + 2 ^ (k - 1) * 0) ?= 2 ^ k) = Lt)
        by (apply Z.compare_lt_iff; lia).
      rewrite Hc. destruct s; reflexivity.
  - assert (k = 0) as -> by lia. cbn [loc_of_shr_record round_nearest_even].
    rewrite andb_false_r in Hr, Hs. subst r s. simpl.
    rewrite Z.mod_1_r, Z.div_1_r in *. simpl. exact Hm.
Qed.

Lemma rne_bounds (X k : Z) :
  X / 2 ^ k <= rne X k <= X / 2 ^ k + 1.
Proof.
  unfold rne. destruct (_ ?= _); [destruct (Z.even _)| |]; lia.
Qed.

Lemma rne_exact (X k : Z) :
  0 <= k -> X mod 2 ^ k = 0 -> rne X k = X / 2 ^ k.
Proof.
  intros Hk H. unfold rne. rewrite H.
  assert (0 < 2 ^ k) by (apply Z.pow_pos_nonneg; lia).
  assert (Hc : (2 * 0 ?= 2 ^ k) = Lt) by (apply Z.compare_lt_iff; lia).
  rewrite Hc. reflexivity.
Qed.

(** Rounding never crosses a point of the grid. *)
Lemma rne_le (X Y k : Z) : 0 <= k -> X <= Y * 2 ^ k -> rne X k <= Y.
Proof.
  intros Hk HXY. assert (Hp : 0 < 2 ^ k) by (apply Z.pow_pos_nonneg; lia).
  pose proof (Z.div_mod X (2 ^ k) ltac:(lia)) as HX.
  pose proof (Z.mod_pos_bound X (2 ^ k) Hp) as Hr.
  destruct (Z.eq_dec (X mod 2 ^ k) 0) as [H0|Hn0].
  - rewrite rne_exact by assumption. nia.
  - pose proof (rne_bounds X k). nia.
Qed.

Lemma rne_ge (X Y k : Z) : 0 <= k -> Y * 2 ^ k <= X -> Y <= rne X k.
Proof.
  intros Hk HXY. assert (Hp : 0 < 2 ^ k) by (apply Z.pow_pos_nonneg; lia).
  pose proof (Z.div_mod X (2 ^ k) ltac:(lia)) as HX.
  pose proof (Z.mod_pos_bound X (2 ^ k) Hp) as Hr.
  pose proof (rne_bounds X k). nia.
Qed.

(** *** The rounding of an exact mantissa *)

Lemma shr_exact_shr (X ex k : Z) :
  0 <= X -> 0 <= k ->
  exists mrs, shr (Build_shr_record X false false) ex k = (mrs, ex + k)
              /\ shr_exact X k mrs.
Proof.
  intros HX Hk. destruct k as [|p|p]; try lia.
  - eexists. split; [simpl; rewrite Z.add_0_r; reflexivity | apply shr_exact_0].
  - eexists. split; [reflexivity|].
    apply (shr_exact_iter p X 0); [lia | lia | apply shr_exact_0].
Qed.

Lemma rne_on_grid (X ex : Z) :
  0 < X ->
  let g := fexp64 (Zdigits2 X + ex) in
  ex <= g -> on_grid (rne X (g - ex)) g.
Proof.
  intros HX g Hg. unfold on_grid.
  pose proof (rne_bounds X (g - ex)) as [Hlo Hhi].
  pose proof (Zdigits2_pos X HX) as Hd.
  assert (Hp : 0 < 2 ^ (g - ex)) by (apply Z.pow_pos_nonneg; lia).
  assert (Hq0 : 0 <= X / 2 ^ (g - ex)) by (apply Z.div_pos; lia).
  assert (Hgd : Zdigits2 X + ex - 53 <= g) by (unfold g, fexp64; lia).
  assert (Hgm : -1074 <= g) by (unfold g, fexp64; lia).
  split; [split; [lia|]|split; [exact Hgm|]].
  - destruct (Z.lt_ge_cases (g - ex) (Zdigits2 X)) as [Hlt|Hge].
    + assert (Hdq := Zdigits2_div_pow2 X (g - ex) HX ltac:(lia) Hlt).
      assert (X / 2 ^ (g - ex) < 2 ^ 53).
      { destruct (Z.eq_dec (X / 2 ^ (g - ex)) 0) as [->|Hn]; [reflexivity|].
        destruct (Zdigits2_bounds (X / 2 ^ (g - ex)) ltac:(lia)) as [_ Hb].
        assert (2 ^ Zdigits2 (X / 2 ^ (g - ex)) <= 2 ^ 53)
          by (apply Z.pow_le_mono_r; lia).
        lia. }
      lia.
    + rewrite (div_pow2_small X (g - ex)) in Hhi by lia.
      change (2 ^ 53) with 9007199254740992. lia.
  - intros Hgt.
    assert (Hge : g = Zdigits2 X + ex - 53) by (unfold g, fexp64 in *; lia).
    assert (Hdq := Zdigits2_div_pow2 X (g - ex) HX ltac:(lia) ltac:(lia)).
    assert (Hq : 0 < X / 2 ^ (g - ex)).
    { destruct (Z.eq_dec (X / 2 ^ (g - ex)) 0) as [H0|Hn]; [|lia].
      rewrite H0 in Hdq. simpl in Hdq. lia. }
    destruct (Zdigits2_bounds _ Hq) as [Hb _].
    rewrite Hdq in Hb. replace (Zdigits2 X - (g - ex) - 1) with 52 in Hb by lia.
    lia.
Qed.

Lemma round_aux_exact (s : bool) (X ex : Z) :
  0 < X ->
  let g := fexp64 (Zdigits2 X + ex) in
  ex <= g ->
  binary_round_aux 53 1024 s X ex loc_Exact = pack s (rne X (g - ex)) g.
Proof.
  intros HX g Hg.
  destruct (rne_on_grid X ex HX Hg) as ((HN0 & HN1) & Hgm & Hnorm).
  fold g in HN0, HN1, Hnorm, Hgm.
  unfold binary_round_aux, shr_fexp. change (fexp 53 1024) with fexp64. fold g.
  cbn [shr_record_of_loc].
  destruct (shr_exact_shr X ex (g - ex) ltac:(lia) ltac:(lia)) as (mrs & Heq & Hex).
  rewrite Heq. replace (ex + (g - ex)) with g by lia.
  rewrite (round_shr_exact X (g - ex) mrs) by (assumption || lia).
  set (N := rne X (g - ex)) in *.
  unfold pack.
  destruct (Z.eqb_spec N 0) as [HN|HN].
  - rewrite HN. cbn [Zdigits2].
    assert (Hk : fexp64 (0 + g) - g <= 0) by (unfold fexp64; lia).
    destruct (fexp64 (0 + g) - g) as [|p|p]; try lia; reflexivity.
  - destruct (Z.eqb_spec N (2 ^ 53)) as [HN2|HN2].
    + rewrite HN2. change (Zdigits2 (2 ^ 53)) with 54.
      assert (Hk : fexp64 (54 + g) - g = 1) by (unfold fexp64; lia).
      rewrite Hk. cbn. reflexivity.
    + assert (Hd : Zdigits2 N <= 53).
      { apply Zdigits2_lt_pow2; lia. }
      assert (Hk : fexp64 (Zdigits2 N + g) - g <= 0) by (unfold fexp64; lia).
      destruct (fexp64 (Zdigits2 N + g) - g) as [|p|p]; try lia.
      * cbn [shr fst snd shr_m]. destruct N as [|n|n]; try lia. reflexivity.
      * cbn [shr fst snd shr_m]. destruct N as [|n|n]; try lia. reflexivity.
Qed.

(** *** Valid floats and their values *)

Lemma bounded_inv (m : positive) (e : Z) :
  bounded 53 1024 m e = true ->
  Zdigits2 (Zpos m) <= 53 /\ -1074 <= e <= 971 /\
  (-1074 < e -> Zdigits2 (Zpos m) = 53).
Proof.
  unfold bounded, canonical_mantissa. change (fexp 53 1024) with fexp64.
  intros H. apply andb_true_iff in H as [H1 H2].
  apply Z.eqb_eq in H1. apply Z.leb_le in H2.
  unfold fexp64 in H1. change (1024 - 53) with 971 in H2.
  cbn [Zdigits2]. lia.
Qed.

Lemma bounded_intro (m : positive) (e : Z) :
  Zdigits2 (Zpos m) <= 53 -> -1074 <= e <= 971 ->
  (-1074 < e -> Zdigits2 (Zpos m) = 53) ->
  bounded 53 1024 m e = true.
Proof.
  intros Hd He Hn. unfold bounded, canonical_mantissa.
  change (fexp 53 1024) with fexp64.
  apply andb_true_iff.
  split; [apply Z.eqb_eq | apply Z.leb_le; change (1024 - 53) with 971; lia].
  unfold fexp64. cbn [Zdigits2] in *. lia.
Qed.

Lemma pack_valid (s : bool) (N g : Z) :
  on_grid N g -> F64.valid (pack s N g) = true.
Proof.
  intros ((HN0 & HN1) & Hg & Hnorm). unfold pack.
  destruct (Z.eqb_spec N 0) as [|HN]; [reflexivity|].
  destruct (Z.eqb_spec N (2 ^ 53)) as [HN2|HN2].
  - destruct (Z.leb_spec (g + 1) 971); [|reflexivity].
    apply bounded_intro; [simpl; lia | lia | reflexivity].
  - destruct (Z.leb_spec g 971); [|reflexivity].
    unfold F64.valid, valid_binary.
    assert (Hpos : Zpos (Z.to_pos N) = N) by (apply Z2Pos.id; lia).
    apply bounded_intro; rewrite ?Hpos.
    + apply Zdigits2_lt_pow2; lia.
    + lia.
    + intros Hgt. specialize (Hnorm Hgt).
      apply Zdigits2_unique; [lia|]. simpl (53 - 1). lia.
Qed.

Lemma pack_sign (s : bool) (N g : Z) :
  pack s N g = S754_zero s \/ pack s N g = S754_infinity s \/
  exists m e, pack s N g = S754_finite s m e.
Proof.
  unfold pack. destruct (N =? 0); [left; reflexivity|].
  destruct (N =? 2 ^ 53).
  - destruct (_ <=? _); [right; right; eauto | right; left; reflexivity].
  - destruct (_ <=? _); [right; right; eauto | right; left; reflexivity].
Qed.

Lemma pack_scaled (s : bool) (N g : Z) :
  0 <= N -> -1074 <= g -> F64.is_finite (pack s N g) = true ->
  F64.scaled (pack s N g) = cond_Zopp s (N * 2 ^ (g - F64.E0)).
Proof.
  intros HN Hg. unfold pack.
  destruct (Z.eqb_spec N 0) as [->|HN0]; [intros _; destruct s; reflexivity|].
  destruct (Z.eqb_spec N (2 ^ 53)) as [HN2|HN2].
  - destruct (_ <=? _); [intros _|discriminate]. cbn [F64.scaled].
    f_equal. rewrite HN2. unfold F64.E0.
    replace (g + 1 - -2148) with (1 + (g - -2148)) by lia.
    rewrite Z.pow_add_r by lia.
    change (Z.pos (Z.to_pos (2 ^ 52))) with 4503599627370496.
    change (2 ^ 1) with 2. change (2 ^ 53) with 9007199254740992. lia.
  - destruct (_ <=? _); [intros _|discriminate]. cbn [F64.scaled].
    rewrite Z2Pos.id by lia. reflexivity.
Qed.

Lemma scaled_lt_exp (m1 m2 : positive) (e1 e2 : Z) :
  bounded 53 1024 m1 e1 = true -> bounded 53 1024 m2 e2 = true -> e1 < e2 ->
  Zpos m1 * 2 ^ (e1 - F64.E0) < Zpos m2 * 2 ^ (e2 - F64.E0).
Proof.
  intros H1 H2 Hlt.
  destruct (bounded_inv m1 e1 H1) as (Hd1 & He1 & _).
  destruct (bounded_inv m2 e2 H2) as (_ & He2 & Hn2).
  specialize (Hn2 ltac:(lia)).
  destruct (Zdigits2_bounds (Zpos m1) ltac:(lia)) as [_ Hhi].
  destruct (Zdigits2_bounds (Zpos m2) ltac:(lia)) as [Hlo _].
  rewrite Hn2 in Hlo. simpl (53 - 1) in Hlo.
  assert (Zpos m1 < 2 ^ 53).
  { assert (2 ^ Zdigits2 (Zpos m1) <= 2 ^ 53) by (apply Z.pow_le_mono_r; lia). lia. }
  unfold F64.E0.
  replace (e2 - -2148) with ((e1 - -2148) + (e2 - e1)) by lia.
  rewrite Z.pow_add_r by lia.
  assert (0 < 2 ^ (e1 - -2148)) by (apply Z.pow_pos_nonneg; lia).
  assert (2 ^ 1 <= 2 ^ (e2 - e1)) by (apply Z.pow_le_mono_r; lia).
  change (2 ^ 1) with 2 in *. change (2 ^ 53) with (2 * 2 ^ 52) in *.
  set (A := 2 ^ (e1 - -2148)) in *. set (B := 2 ^ (e2 - e1)) in *.
  set (c := 2 ^ 52) in *. assert (0 < c) by reflexivity.
  assert (A * 2 <= A * B) by nia.
  assert (c * (A * 2) <= Zpos m2 * (A * B)) by (apply Z.mul_le_mono_nonneg; lia).
  assert (Zpos m1 * A < 2 * c * A) by nia.
  lia.
Qed.

Lemma scaled_abs_pos (m : positive) (e : Z) :
  bounded 53 1024 m e = true -> 0 < Zpos m * 2 ^ (e - F64.E0).
Proof.
  intros H. destruct (bounded_inv m e H) as (_ & ? & _).
  apply Z.mul_pos_pos; [lia | apply Z.pow_pos_nonneg; unfold F64.E0; lia].
Qed.

Lemma compare_scaled (x y : F64.t) :
  F64.valid x = true -> F64.valid y = true ->
  F64.is_finite x = true -> F64.is_finite y = true ->
  SFcompare x y = Some (F64.scaled x ?= F64.scaled y).
Proof.
  intros Hx Hy Fx Fy.
  destruct x as [sx|sx| |sx mx ex]; try discriminate;
  destruct y as [sy|sy| |sy my ey]; try discriminate.
  - reflexivity.
  - cbn [SFcompare F64.scaled].
    pose proof (scaled_abs_pos my ey Hy).
    f_equal. destruct sy; cbn [cond_Zopp]; symmetry;
      [apply Z.compare_gt_iff | apply Z.compare_lt_iff]; lia.
  - cbn [SFcompare F64.scaled].
    pose proof (scaled_abs_pos mx ex Hx).
    f_equal. destruct sx; cbn [cond_Zopp]; symmetry;
      [apply Z.compare_lt_iff | apply Z.compare_gt_iff]; lia.
  - unfold F64.valid, valid_binary in Hx, Hy.
    pose proof (scaled_abs_pos mx ex Hx) as Px.
    pose proof (scaled_abs_pos my ey Hy) as Py.
    assert (Hcmp : match ex ?= ey with
                   | Lt => Lt | Gt => Gt
                   | Eq => Pos.compare_cont Eq mx my
                   end
                   = (Zpos mx * 2 ^ (ex - F64.E0) ?= Zpos my * 2 ^ (ey - F64.E0))).
    { destruct (Z.compare_spec ex ey) as [->|Hlt|Hgt].
      - rewrite <- Zmult_compare_compat_r
          by (apply Z.lt_gt, Z.pow_pos_nonneg; [lia|];
              destruct (bounded_inv my ey Hy) as (_ & ? & _); unfold F64.E0; lia).
        reflexivity.
      - symmetry. apply Z.compare_lt_iff. apply scaled_lt_exp; assumption.
      - symmetry. apply Z.compare_gt_iff. apply scaled_lt_exp; assumption. }
    cbn [SFcompare F64.scaled]. f_equal.
    destruct sx, sy; cbn [cond_Zopp].
    + rewrite Z.compare_opp, (Z.compare_antisym (Zpos mx * _)), <- Hcmp.
      destruct (ex ?= ey); reflexivity.
    + symmetry. apply Z.compare_lt_iff. lia.
    + symmetry. apply Z.compare_gt_iff. lia.
    + exact Hcmp.
Qed.

Lemma leb_scaled (x y : F64.t) :
  F64.valid x = true -> F64.valid y = true ->
  F64.is_finite x = true -> F64.is_finite y = true ->
  F64.leb x y = (F64.scaled x <=? F64.scaled y).
Proof.
  intros. unfold F64.leb, SFleb. rewrite compare_scaled by assumption.
  unfold Z.leb. destruct (_ ?= _); reflexivity.
Qed.

Lemma ltb_scaled (x y : F64.t) :
  F64.valid x = true -> F64.valid y = true ->
  F64.is_finite x = true -> F64.is_finite y = true ->
  F64.ltb x y = (F64.scaled x <? F64.scaled y).
Proof.
  intros. unfold F64.ltb, SFltb. rewrite compare_scaled by assumption.
  unfold Z.ltb. destruct (_ ?= _); reflexivity.
Qed.

(** Two valid floats of the same sign and value are the same float. *)
Lemma scaled_inj (s : bool) (m1 m2 : positive) (e1 e2 : Z) :
  bounded 53 1024 m1 e1 = true -> bounded 53 1024 m2 e2 = true ->
  Zpos m1 * 2 ^ (e1 - F64.E0) = Zpos m2 * 2 ^ (e2 - F64.E0) ->
  S754_finite s m1 e1 = S754_finite s m2 e2.
Proof.
  intros H1 H2 Heq.
  destruct (Z.lt_trichotomy e1 e2) as [Hlt|[->|Hgt]].
  - pose proof (scaled_lt_exp m1 m2 e1 e2 H1 H2 Hlt). lia.
  - destruct (bounded_inv m2 e2 H2) as (_ & ? & _).
    assert (0 < 2 ^ (e2 - F64.E0)) by (apply Z.pow_pos_nonneg; unfold F64.E0; lia).
    assert (Zpos m1 = Zpos m2) by nia. congruence.
  - pose proof (scaled_lt_exp m2 m1 e2 e1 H2 H1 Hgt). lia.
Qed.

(** *** Rounding a value given in units of [2 ^ E0] *)

Lemma rne_scale (X k j : Z) :
  0 <= k -> 0 <= j -> rne (X * 2 ^ j) (k + j) = rne X k.
Proof.
  intros Hk Hj. unfold rne.
  assert (Hpk : 0 < 2 ^ k) by (apply Z.pow_pos_nonneg; lia).
  assert (Hpj : 0 < 2 ^ j) by (apply Z.pow_pos_nonneg; lia).
  rewrite Z.pow_add_r by lia.
  rewrite Z.div_mul_cancel_r by lia.
  rewrite Zmult_mod_distr_r.
  replace (2 * (X mod 2 ^ k * 2 ^ j)) with (2 * (X mod 2 ^ k) * 2 ^ j) by lia.
  rewrite <- Zmult_compare_compat_r by lia. reflexivity.
Qed.

Lemma round_aux_rnd (s : bool) (X ex : Z) :
  0 < X -> F64.E0 <= ex -> ex <= fexp64 (Zdigits2 X + ex) ->
  binary_round_aux 53 1024 s X ex loc_Exact = rnd s (X * 2 ^ (ex - F64.E0)).
Proof.
  intros HX He Hg. rewrite round_aux_exact by assumption.
  unfold rnd. rewrite Zdigits2_mul_pow2 by lia.
  replace (Zdigits2 X + (ex - F64.E0) + F64.E0) with (Zdigits2 X + ex) by lia.
  set (g := fexp64 (Zdigits2 X + ex)) in *.
  replace (g - F64.E0) with ((g - ex) + (ex - F64.E0)) by lia.
  rewrite rne_scale by lia. reflexivity.
Qed.

Lemma iter_xO (d p : positive) : Zpos (Pos.iter xO p d) = Zpos p * 2 ^ Zpos d.
Proof.
  induction d as [|d IH] using Pos.peano_ind.
  - simpl. lia.
  - rewrite Pos.iter_succ, Pos2Z.inj_xO, IH, Pos2Z.inj_succ, Z.pow_succ_r by lia.
    lia.
Qed.

Lemma shl_align_spec (p : positive) (e e' : Z) :
  snd (shl_align p e e') = Z.min e e' /\
  Zpos (fst (shl_align p e e')) = Zpos p * 2 ^ (e - Z.min e e').
Proof.
  unfold shl_align. destruct (e' - e) as [|d|d] eqn:Hd; cbn [fst snd].
  - replace (Z.min e e') with e by lia. rewrite Z.sub_diag. simpl. lia.
  - replace (Z.min e e') with e by lia. rewrite Z.sub_diag. simpl. lia.
  - replace (Z.min e e') with e' by lia. split; [reflexivity|].
    rewrite iter_xO. f_equal. f_equal. lia.
Qed.

Lemma binary_round_rnd (s : bool) (p : positive) (e : Z) :
  F64.E0 <= e ->
  binary_round 53 1024 s p e = rnd s (Zpos p * 2 ^ (e - F64.E0)).
Proof.
  intros He. unfold binary_round. change (fexp 53 1024) with fexp64.
  change (Zpos (digits2_pos p)) with (Zdigits2 (Zpos p)).
  set (g := fexp64 (Zdigits2 (Zpos p) + e)).
  destruct (shl_align_spec p e g) as [Hs Hf].
  destruct (shl_align p e g) as [mz ez]. cbn [fst snd] in Hs, Hf. subst ez.
  assert (Hgm : -1074 <= g) by (unfold g, fexp64; lia).
  assert (Hdz : Zdigits2 (Zpos mz) + Z.min e g = Zdigits2 (Zpos p) + e).
  { rewrite Hf, Zdigits2_mul_pow2 by lia. lia. }
  rewrite round_aux_rnd.
  - f_equal. rewrite Hf, <- Z.mul_assoc, <- Z.pow_add_r by (unfold F64.E0 in *; lia).
    f_equal. f_equal. lia.
  - lia.
  - unfold F64.E0 in *. lia.
  - rewrite Hdz. fold g. lia.
Qed.

Lemma rnd_valid (s : bool) (V : Z) : 0 < V -> F64.valid (rnd s V) = true.
Proof.
  intros HV. unfold rnd. apply pack_valid.
  apply (rne_on_grid V F64.E0 HV). unfold fexp64, F64.E0. lia.
Qed.

Lemma rnd_cases (s : bool) (V : Z) :
  rnd s V = S754_zero s \/ rnd s V = S754_infinity s \/
  exists m e, rnd s V = S754_finite s m e.
Proof. apply pack_sign. Qed.

(** Rounding does not cross a float: a float above the value is above
    the rounded value, and a float below it is below. *)
Lemma rnd_le (V : Z) (my : positive) (ey : Z) :
  0 < V -> bounded 53 1024 my ey = true ->
  V <= Zpos my * 2 ^ (ey - F64.E0) ->
  F64.is_finite (rnd false V) = true /\
  F64.scaled (rnd false V) <= Zpos my * 2 ^ (ey - F64.E0).
Proof.
  intros HV Hy Hle.
  destruct (bounded_inv my ey Hy) as (Hdy & Hey & Hny).
  unfold rnd. set (g := fexp64 (Zdigits2 V + F64.E0)).
  assert (Hg0 : F64.E0 <= g) by (unfold g, fexp64, F64.E0; lia).
  destruct (rne_on_grid V F64.E0 HV Hg0) as ((HN0 & HN1) & Hgm & Hnorm).
  fold g in HN0, HN1, Hgm, Hnorm.
  set (N := rne V (g - F64.E0)) in *.
  destruct (Zdigits2_bounds V HV) as [HVlo _].
  destruct (Zdigits2_bounds (Zpos my) ltac:(lia)) as [_ Hmyhi].
  assert (Hmy : Zpos my < 2 ^ 53).
  { assert (2 ^ Zdigits2 (Zpos my) <= 2 ^ 53) by (apply Z.pow_le_mono_r; lia). lia. }
  pose proof (Zdigits2_pos V HV) as HdV.
  assert (Hge : g <= ey).
  { destruct (Z.le_gt_cases g ey) as [|Hlt]; [assumption|exfalso].
    assert (Hgd : g = Zdigits2 V + F64.E0 - 53) by (unfold g, fexp64 in *; lia).
    assert (H1 : Zpos my * 2 ^ (ey - F64.E0) < 2 ^ 53 * 2 ^ (ey - F64.E0)).
    { apply Z.mul_lt_mono_pos_r; [apply Z.pow_pos_nonneg; unfold F64.E0; lia | exact Hmy]. }
    rewrite <- Z.pow_add_r in H1 by (unfold F64.E0; lia).
    assert (H2 : 2 ^ (53 + (ey - F64.E0)) <= 2 ^ (Zdigits2 V - 1))
      by (apply Z.pow_le_mono_r; unfold F64.E0 in *; lia).
    lia. }
  assert (Hpk : 0 < 2 ^ (g - F64.E0)) by (apply Z.pow_pos_nonneg; lia).
  assert (HNY : N <= Zpos my * 2 ^ (ey - g)).
  { apply rne_le; [lia|].
    rewrite <- Z.mul_assoc, <- Z.pow_add_r by lia.
    replace (ey - g + (g - F64.E0)) with (ey - F64.E0) by lia. exact Hle. }
  assert (Hval : N * 2 ^ (g - F64.E0) <= Zpos my * 2 ^ (ey - F64.E0)).
  { replace (ey - F64.E0) with (ey - g + (g - F64.E0)) by lia.
    rewrite Z.pow_add_r, Z.mul_assoc by lia.
    apply Z.mul_le_mono_nonneg_r; lia. }
  assert (Hfin : F64.is_finite (pack false N g) = true).
  { unfold pack. destruct (N =? 0); [reflexivity|].
    destruct (Z.eqb_spec N (2 ^ 53)) as [HN2|HN2].
    - assert (g < ey).
      { destruct (Z.eq_dec g ey) as [Heq|]; [|lia]. exfalso.
        rewrite Heq, Z.sub_diag in HNY. simpl in HNY. lia. }
      destruct (Z.leb_spec (g + 1) 971); [reflexivity | lia].
    - destruct (Z.leb_spec g 971); [reflexivity | lia]. }
  split; [exact Hfin|].
  rewrite pack_scaled by (assumption || lia). exact Hval.
Qed.

Lemma rnd_ge (V : Z) (my : positive) (ey : Z) :
  0 < V -> bounded 53 1024 my ey = true ->
  Zpos my * 2 ^ (ey - F64.E0) <= V ->
  rnd false V = S754_infinity false \/
  (F64.is_finite (rnd false V) = true /\
   Zpos my * 2 ^ (ey - F64.E0) <= F64.scaled (rnd false V)).
Proof.
  intros HV Hy Hle.
  destruct (bounded_inv my ey Hy) as (Hdy & Hey & Hny).
  unfold rnd. set (g := fexp64 (Zdigits2 V + F64.E0)).
  assert (Hg0 : F64.E0 <= g) by (unfold g, fexp64, F64.E0; lia).
  destruct (rne_on_grid V F64.E0 HV Hg0) as ((HN0 & HN1) & Hgm & Hnorm).
  fold g in HN0, HN1, Hgm, Hnorm.
  set (N := rne V (g - F64.E0)) in *.
  assert (Hpk : 0 < 2 ^ (g - F64.E0)) by (apply Z.pow_pos_nonneg; lia).
  assert (Hval : Zpos my * 2 ^ (ey - F64.E0) <= N * 2 ^ (g - F64.E0)).
  { destruct (Z.le_gt_cases g ey) as [Hge|Hlt].
    - assert (HNY : Zpos my * 2 ^ (ey - g) <= N).
      { apply rne_ge; [lia|].
        rewrite <- Z.mul_assoc, <- Z.pow_add_r by lia.
        replace (ey - g + (g - F64.E0)) with (ey - F64.E0) by lia. exact Hle. }
      replace (ey - F64.E0) with (ey - g + (g - F64.E0)) by lia.
      rewrite Z.pow_add_r, Z.mul_assoc by lia.
      apply Z.mul_le_mono_nonneg_r; lia.
    - specialize (Hnorm ltac:(lia)).
      destruct (Zdigits2_bounds (Zpos my) ltac:(lia)) as [_ Hmyhi].
      assert (Hmy : Zpos my < 2 ^ 53).
      { assert (2 ^ Zdigits2 (Zpos my) <= 2 ^ 53) by (apply Z.pow_le_mono_r; lia). lia. }
      assert (H1 : Zpos my * 2 ^ (ey - F64.E0) <= 2 ^ 53 * 2 ^ (ey - F64.E0)).
      { apply Z.mul_le_mono_nonneg_r; [apply Z.pow_nonneg; lia | lia]. }
      rewrite <- Z.pow_add_r in H1 by (unfold F64.E0; lia).
      assert (H2 : 2 ^ (53 + (ey - F64.E0)) <= 2 ^ (52 + (g - F64.E0)))
        by (apply Z.pow_le_mono_r; unfold F64.E0 in *; lia).
      rewrite (Z.pow_add_r 2 52 (g - F64.E0)) in H2 by lia.
      assert (2 ^ 52 * 2 ^ (g - F64.E0) <= N * 2 ^ (g - F64.E0))
        by (apply Z.mul_le_mono_nonneg_r; lia).
      lia. }
  destruct (F64.is_finite (pack false N g)) eqn:Hfin.
  - right. split; [reflexivity|].
    rewrite pack_scaled by (assumption || lia). exact Hval.
  - left. destruct (pack_sign false N g) as [H|[H|(m & e & H)]];
      rewrite H in Hfin |- *; try discriminate; reflexivity.
Qed.



Lemma pack_finite_iff (N g : Z) :
  on_grid N g ->
  F64.is_finite (pack false N g) = true <->
  N * 2 ^ (g - F64.E0) < 2 ^ (1024 - F64.E0).
Proof.
  intros ((HN0 & HN1) & Hg & Hnorm). unfold F64.E0.
  assert (Hpg : 0 < 2 ^ (g - -2148)) by (apply Z.pow_pos_nonneg; lia).
  unfold pack.
  destruct (Z.eqb_spec N 0) as [->|HN].
  - split; [intros _|reflexivity]. rewrite Z.mul_0_l. apply Z.pow_pos_nonneg; lia.
  - destruct (Z.eqb_spec N (2 ^ 53)) as [HN2|HN2].
    + destruct (Z.leb_spec (g + 1) 971) as [Hle|Hgt].
      * split; [intros _|reflexivity]. rewrite HN2, <- Z.pow_add_r by lia.
        apply Z.pow_lt_mono_r; lia.
      * split; [discriminate|]. intros H. exfalso.
        rewrite HN2, <- Z.pow_add_r in H by lia.
        apply pow2_lt_inv in H; lia.
    + destruct (Z.leb_spec g 971) as [Hle|Hgt].
      * split; [intros _|reflexivity].
        assert (H : N * 2 ^ (g - -2148) < 2 ^ 53 * 2 ^ (g - -2148))
          by (apply Z.mul_lt_mono_pos_r; lia).
        rewrite <- Z.pow_add_r in H by lia.
        assert (2 ^ (53 + (g - -2148)) <= 2 ^ (1024 - -2148))
          by (apply Z.pow_le_mono_r; lia).
        lia.
      * split; [discriminate|]. intros H. exfalso.
        specialize (Hnorm ltac:(lia)).
        assert (H0 : 2 ^ 52 * 2 ^ (g - -2148) <= N * 2 ^ (g - -2148))
          by (apply Z.mul_le_mono_nonneg_r; lia).
        rewrite <- Z.pow_add_r in H0 by lia.
        assert (2 ^ (1024 - -2148) <= 2 ^ (52 + (g - -2148)))
          by (apply Z.pow_le_mono_r; lia).
        lia.
Qed.


(** *** The operations on finite operands *)

Lemma round_signed_pos (V : Z) : 0 < V -> round_signed V = rnd false V.
Proof. destruct V; intros H; try lia. reflexivity. Qed.

Lemma round_signed_neg (V : Z) : V < 0 -> round_signed V = rnd true (- V).
Proof. destruct V; intros H; try lia. reflexivity. Qed.

Lemma binary_normalize_round (M e : Z) :
  F64.E0 <= e ->
  binary_normalize 53 1024 M e false = round_signed (M * 2 ^ (e - F64.E0)).
Proof.
  intros He.
  assert (Hp : 0 < 2 ^ (e - F64.E0)) by (apply Z.pow_pos_nonneg; lia).
  destruct M as [|p|p]; cbn [binary_normalize].
  - reflexivity.
  - rewrite binary_round_rnd, round_signed_pos by (assumption || lia).
    reflexivity.
  - rewrite binary_round_rnd, round_signed_neg by (assumption || lia).
    f_equal. lia.
Qed.

Lemma of_int_round (z : Z) :
  F64.of_int z = round_signed (z * 2 ^ (- F64.E0)).
Proof.
  unfold F64.of_int. rewrite binary_normalize_round by (unfold F64.E0; lia).
  reflexivity.
Qed.

Lemma shl_align_fst (m : positive) (e ez : Z) :
  ez <= e -> Zpos (fst (shl_align m e ez)) = Zpos m * 2 ^ (e - ez).
Proof.
  intros H. destruct (shl_align_spec m e ez) as [_ Hf].
  rewrite Hf. f_equal. f_equal. lia.
Qed.

Lemma aligned_scaled (s : bool) (m : positive) (e ez : Z) :
  F64.E0 <= ez -> ez <= e ->
  cond_Zopp s (Zpos (fst (shl_align m e ez))) * 2 ^ (ez - F64.E0)
  = F64.scaled (S754_finite s m e).
Proof.
  intros H0 H. rewrite shl_align_fst by assumption. cbn [F64.scaled].
  replace (e - F64.E0) with ((e - ez) + (ez - F64.E0)) by lia.
  rewrite Z.pow_add_r by lia. destruct s; cbn [cond_Zopp]; lia.
Qed.

Lemma add_finite (sx sy : bool) (mx my : positive) (ex ey : Z) :
  F64.E0 <= ex -> F64.E0 <= ey ->
  F64.add (S754_finite sx mx ex) (S754_finite sy my ey)
  = round_signed (F64.scaled (S754_finite sx mx ex)
                  + F64.scaled (S754_finite sy my ey)).
Proof.
  intros Hx Hy. unfold F64.add. cbn [SFadd].
  rewrite binary_normalize_round by lia.
  rewrite Z.mul_add_distr_r, !aligned_scaled by lia. reflexivity.
Qed.

Lemma sub_finite (sx sy : bool) (mx my : positive) (ex ey : Z) :
  F64.E0 <= ex -> F64.E0 <= ey ->
  F64.sub (S754_finite sx mx ex) (S754_finite sy my ey)
  = round_signed (F64.scaled (S754_finite sx mx ex)
                  - F64.scaled (S754_finite sy my ey)).
Proof.
  intros Hx Hy. unfold F64.sub. cbn [SFsub].
  rewrite binary_normalize_round by lia.
  rewrite Z.mul_sub_distr_r, !aligned_scaled by lia. reflexivity.
Qed.

Lemma mul_finite (sx sy : bool) (mx my : positive) (ex ey : Z) :
  bounded 53 1024 mx ex = true -> bounded 53 1024 my ey = true ->
  F64.mul (S754_finite sx mx ex) (S754_finite sy my ey)
  = rnd (xorb sx sy) (Zpos mx * Zpos my * 2 ^ (ex + ey - F64.E0)).
Proof.
  intros Hx Hy.
  destruct (bounded_inv mx ex Hx) as (Hdx & Hex & Hnx).
  destruct (bounded_inv my ey Hy) as (Hdy & Hey & Hny).
  unfold F64.mul. cbn [SFmul].
  change (Zpos (mx * my)) with (Zpos mx * Zpos my).
  apply round_aux_rnd; [lia | unfold F64.E0; lia |].
  pose proof (Zdigits2_mul (Zpos mx) (Zpos my) ltac:(lia) ltac:(lia)) as [Hd _].
  pose proof (Zdigits2_pos (Zpos mx) ltac:(lia)).
  pose proof (Zdigits2_pos (Zpos my) ltac:(lia)).
  unfold fexp64.
  destruct (Z.eq_dec ex (-1074)) as [Hx0|Hx0];
    destruct (Z.eq_dec ey (-1074)) as [Hy0|Hy0];
    try (specialize (Hnx ltac:(lia))); try (specialize (Hny ltac:(lia))); lia.
Qed.

(** *** Rounding with an inexact location: the quotient of a division *)

Lemma round_nearest_even_bounds (m : Z) (l : location) :
  m <= round_nearest_even m l <= m + 1.
Proof.
  destruct l as [|[| |]]; cbn [round_nearest_even];
    try destruct (Z.even m); lia.
Qed.

Lemma on_grid_of_bounds (X ex N : Z) :
  0 <= X ->
  let g := fexp64 (Zdigits2 X + ex) in
  ex <= g ->
  X / 2 ^ (g - ex) <= N <= X / 2 ^ (g - ex) + 1 ->
  on_grid N g.
Proof.
  intros HX g Hg [Hlo Hhi]. unfold on_grid.
  assert (Hp : 0 < 2 ^ (g - ex)) by (apply Z.pow_pos_nonneg; lia).
  assert (Hq0 : 0 <= X / 2 ^ (g - ex)) by (apply Z.div_pos; lia).
  assert (Hgd : Zdigits2 X + ex - 53 <= g) by (unfold g, fexp64; lia).
  assert (Hgm : -1074 <= g) by (unfold g, fexp64; lia).
  pose proof (Zdigits2_nonneg X) as Hd.
  split; [split; [lia|]|split; [exact Hgm|]].
  - destruct (Z.lt_ge_cases (g - ex) (Zdigits2 X)) as [Hlt|Hge].
    + assert (HX0 : 0 < X) by (destruct X; simpl in *; lia).
      assert (Hdq := Zdigits2_div_pow2 X (g - ex) HX0 ltac:(lia) Hlt).
      assert (X / 2 ^ (g - ex) < 2 ^ 53).
      { destruct (Z.eq_dec (X / 2 ^ (g - ex)) 0) as [->|Hn]; [reflexivity|].
        destruct (Zdigits2_bounds (X / 2 ^ (g - ex)) ltac:(lia)) as [_ Hb].
        assert (2 ^ Zdigits2 (X / 2 ^ (g - ex)) <= 2 ^ 53)
          by (apply Z.pow_le_mono_r; lia).
        lia. }
      lia.
    + rewrite (div_pow2_small X (g - ex)) in Hhi by lia.
      change (2 ^ 53) with 9007199254740992. lia.
  - intros Hgt.
    assert (Hge : g = Zdigits2 X + ex - 53) by (unfold g, fexp64 in *; lia).
    assert (HX0 : 0 < X) by (destruct X; simpl in *; lia).
    assert (Hdq := Zdigits2_div_pow2 X (g - ex) HX0 ltac:(lia) ltac:(lia)).
    assert (Hq : 0 < X / 2 ^ (g - ex)).
    { destruct (Z.eq_dec (X / 2 ^ (g - ex)) 0) as [H0|Hn]; [|lia].
      rewrite H0 in Hdq. simpl in Hdq. lia. }
    destruct (Zdigits2_bounds _ Hq) as [Hb _].
    rewrite Hdq in Hb. replace (Zdigits2 X - (g - ex) - 1) with 52 in Hb by lia.
    lia.
Qed.

Lemma pack_second_shr (s : bool) (N g : Z) :
  on_grid N g ->
  (let '(mrs'', e'') :=
     shr (Build_shr_record N false false) g (fexp64 (Zdigits2 N + g) - g) in
   match shr_m mrs'' with
   | 0 => S754_zero s
   | Z.pos m =>
       if e'' <=? 1024 - 53 then S754_finite s m e'' else S754_infinity s
   | Z.neg _ => S754_nan
   end) = pack s N g.
Proof.
  intros ((HN0 & HN1) & Hgm & Hnorm). unfold pack.
  destruct (Z.eqb_spec N 0) as [HN|HN].
  - rewrite HN. cbn [Zdigits2].
    assert (Hk : fexp64 (0 + g) - g <= 0) by (unfold fexp64; lia).
    destruct (fexp64 (0 + g) - g) as [|p|p]; try lia; reflexivity.
  - destruct (Z.eqb_spec N (2 ^ 53)) as [HN2|HN2].
    + rewrite HN2. change (Zdigits2 (2 ^ 53)) with 54.
      assert (Hk : fexp64 (54 + g) - g = 1) by (unfold fexp64; lia).
      rewrite Hk. cbn. reflexivity.
    + assert (Hd : Zdigits2 N <= 53).
      { apply Zdigits2_lt_pow2; lia. }
      assert (Hk : fexp64 (Zdigits2 N + g) - g <= 0) by (unfold fexp64; lia).
      destruct (fexp64 (Zdigits2 N + g) - g) as [|p|p]; try lia.
      * cbn [shr fst snd shr_m]. destruct N as [|n|n]; try lia. reflexivity.
      * cbn [shr fst snd shr_m]. destruct N as [|n|n]; try lia. reflexivity.
Qed.

Lemma round_aux_pack (s : bool) (X ex : Z) (l : location) :
  0 <= X ->
  let g := fexp64 (Zdigits2 X + ex) in
  ex <= g ->
  exists N, binary_round_aux 53 1024 s X ex l = pack s N g /\ on_grid N g.
Proof.
  intros HX g Hg.
  assert (Hrec : exists r s0, shr_record_of_loc X l = Build_shr_record X r s0).
  { destruct l as [|[| |]]; cbn; eauto. }
  destruct Hrec as (r & s0 & Hrec).
  destruct (shr_m_spec X r s0 ex (g - ex) HX) as [E1 M1].
  unfold binary_round_aux, shr_fexp. change (fexp 53 1024) with fexp64. fold g.
  rewrite Hrec, E1.
  replace (Z.max ex (ex + (g - ex))) with g by lia.
  rewrite Z.max_r in M1 by lia.
  set (mrs := fst (shr (Build_shr_record X r s0) ex (g - ex))) in *.
  set (N := round_nearest_even (shr_m mrs) (loc_of_shr_record mrs)).
  assert (HG : on_grid N g).
  { apply (on_grid_of_bounds X ex N HX Hg). fold g. rewrite <- M1.
    apply round_nearest_even_bounds. }
  exists N. split; [|exact HG].
  cbn [shr_record_of_loc]. apply pack_second_shr. exact HG.
Qed.

Lemma div_shift (m sh : Z) :
  0 <= sh ->
  match sh with
  | 0 => m
  | Zpos _ => Z.shiftl m sh
  | Zneg _ => 0
  end = m * 2 ^ sh.
Proof.
  intros H. destruct sh as [|p|p].
  - simpl. lia.
  - apply Z.shiftl_mul_pow2. lia.
  - lia.
Qed.

Lemma div_finite_pack (sx sy : bool) (mx my : positive) (ex ey : Z) :
  let D := (Zdigits2 (Zpos mx) + ex) - (Zdigits2 (Zpos my) + ey) in
  exists N g,
    F64.div (S754_finite sx mx ex) (S754_finite sy my ey)
    = pack (xorb sx sy) N g /\ on_grid N g /\ g <= fexp64 (D + 1).
Proof.
  intros D. unfold F64.div. cbn [SFdiv].
  unfold SFdiv_core_binary, F64.prec, F64.emax. cbv zeta.
  change (fexp 53 1024) with fexp64.
  change IntDef.Z.div_eucl with Z.div_eucl.
  change IntDef.Z.min with Z.min. change IntDef.Z.shiftl with Z.shiftl.
  set (d1 := Zdigits2 (Zpos mx)) in *. set (d2 := Zdigits2 (Zpos my)) in *.
  fold D.
  set (e' := Z.min (fexp64 D) (ex - ey)).
  set (sh := ex - ey - e').
  assert (Hsh : 0 <= sh) by (unfold sh, e'; lia).
  set (m' := match sh with
             | 0 => Zpos mx
             | Zpos _ => Z.shiftl (Zpos mx) sh
             | Zneg _ => 0
             end).
  assert (Hm' : m' = Zpos mx * 2 ^ sh) by (apply div_shift; exact Hsh).
  pose proof (Zdigits2_bounds (Zpos mx) ltac:(lia)) as [Hx1 Hx2].
  pose proof (Zdigits2_bounds (Zpos my) ltac:(lia)) as [Hy1 Hy2].
  fold d1 in Hx1, Hx2. fold d2 in Hy1, Hy2.
  assert (Hd1 : 0 < d1) by (apply Zdigits2_pos; lia).
  assert (Hd2 : 0 < d2) by (apply Zdigits2_pos; lia).
  assert (Hqr : Z.div_eucl m' (Zpos my) = (m' / Zpos my, m' mod Zpos my))
    by (unfold Z.div, Z.modulo; destruct (Z.div_eucl m' (Zpos my)); reflexivity).
  rewrite Hqr. set (Q := m' / Zpos my).
  assert (Hps : 0 < 2 ^ sh) by (apply Z.pow_pos_nonneg; lia).
  assert (HQ0 : 0 <= Q) by (apply Z.div_pos; nia).
  (* the quotient has at most [d1 + sh - d2 + 1] digits *)
  assert (HQhi : Zdigits2 Q + e' <= D + 1 \/ Q = 0).
  { destruct (Z.eq_dec Q 0) as [|HQn]; [right; assumption|left].
    assert (0 <= d1 + sh - d2 + 1).
    { destruct (Z.le_gt_cases 0 (d1 + sh - d2 + 1)); [assumption|exfalso].
      assert (m' < Zpos my); [|apply HQn, Z.div_small; lia].
      assert (2 ^ (d1 + sh) <= 2 ^ (d2 - 1)) by (apply Z.pow_le_mono_r; lia).
      rewrite Z.pow_add_r in H0 by lia. nia. }
    assert (Q < 2 ^ (d1 + sh - d2 + 1)).
    { apply Z.div_lt_upper_bound; [lia|].
      assert (2 ^ (d2 - 1) * 2 ^ (d1 + sh - d2 + 1) = 2 ^ d1 * 2 ^ sh).
      { rewrite <- !Z.pow_add_r by lia. f_equal. lia. }
      assert (0 < 2 ^ (d1 + sh - d2 + 1)) by (apply Z.pow_pos_nonneg; lia).
      nia. }
    pose proof (Zdigits2_lt_pow2 Q (d1 + sh - d2 + 1) ltac:(lia) ltac:(lia)).
    unfold sh, D in *. lia. }
  (* and at least [d1 + sh - d2] *)
  assert (HQlo : 0 <= d1 + sh - d2 -> d1 + sh - d2 <= Zdigits2 Q).
  { intros Hnn.
    destruct (Z.eq_dec (d1 + sh - d2) 0) as [Hz|Hnz];
      [rewrite Hz; apply Zdigits2_nonneg|].
    assert (2 ^ (d1 + sh - d2 - 1) <= Q).
    { apply Z.div_le_lower_bound; [lia|].
      assert (2 ^ d2 * 2 ^ (d1 + sh - d2 - 1) = 2 ^ (d1 - 1) * 2 ^ sh).
      { rewrite <- !Z.pow_add_r by lia. f_equal. lia. }
      assert (0 < 2 ^ (d1 + sh - d2 - 1)) by (apply Z.pow_pos_nonneg; lia).
      nia. }
    pose proof (Zdigits2_ge_pow2 Q (d1 + sh - d2 - 1) ltac:(lia) ltac:(lia)).
    lia. }
  pose proof (Zdigits2_nonneg Q) as HdQ.
  assert (Hpre : e' <= fexp64 (Zdigits2 Q + e')).
  { unfold fexp64.
    destruct (Z.le_gt_cases e' (-1074)) as [|Hgt]; [lia|].
    assert (He' : e' <= d1 + ex - (d2 + ey) - 53) by (unfold e', D, fexp64 in *; lia).
    assert (53 <= d1 + sh - d2) by (unfold sh; lia).
    specialize (HQlo ltac:(lia)). lia. }
  destruct (round_aux_pack (xorb sx sy) Q e' (new_location (Zpos my) (m' mod Zpos my))
              HQ0 Hpre) as (N & HN & HG).
  exists N, (fexp64 (Zdigits2 Q + e')). split; [exact HN|]. split; [exact HG|].
  unfold fexp64. destruct HQhi as [HQhi| ->].
  - lia.
  - cbn [Zdigits2]. unfold e', fexp64, D. lia.
Qed.

(** *** Signs *)

Lemma pack_opp (N g : Z) : pack true N g = SFopp (pack false N g).
Proof.
  unfold pack. destruct (N =? 0); [reflexivity|].
  destruct (N =? 2 ^ 53); destruct (_ <=? _); reflexivity.
Qed.

Lemma rnd_opp (V : Z) : rnd true V = SFopp (rnd false V).
Proof. apply pack_opp. Qed.

Lemma scaled_opp (x : F64.t) : F64.scaled (SFopp x) = - F64.scaled x.
Proof. destruct x as [s|s| |[|] m e]; simpl; lia. Qed.

Lemma is_finite_opp (x : F64.t) : F64.is_finite (SFopp x) = F64.is_finite x.
Proof. destruct x; reflexivity. Qed.

(** *** Exactly representable values *)

Lemma rnd_scaled_exact (V : Z) :
  0 < V ->
  V mod 2 ^ (fexp64 (Zdigits2 V + F64.E0) - F64.E0) = 0 ->
  F64.is_finite (rnd false V) = true ->
  F64.scaled (rnd false V) = V.
Proof.
  intros HV Hmod Hfin. unfold rnd in *.
  set (g := fexp64 (Zdigits2 V + F64.E0)) in *.
  assert (Hg0 : F64.E0 <= g) by (unfold g, fexp64, F64.E0; lia).
  destruct (rne_on_grid V F64.E0 HV Hg0) as ((HN0 & HN1) & Hgm & _).
  fold g in HN0, HN1, Hgm.
  rewrite pack_scaled by (assumption || lia). cbn [cond_Zopp].
  rewrite rne_exact by (assumption || lia).
  assert (Hp : 0 < 2 ^ (g - F64.E0)) by (apply Z.pow_pos_nonneg; lia).
  pose proof (Z.div_mod V (2 ^ (g - F64.E0)) ltac:(lia)). lia.
Qed.

Lemma U_pos : 0 < F64.U.
Proof. reflexivity. Qed.

Lemma of_int_pos (z : Z) : 0 < z -> F64.of_int z = rnd false (z * F64.U).
Proof.
  intros Hz. rewrite of_int_round. change (2 ^ (- F64.E0)) with F64.U.
  pose proof U_pos. apply round_signed_pos. nia.
Qed.

Lemma of_int_neg (z : Z) : z < 0 -> F64.of_int z = SFopp (rnd false (- z * F64.U)).
Proof.
  intros Hz. rewrite of_int_round. change (2 ^ (- F64.E0)) with F64.U.
  pose proof U_pos. rewrite round_signed_neg by nia.
  rewrite rnd_opp. f_equal. f_equal. lia.
Qed.

Lemma valid_opp (x : F64.t) : F64.valid (SFopp x) = F64.valid x.
Proof. destruct x; reflexivity. Qed.

Lemma of_int_valid (z : Z) : F64.valid (F64.of_int z) = true.
Proof.
  destruct (Z.lt_trichotomy z 0) as [H|[->|H]].
  - rewrite of_int_neg, valid_opp by assumption. apply rnd_valid.
    pose proof U_pos. nia.
  - reflexivity.
  - rewrite of_int_pos by assumption. apply rnd_valid. pose proof U_pos. nia.
Qed.

Lemma of_int_finite (z : Z) :
  - 2 ^ 63 <= z <= 2 ^ 63 -> F64.is_finite (F64.of_int z) = true.
Proof.
  intros Hz. pose proof U_pos.
  assert (Hb : bounded 53 1024 4503599627370496 11 = true) by reflexivity.
  assert (Hv : Zpos 4503599627370496 * 2 ^ (11 - F64.E0) = 2 ^ 63 * F64.U) by reflexivity.
  destruct (Z.lt_trichotomy z 0) as [Hn|[->|Hp]].
  - rewrite of_int_neg, is_finite_opp by assumption.
    apply (rnd_le (- z * F64.U) _ _ ltac:(nia) Hb). rewrite Hv. nia.
  - reflexivity.
  - rewrite of_int_pos by assumption.
    apply (rnd_le (z * F64.U) _ _ ltac:(nia) Hb). rewrite Hv. nia.
Qed.

Lemma int_mod_grid (z : Z) :
  0 < z <= 2 ^ 53 ->
  (z * F64.U) mod 2 ^ (fexp64 (Zdigits2 (z * F64.U) + F64.E0) - F64.E0) = 0.
Proof.
  intros [Hz Hle]. unfold F64.U.
  rewrite Zdigits2_mul_pow2 by lia.
  pose proof (Zdigits2_pos z Hz) as Hd.
  assert (Hd54 : Zdigits2 z <= 54).
  { apply Zdigits2_lt_pow2; [lia|]. change (2 ^ 54) with (2 * 2 ^ 53). lia. }
  unfold fexp64, F64.E0.
  replace (Z.max (Zdigits2 z + 2148 + -2148 - 53) (-1074) - -2148)
    with (Zdigits2 z + 2095) by lia.
  destruct (Z.eq_dec (Zdigits2 z) 54) as [H54|Hn54].
  - assert (z = 2 ^ 53).
    { destruct (Zdigits2_bounds z Hz) as [Hlo _]. rewrite H54 in Hlo.
      simpl (54 - 1) in Hlo. lia. }
    subst z. rewrite H54. vm_compute. reflexivity.
  - replace 2148 with ((53 - Zdigits2 z) + (Zdigits2 z + 2095)) at 1 by lia.
    rewrite Z.pow_add_r, Z.mul_assoc by lia. apply Z.mod_mul.
    apply Z.pow_nonzero; lia.
Qed.

Lemma of_int_scaled (z : Z) :
  - 2 ^ 53 <= z <= 2 ^ 53 -> F64.scaled (F64.of_int z) = z * F64.U.
Proof.
  intros Hz. pose proof U_pos.
  assert (Hfin : F64.is_finite (F64.of_int z) = true).
  { apply of_int_finite. change (2 ^ 63) with (1024 * 2 ^ 53). lia. }
  destruct (Z.lt_trichotomy z 0) as [Hn|[->|Hp]].
  - rewrite of_int_neg in * by assumption. rewrite is_finite_opp in Hfin.
    rewrite scaled_opp, rnd_scaled_exact; [lia | nia | | exact Hfin].
    apply int_mod_grid. lia.
  - reflexivity.
  - rewrite of_int_pos in * by assumption.
    apply rnd_scaled_exact; [nia | | exact Hfin]. apply int_mod_grid. lia.
Qed.

(** *** Conversion to an integer *)

Lemma trunc_scaled (x : F64.t) :
  F64.valid x = true -> F64.trunc x = Z.quot (F64.scaled x) F64.U.
Proof.
  intros Hv. destruct x as [s|s| |s m e]; try reflexivity.
  destruct (bounded_inv m e Hv) as (_ & He & _).
  cbn [F64.trunc F64.scaled].
  assert (Hq : Z.shiftl (Zpos m) e = Z.quot (Zpos m * 2 ^ (e - F64.E0)) F64.U).
  { assert (0 < 2 ^ (e - F64.E0)) by (apply Z.pow_pos_nonneg; unfold F64.E0; lia).
    rewrite Z.quot_div_nonneg by (try apply U_pos; nia).
    destruct (Z.le_gt_cases 0 e) as [Hp|Hn].
    - rewrite Z.shiftl_mul_pow2 by lia. unfold F64.U, F64.E0.
      replace (e - -2148) with (e + 2148) by lia.
      rewrite (Z.pow_add_r 2 e 2148), Z.mul_assoc by lia.
      symmetry. apply Z.div_mul. apply Z.pow_nonzero; lia.
    - rewrite Z.shiftl_div_pow2 by lia. unfold F64.U, F64.E0.
      assert (HU : 2 ^ 2148 = 2 ^ (- e) * 2 ^ (e - -2148))
        by (rewrite <- Z.pow_add_r by lia; f_equal; lia).
      rewrite HU.
      symmetry. apply Z.div_mul_cancel_r; apply Z.pow_nonzero; lia. }
  destruct s; cbn [cond_Zopp]; rewrite Hq; [|reflexivity].
  rewrite Z.quot_opp_l; [reflexivity | pose proof U_pos; lia].
Qed.

(** *** Numbers that are not negative *)

Lemma finite_scaled_pos (s : bool) (m : positive) (e : Z) :
  bounded 53 1024 m e = true -> 0 <= F64.scaled (S754_finite s m e) -> s = false.
Proof.
  intros Hb H. pose proof (scaled_abs_pos m e Hb).
  destruct s; [cbn [F64.scaled cond_Zopp] in H; lia | reflexivity].
Qed.

Lemma nnf_cases (x : F64.t) :
  nnf x ->
  (exists s, x = S754_zero s) \/
  (exists m e, x = S754_finite false m e /\ bounded 53 1024 m e = true
               /\ 0 < F64.scaled x).
Proof.
  intros (Hv & Hf & Hs). destruct x as [s|s| |s m e]; try discriminate.
  - left. eauto.
  - right. pose proof (finite_scaled_pos s m e Hv Hs). subst s.
    exists m, e. split; [reflexivity|]. split; [exact Hv|].
    apply (scaled_abs_pos m e Hv).
Qed.

Lemma rnd_nnw (V : Z) : 0 < V -> nnw (rnd false V).
Proof.
  intros HV. pose proof (rnd_valid false V HV) as Hval.
  destruct (rnd_cases false V) as [H|[H|(m & e & H)]]; rewrite H in *.
  - right. repeat split; simpl; lia.
  - left. reflexivity.
  - right. repeat split; try assumption. cbn [F64.scaled cond_Zopp].
    pose proof (scaled_abs_pos m e Hval). lia.
Qed.

Lemma pack_nnw (N g : Z) : on_grid N g -> nnw (pack false N g).
Proof.
  intros HG. pose proof (pack_valid false N g HG) as Hval.
  destruct (pack_sign false N g) as [H|[H|(m & e & H)]]; rewrite H in *.
  - right. repeat split; simpl; lia.
  - left. reflexivity.
  - right. repeat split; try assumption. cbn [F64.scaled cond_Zopp].
    pose proof (scaled_abs_pos m e Hval). lia.
Qed.

Lemma of_int_nnf (z : Z) : 0 <= z <= 2 ^ 63 -> nnf (F64.of_int z).
Proof.
  intros Hz. split; [apply of_int_valid|]. split; [apply of_int_finite; lia|].
  destruct (Z.eq_dec z 0) as [->|Hn]; [simpl; lia|].
  rewrite of_int_pos by lia. pose proof U_pos as HU.
  destruct (rnd_nnw (z * F64.U) ltac:(nia)) as [H|(_ & _ & H)]; [rewrite H; simpl; lia|].
  exact H.
Qed.

Lemma mul_nnw (x y : F64.t) : nnf x -> nnf y -> nnw (F64.mul x y).
Proof.
  intros Hx Hy.
  destruct (nnf_cases x Hx) as [(sx & ->)|(mx & ex & -> & Hbx & _)];
  destruct (nnf_cases y Hy) as [(sy & ->)|(my & ey & -> & Hby & _)].
  - right. repeat split; simpl; lia.
  - right. repeat split; simpl; lia.
  - right. repeat split; simpl; lia.
  - rewrite mul_finite by assumption. apply rnd_nnw.
    destruct (bounded_inv mx ex Hbx) as (_ & ? & _).
    destruct (bounded_inv my ey Hby) as (_ & ? & _).
    apply Z.mul_pos_pos; [lia | apply Z.pow_pos_nonneg; unfold F64.E0; lia].
Qed.

Lemma div_nnw (x : F64.t) (my : positive) (ey : Z) :
  nnw x -> nnw (F64.div x (S754_finite false my ey)).
Proof.
  intros [->|Hx].
  - left. reflexivity.
  - destruct (nnf_cases x Hx) as [(sx & ->)|(mx & ex & -> & Hbx & _)].
    + right. repeat split; simpl; lia.
    + destruct (div_finite_pack false false mx my ex ey) as (N & g & HN & HG & _).
      rewrite HN. apply pack_nnw. exact HG.
Qed.

Lemma add_nnw (x y : F64.t) : nnf x -> nnw y -> nnw (F64.add x y).
Proof.
  intros Hx [->|Hy].
  - left. destruct x as [s|s| |s m e]; try reflexivity;
      destruct Hx as (_ & Hf & _); discriminate.
  - destruct (nnf_cases x Hx) as [(sx & ->)|(mx & ex & -> & Hbx & Hpx)];
    destruct (nnf_cases y Hy) as [(sy & ->)|(my & ey & -> & Hby & Hpy)].
    + right. destruct sx, sy; repeat split; simpl; lia.
    + right. exact Hy.
    + right. exact Hx.
    + destruct (bounded_inv mx ex Hbx) as (_ & ? & _).
      destruct (bounded_inv my ey Hby) as (_ & ? & _).
      rewrite add_finite by (unfold F64.E0; lia).
      rewrite round_signed_pos by lia. apply rnd_nnw. lia.
Qed.

Lemma finite_mag_of_scaled (m : positive) (e z : Z) :
  bounded 53 1024 m e = true -> 0 < z ->
  Zpos m * 2 ^ (e - F64.E0) = z * F64.U ->
  Zdigits2 (Zpos m) + e = Zdigits2 z.
Proof.
  intros Hb Hz Heq. destruct (bounded_inv m e Hb) as (_ & He & _).
  assert (H1 : Zdigits2 (Zpos m * 2 ^ (e - F64.E0)) = Zdigits2 (Zpos m) + (e - F64.E0))
    by (apply Zdigits2_mul_pow2; unfold F64.E0; lia).
  assert (H2 : Zdigits2 (z * F64.U) = Zdigits2 z + 2148)
    by (apply Zdigits2_mul_pow2; lia).
  rewrite Heq, H2 in H1. unfold F64.E0 in H1. lia.
Qed.

Lemma add_nnf (x y : F64.t) (mb : positive) (eb : Z) :
  nnf x -> nnf y -> bounded 53 1024 mb eb = true ->
  F64.scaled x + F64.scaled y <= Zpos mb * 2 ^ (eb - F64.E0) ->
  nnf (F64.add x y) /\
  F64.scaled (F64.add x y) <= Zpos mb * 2 ^ (eb - F64.E0).
Proof.
  intros Hx Hy Hb Hle. pose proof (scaled_abs_pos mb eb Hb) as Hbpos.
  destruct (nnf_cases x Hx) as [(sx & ->)|(mx & ex & -> & Hbx & Hpx)];
  destruct (nnf_cases y Hy) as [(sy & ->)|(my & ey & -> & Hby & Hpy)].
  - split; [destruct sx, sy; repeat split; simpl; lia|].
    destruct sx, sy; cbn [F64.add SFadd F64.scaled]; lia.
  - split; [exact Hy|]. cbn [F64.add SFadd]. cbn [F64.scaled] in Hle |- *. lia.
  - split; [exact Hx|]. cbn [F64.add SFadd]. cbn [F64.scaled] in Hle |- *. lia.
  - destruct (bounded_inv mx ex Hbx) as (_ & ? & _).
    destruct (bounded_inv my ey Hby) as (_ & ? & _).
    rewrite add_finite by (unfold F64.E0; lia).
    rewrite round_signed_pos by lia.
    set (V := F64.scaled (S754_finite false mx ex)
              + F64.scaled (S754_finite false my ey)) in *.
    assert (HV : 0 < V) by (unfold V; lia).
    destruct (rnd_le V mb eb HV Hb Hle) as [Hfin Hs].
    split; [|exact Hs].
    destruct (rnd_nnw V HV) as [Hinf|Hn];
      [rewrite Hinf in Hfin; discriminate | exact Hn].
Qed.

Lemma nsec_quotient (nsec : Z) :
  0 <= nsec < 1000000000 ->
  let q := F64.div (F64.of_int nsec) (F64.of_int 1000000000) in
  nnf q /\ F64.scaled q <= 2 * F64.U.
Proof.
  intros Hn q. unfold q.
  change (F64.of_int 1000000000) with (S754_finite false 8388608000000000 (-23)).
  assert (Hz : nnf (F64.of_int nsec))
    by (apply of_int_nnf; change (2 ^ 63) with 9223372036854775808; lia).
  destruct (nnf_cases _ Hz) as [(sx & Hx)|(m & e & Hx & Hb & Hp)]; rewrite Hx.
  - split; [repeat split; simpl; lia | simpl; pose proof U_pos; lia].
  - assert (Hnz : 0 < nsec).
    { destruct (Z.eq_dec nsec 0) as [->|]; [discriminate Hx | lia]. }
    assert (Hsc : F64.scaled (F64.of_int nsec) = nsec * F64.U)
      by (apply of_int_scaled; change (2 ^ 53) with 9007199254740992; lia).
    rewrite Hx in Hsc. cbn [F64.scaled cond_Zopp] in Hsc.
    pose proof (finite_mag_of_scaled m e nsec Hb Hnz Hsc) as Hmag.
    assert (Hd30 : Zdigits2 nsec <= 30)
      by (apply Zdigits2_lt_pow2; [lia | change (2 ^ 30) with 1073741824; lia]).
    destruct (div_finite_pack false false m 8388608000000000 e (-23))
      as (N & g & HN & HG & Hg).
    change (Zdigits2 (Zpos 8388608000000000)) with 53 in Hg.
    unfold F64.div in HN |- *. rewrite HN. cbn [xorb].
    assert (Hg52 : g <= -52) by (unfold fexp64 in Hg; lia).
    destruct HG as ((HN0 & HN1) & Hgm & Hnorm).
    assert (Hval : N * 2 ^ (g - F64.E0) <= 2 * F64.U).
    { assert (N * 2 ^ (g - F64.E0) <= 2 ^ 53 * 2 ^ (g - F64.E0))
        by (apply Z.mul_le_mono_nonneg_r; [apply Z.pow_nonneg; lia | lia]).
      rewrite <- Z.pow_add_r in H by (unfold F64.E0; lia).
      assert (2 ^ (53 + (g - F64.E0)) <= 2 ^ 2149)
        by (apply Z.pow_le_mono_r; unfold F64.E0; lia).
      change (2 * F64.U) with (2 ^ 2149). lia. }
    assert (Hfin : F64.is_finite (pack false N g) = true).
    { apply pack_finite_iff; [repeat split; assumption|].
      assert (2 ^ 2149 < 2 ^ (1024 - F64.E0))
        by (apply Z.pow_lt_mono_r; unfold F64.E0; lia).
      change (2 * F64.U) with (2 ^ 2149) in Hval. lia. }
    split.
    + destruct (pack_nnw N g ltac:(repeat split; assumption)) as [Hinf|Hnn];
        [rewrite Hinf in Hfin; discriminate | exact Hnn].
    + rewrite pack_scaled by (assumption || lia). exact Hval.
Qed.

Lemma Duration_Seconds_nnf (d : Z) :
  0 <= d <= maxInt64 -> nnf (Duration_Seconds d).
Proof.
  intros Hd. unfold Duration_Seconds.
  assert (Hsec : 0 <= Z.quot d Second <= 2 ^ 34).
  { unfold maxInt64, Second in *. split; [apply Z.quot_pos; lia|].
    apply Z.quot_le_upper_bound; [lia|].
    change (2 ^ 63) with 9223372036854775808 in Hd.
    change (2 ^ 34) with 17179869184. lia. }
  assert (Hns : 0 <= Z.rem d Second < 1000000000)
    by (apply Z.rem_bound_pos; unfold Second; lia).
  destruct (nsec_quotient (Z.rem d Second) Hns) as [Hq Hq2].
  assert (Hx : nnf (F64.of_int (Z.quot d Second)))
    by (apply of_int_nnf; change (2 ^ 63) with (2 ^ 29 * 2 ^ 34); lia).
  assert (Hxs : F64.scaled (F64.of_int (Z.quot d Second)) = Z.quot d Second * F64.U)
    by (apply of_int_scaled; change (2 ^ 53) with (2 ^ 19 * 2 ^ 34); lia).
  assert (Hb : bounded 53 1024 4503599627370496 (-17) = true) by reflexivity.
  apply (add_nnf _ _ 4503599627370496 (-17) Hx Hq Hb).
  rewrite Hxs.
  change (Zpos 4503599627370496 * 2 ^ (-17 - F64.E0)) with (2 ^ 35 * F64.U).
  pose proof U_pos. change (2 ^ 35) with (2 * 2 ^ 34). nia.
Qed.

Lemma math_Min_cap (x : F64.t) (mb : positive) (eb : Z) :
  nnw x -> bounded 53 1024 mb eb = true ->
  let B := S754_finite false mb eb in
  nnf (math_Min x B) /\ F64.scaled (math_Min x B) <= F64.scaled B /\
  (F64.is_finite x = true ->
   F64.scaled (math_Min x B) = Z.min (F64.scaled x) (F64.scaled B)).
Proof.
  intros Hx Hb B. pose proof (scaled_abs_pos mb eb Hb) as Hbpos.
  assert (HBs : F64.scaled B = Zpos mb * 2 ^ (eb - F64.E0)) by reflexivity.
  assert (HB : nnf B).
  { split; [exact Hb|]. split; [reflexivity | lia]. }
  destruct Hx as [->|Hx].
  - assert (E : math_Min (S754_infinity false) B = B) by reflexivity.
    rewrite E. split; [exact HB|]. split; [lia | discriminate].
  - destruct (nnf_cases x Hx) as [(sx & ->)|(mx & ex & -> & Hbx & Hpx)].
    + assert (E : math_Min (S754_zero sx) B = S754_zero sx) by (destruct sx; reflexivity).
      rewrite E. split; [exact Hx|]. cbn [F64.scaled cond_Zopp].
      split; [lia | intros _; lia].
    + unfold math_Min. change (F64.IsInf_neg B) with false.
      change (F64.IsNaN B) with false. cbn [F64.IsInf_neg F64.IsNaN orb].
      assert (E0 : F64.eqb (S754_finite false mx ex) F64.zero = false) by reflexivity.
      rewrite E0. cbn [andb].
      rewrite (ltb_scaled (S754_finite false mx ex) B) by (assumption || reflexivity).
      destruct (Z.ltb_spec (F64.scaled (S754_finite false mx ex)) (F64.scaled B));
        cbv iota.
      * split; [exact Hx|]. split; [lia | intros _; lia].
      * split; [exact HB|]. split; [lia | intros _; lia].
Qed.

Lemma of_int_ge_one (z : Z) :
  1 <= z <= 2 ^ 63 ->
  exists m e, F64.of_int z = S754_finite false m e /\
              bounded 53 1024 m e = true /\ F64.U <= Zpos m * 2 ^ (e - F64.E0).
Proof.
  intros Hz. pose proof U_pos as HU.
  assert (Hn : nnf (F64.of_int z)) by (apply of_int_nnf; lia).
  assert (Hb1 : bounded 53 1024 4503599627370496 (-52) = true) by reflexivity.
  rewrite of_int_pos in * by lia.
  destruct (rnd_ge (z * F64.U) 4503599627370496 (-52) ltac:(nia) Hb1) as [Hinf|[_ Hge]].
  - change (Zpos 4503599627370496 * 2 ^ (-52 - F64.E0)) with F64.U. nia.
  - destruct Hn as (_ & Hf & _). rewrite Hinf in Hf. discriminate.
  - change (Zpos 4503599627370496 * 2 ^ (-52 - F64.E0)) with F64.U in Hge.
    destruct (nnf_cases _ Hn) as [(s & E)|(m & e & E & Hb & _)]; rewrite E in *.
    + cbn [F64.scaled] in Hge. lia.
    + exists m, e. split; [reflexivity|]. split; [exact Hb|].
      cbn [F64.scaled cond_Zopp] in Hge. exact Hge.
Qed.

Lemma sub_one (x : F64.t) :
  nnf x -> F64.leb F64.one x = true ->
  nnf (F64.sub x F64.one) /\ F64.scaled (F64.sub x F64.one) <= F64.scaled x.
Proof.
  intros Hx Hle. pose proof U_pos as HU.
  assert (Hone : F64.scaled F64.one = F64.U) by reflexivity.
  rewrite leb_scaled in Hle
    by (try reflexivity; destruct Hx as (? & ? & _); assumption).
  apply Z.leb_le in Hle. rewrite Hone in Hle.
  destruct (nnf_cases x Hx) as [(sx & ->)|(mx & ex & -> & Hbx & Hpx)];
    [cbn [F64.scaled] in Hle; lia|].
  destruct (bounded_inv mx ex Hbx) as (_ & ? & _).
  unfold F64.one. rewrite sub_finite by (unfold F64.E0; lia).
  fold F64.one. rewrite Hone.
  set (sx := F64.scaled (S754_finite false mx ex)) in *.
  destruct (Z.eq_dec sx F64.U) as [Heq|Hne].
  - rewrite Heq, Z.sub_diag. cbn [round_signed].
    split; [repeat split; simpl; lia | cbn [F64.scaled]; lia].
  - rewrite round_signed_pos by lia.
    assert (HV : 0 < sx - F64.U) by lia.
    destruct (rnd_le (sx - F64.U) mx ex HV Hbx) as [Hfin Hs].
    { unfold sx in *. cbn [F64.scaled cond_Zopp] in *. lia. }
    split.
    + destruct (rnd_nnw (sx - F64.U) HV) as [Hinf|Hn];
        [rewrite Hinf in Hfin; discriminate | exact Hn].
    + unfold sx at 2. cbn [F64.scaled cond_Zopp]. exact Hs.
Qed.

(** *** Validity, order and truncation *)




Lemma to_int64_nnf (x : F64.t) :
  nnf x -> F64.scaled x <= maxInt64 * F64.U ->
  F64.to_int64 x = Z.quot (F64.scaled x) F64.U.
Proof.
  intros Hx Hle. pose proof U_pos as HU.
  destruct (nnf_cases x Hx) as [(s & ->)|(m & e & -> & Hb & Hp)]; [reflexivity|].
  cbn [F64.to_int64]. rewrite trunc_scaled by assumption.
  set (v := F64.scaled (S754_finite false m e)) in *.
  assert (H0 : 0 <= Z.quot v F64.U) by (apply Z.quot_pos; lia).
  assert (H1 : Z.quot v F64.U <= maxInt64).
  { apply Z.le_trans with (Z.quot (maxInt64 * F64.U) F64.U).
    - apply Z.quot_le_mono; lia.
    - rewrite Z.quot_mul by lia. lia. }
  destruct (Z.leb_spec minInt64 (Z.quot v F64.U)); [|unfold minInt64 in *; lia].
  destruct (Z.leb_spec (Z.quot v F64.U) maxInt64); [reflexivity | lia].
Qed.






(** ** Circuit breaker *)

Section Breaker.

Import CircuitBreaker.

Lemma run_app cb cs1 cs2 : run cb (cs1 ++ cs2) = run (run cb cs1) cs2.
Proof. apply fold_left_app. Qed.

Lemma Allow_unchanged cb now r : fst (Allow cb now r) = cb.
Proof. unfold Allow. destruct (state cb); reflexivity. Qed.

Lemma step_config cb c : config (step cb c) = config cb.
Proof.
  destruct c; simpl; try reflexivity.
  - rewrite Allow_unchanged. reflexivity.
  - unfold RecordSuccess. repeat case_match; reflexivity.
Qed.

Lemma run_config cb cs : config (run cb cs) = config cb.
Proof.
  revert cb. unfold run.
  induction cs as [|c cs IH]; intros cb; simpl; [reflexivity|].
  rewrite IH. apply step_config.
Qed.

(** While fewer failures than the threshold have been counted, a closed
    breaker stays closed and counts each failure. *)
Lemma failures_below_threshold times : forall cb,
  state cb = CircuitClosed ->
  0 <= failureCount cb ->
  failureCount cb + Z.of_nat (length times) < FailureThreshold (config cb) ->
  FailureThreshold (config cb) <= maxInt64 ->
  state (run cb (failures times)) = CircuitClosed /\
  failureCount (run cb (failures times))
    = failureCount cb + Z.of_nat (length times).
Proof.
  induction times as [|now times IH]; intros cb Hst Hfc Hlt Hmax.
  - simpl. split; [assumption | lia].
  - cbn [length] in *. simpl failures. unfold run. simpl fold_left.
    fold (run (RecordFailure cb now) (failures times)).
    assert (Hw : wrap64 (failureCount cb + 1) = failureCount cb + 1).
    { apply wrap64_succ. unfold minInt64. lia. }
    assert (Hst' : state (RecordFailure cb now) = CircuitClosed).
    { unfold RecordFailure. simpl. rewrite Hst, Hw. simpl.
      destruct (Z.leb_spec (FailureThreshold (config cb)) (failureCount cb + 1));
        [lia | reflexivity]. }
    assert (Hfc' : failureCount (RecordFailure cb now) = failureCount cb + 1).
    { unfold RecordFailure. simpl. exact Hw. }
    destruct (IH (RecordFailure cb now) Hst') as [H1 H2].
    + lia.
    + rewrite Hfc'. simpl config. lia.
    + simpl config. assumption.
    + split; [exact H1 | rewrite H2, Hfc'; lia].
Qed.

Lemma failure_reaching_threshold cb now :
  state cb = CircuitClosed ->
  failureCount cb + 1 = FailureThreshold (config cb) ->
  in_int64 (FailureThreshold (config cb)) ->
  state (RecordFailure cb now) = CircuitOpen.
Proof.
  intros Hst Hfc Hrange. unfold RecordFailure. simpl.
  rewrite Hst, wrap64_id by (rewrite Hfc; exact Hrange). simpl.
  destruct (Z.leb_spec (FailureThreshold (config cb)) (failureCount cb + 1));
    [reflexivity | lia].
Qed.

Lemma successes_S n cb :
  run cb (successes (S n)) = run (RecordSuccess cb) (successes n).
Proof. reflexivity. Qed.

Lemma closed_stays_closed n : forall cb,
  state cb = CircuitClosed -> state (run cb (successes n)) = CircuitClosed.
Proof.
  induction n as [|n IH]; intros cb Hst; [exact Hst|].
  rewrite successes_S. apply IH.
  unfold RecordSuccess. rewrite Hst. reflexivity.
Qed.

Lemma step_counters_ok cb c :
  in_int64 (ConsecutiveSuccesses (config cb)) ->
  counters_ok cb -> counters_ok (step cb c).
Proof.
  intros Hrange Hok. unfold counters_ok in *.
  destruct c as [now r|now| | |]; simpl.
  - rewrite Allow_unchanged. exact Hok.
  - unfold RecordFailure. simpl.
    destruct (state cb); simpl; try reflexivity.
    destruct (_ <=? _); simpl; [reflexivity | exact I].
  - unfold RecordSuccess.
    destruct (state cb) eqn:Hst; simpl.
    + exact I.
    + rewrite Hok. split; [reflexivity | left; reflexivity].
    + destruct Hok as [H1 H2].
      assert (Hw : wrap64 (successCount cb + 1) = successCount cb + 1).
      { apply wrap64_succ. unfold in_int64, minInt64, maxInt64 in *. lia. }
      rewrite Hw.
      destruct (Z.leb_spec (ConsecutiveSuccesses (config cb)) (successCount cb + 1));
        simpl; [exact I|].
      split; [lia | right; lia].
  - exact I.
  - exact Hok.
Qed.

Lemma reachable_counters_ok cfg cb :
  in_int64 (ConsecutiveSuccesses cfg) ->
  reachable cfg cb -> config cb = cfg /\ counters_ok cb.
Proof.
  intros Hrange Hreach. induction Hreach as [|cb c Hreach [IHc IHok]].
  - split; [reflexivity | exact I].
  - split.
    + rewrite step_config. exact IHc.
    + apply step_counters_ok; [rewrite IHc; exact Hrange | exact IHok].
Qed.

(** A half-open breaker stays half-open and counts each success while
    its counter stays below the threshold. *)
Lemma halfopen_counts i : forall cb,
  state cb = CircuitHalfOpen ->
  0 <= successCount cb ->
  successCount cb + Z.of_nat i < ConsecutiveSuccesses (config cb) ->
  ConsecutiveSuccesses (config cb) <= maxInt64 ->
  state (run cb (successes i)) = CircuitHalfOpen /\
  successCount (run cb (successes i)) = successCount cb + Z.of_nat i.
Proof.
  induction i as [|i IH]; intros cb Hst Hs Hlt Hmax.
  - simpl. split; [exact Hst | lia].
  - rewrite successes_S.
    assert (Hstep : RecordSuccess cb =
              {| config := config cb; state := CircuitHalfOpen; failureCount := 0;
                 lastFailureTime := lastFailureTime cb;
                 successCount := successCount cb + 1 |}).
    { unfold RecordSuccess. rewrite Hst. simpl.
      rewrite wrap64_succ by (unfold minInt64; lia).
      destruct (Z.leb_spec (ConsecutiveSuccesses (config cb)) (successCount cb + 1));
        [lia | reflexivity]. }
    destruct (IH (RecordSuccess cb)) as [H1 H2];
      try (rewrite Hstep; simpl; first [reflexivity | lia]).
    split; [exact H1|]. rewrite H2, Hstep. simpl. lia.
Qed.

(** The success that takes the counter of a half-open breaker to the
    threshold closes the breaker and resets the counter. *)
Lemma halfopen_closing cb :
  state cb = CircuitHalfOpen ->
  0 <= successCount cb < maxInt64 ->
  ConsecutiveSuccesses (config cb) <= successCount cb + 1 ->
  state (RecordSuccess cb) = CircuitClosed /\
  successCount (RecordSuccess cb) = 0.
Proof.
  intros Hst Hs Hge. unfold RecordSuccess. rewrite Hst. simpl.
  rewrite wrap64_succ by (unfold minInt64; lia).
  destruct (Z.leb_spec (ConsecutiveSuccesses (config cb)) (successCount cb + 1));
    [split; reflexivity | lia].
Qed.

End Breaker.

Lemma reachable_run cfg cs :
  CircuitBreaker.reachable cfg (CircuitBreaker.run (CircuitBreaker.New cfg) cs).
Proof.
  induction cs as [|c cs IH] using rev_ind.
  - apply CircuitBreaker.reach_new.
  - rewrite run_app. simpl. apply CircuitBreaker.reach_step. exact IH.
Qed.

(** C3. A closed breaker with failure counter 0 and threshold [N >= 1]
    is still closed after any number of consecutive [RecordFailure] calls
    below [N] (in particular after [N-1]), and is open after exactly [N]
    of them. *)
Theorem circuit_threshold (cb : CircuitBreaker.t) (n : nat) :
  CircuitBreaker.state cb = CircuitClosed ->
  CircuitBreaker.failureCount cb = 0 ->
  FailureThreshold (CircuitBreaker.config cb) = Z.of_nat (S n) ->
  in_int64 (FailureThreshold (CircuitBreaker.config cb)) ->
  (forall times, (length times <= n)%nat ->
     CircuitBreaker.state (CircuitBreaker.run cb (CircuitBreaker.failures times))
       = CircuitClosed) /\
  (forall times, length times = S n ->
     CircuitBreaker.state (CircuitBreaker.run cb (CircuitBreaker.failures times))
       = CircuitOpen).
Proof.
  intros Hst Hfc HN Hrange.
  assert (Hbelow : forall times, (length times <= n)%nat ->
    CircuitBreaker.state (CircuitBreaker.run cb (CircuitBreaker.failures times))
      = CircuitClosed /\
    CircuitBreaker.failureCount (CircuitBreaker.run cb (CircuitBreaker.failures times))
      = Z.of_nat (length times)).
  { intros times Hlen.
    destruct (failures_below_threshold times cb) as [H1 H2];
      try assumption; try (destruct Hrange; assumption); try lia.
    split; [exact H1 | rewrite H2; lia]. }
  split.
  - intros times Hlen. apply Hbelow. exact Hlen.
  - intros times Hlen.
    destruct times as [|t0 times0] using rev_ind; [discriminate Hlen|].
    clear IHtimes0. rewrite length_app in Hlen. simpl in Hlen.
    destruct (Hbelow times0) as [Hc Hf]; [lia|].
    unfold CircuitBreaker.failures in *. rewrite map_app, run_app.
    change (CircuitBreaker.state
              (CircuitBreaker.RecordFailure
                 (CircuitBreaker.run cb (map CircuitBreaker.CallRecordFailure times0))
                 t0) = CircuitOpen).
    apply failure_reaching_threshold.
    + exact Hc.
    + rewrite Hf, run_config. lia.
    + rewrite run_config. exact Hrange.
Qed.

Lemma circuit_threshold_witness :
  let cb := CircuitBreaker.New (CircuitBreaker_cfg DefaultReliabilityConfig) in
  (forall times, (length times <= 4)%nat ->
     CircuitBreaker.state (CircuitBreaker.run cb (CircuitBreaker.failures times))
       = CircuitClosed) /\
  (forall times, length times = 5%nat ->
     CircuitBreaker.state (CircuitBreaker.run cb (CircuitBreaker.failures times))
       = CircuitOpen).
Proof.
  apply (circuit_threshold
           (CircuitBreaker.New (CircuitBreaker_cfg DefaultReliabilityConfig)) 4).
  - reflexivity.
  - reflexivity.
  - reflexivity.
  - unfold in_int64, minInt64, maxInt64. simpl. lia.
Defined.

(** The claim of C4 as it is worded fails: the success that takes an open
    breaker to half-open is counted, so that with the default threshold
    of 3 the breaker that has just become half-open is closed by the
    second [RecordSuccess] call that follows, and after three such calls
    its success counter is 1, not 0. *)
Lemma halfopen_recovery_counterexample :
  ~ (forall (cfg : CircuitBreakerConfig) (cb : CircuitBreaker.t),
       in_int64 (ConsecutiveSuccesses cfg) ->
       1 <= ConsecutiveSuccesses cfg ->
       CircuitBreaker.reachable cfg cb ->
       CircuitBreaker.state cb = CircuitHalfOpen ->
       let after :=
         CircuitBreaker.run cb
           (CircuitBreaker.successes (Z.to_nat (ConsecutiveSuccesses cfg))) in
       CircuitBreaker.state after = CircuitClosed /\
       CircuitBreaker.successCount after = 0) /\
  (let cfg := CircuitBreaker_cfg DefaultReliabilityConfig in
   let cb := CircuitBreaker.run (CircuitBreaker.New cfg)
               (CircuitBreaker.failures [1; 2; 3; 4; 5]
                ++ [CircuitBreaker.CallRecordSuccess]) in
   CircuitBreaker.state cb = CircuitHalfOpen /\
   CircuitBreaker.state (CircuitBreaker.run cb (CircuitBreaker.successes 1))
     = CircuitHalfOpen /\
   CircuitBreaker.state (CircuitBreaker.run cb (CircuitBreaker.successes 2))
     = CircuitClosed /\
   CircuitBreaker.successCount (CircuitBreaker.run cb (CircuitBreaker.successes 3))
     = 1).
Proof.
  split.
  - intros H.
    pose (cfg := CircuitBreaker_cfg DefaultReliabilityConfig).
    pose (cb := CircuitBreaker.run (CircuitBreaker.New cfg)
                  (CircuitBreaker.failures [1; 2; 3; 4; 5]
                   ++ [CircuitBreaker.CallRecordSuccess])).
    destruct (H cfg cb) as [_ Hcount].
    + unfold in_int64, minInt64, maxInt64. simpl. lia.
    + simpl. lia.
    + apply reachable_run.
    + reflexivity.
    + vm_compute in Hcount. discriminate Hcount.
  - repeat split.
Qed.

(** C4 (amended). In every reachable half-open state one [RecordFailure]
    opens the breaker, and the success counter [s] is at least 1: a
    breaker enters the half-open state, from the open one, with its
    counter at 1.  Consecutive [RecordSuccess] calls close the breaker as
    soon as the counter reaches [ConsecutiveSuccesses], that is with call
    number [max 1 (ConsecutiveSuccesses - s)]: before it the breaker is
    half-open and counts, that call closes it and resets the counter to
    0, and after it the breaker stays closed. *)
Theorem halfopen_recovery (cfg : CircuitBreakerConfig) (cb : CircuitBreaker.t) :
  in_int64 (ConsecutiveSuccesses cfg) ->
  CircuitBreaker.reachable cfg cb ->
  CircuitBreaker.state cb = CircuitHalfOpen ->
  let s := CircuitBreaker.successCount cb in
  let need := Z.to_nat (Z.max 1 (ConsecutiveSuccesses cfg - s)) in
  (forall now,
     CircuitBreaker.state (CircuitBreaker.RecordFailure cb now) = CircuitOpen) /\
  1 <= s /\
  (forall cb0, CircuitBreaker.reachable cfg cb0 ->
     CircuitBreaker.state cb0 = CircuitOpen ->
     CircuitBreaker.state (CircuitBreaker.RecordSuccess cb0) = CircuitHalfOpen /\
     CircuitBreaker.successCount (CircuitBreaker.RecordSuccess cb0) = 1) /\
  (forall i, (i < need)%nat ->
     CircuitBreaker.state (CircuitBreaker.run cb (CircuitBreaker.successes i))
       = CircuitHalfOpen /\
     CircuitBreaker.successCount (CircuitBreaker.run cb (CircuitBreaker.successes i))
       = s + Z.of_nat i) /\
  CircuitBreaker.state (CircuitBreaker.run cb (CircuitBreaker.successes need))
    = CircuitClosed /\
  CircuitBreaker.successCount (CircuitBreaker.run cb (CircuitBreaker.successes need))
    = 0 /\
  (forall i, (need <= i)%nat ->
     CircuitBreaker.state (CircuitBreaker.run cb (CircuitBreaker.successes i))
       = CircuitClosed).
Proof.
  intros Hrange Hreach Hst s need.
  destruct (reachable_counters_ok cfg cb Hrange Hreach) as [Hcfg Hok].
  unfold counters_ok in Hok. rewrite Hst, Hcfg in Hok. destruct Hok as [Hs1 Hs2].
  fold s in Hs1, Hs2.
  assert (Hmax : ConsecutiveSuccesses cfg <= maxInt64) by (destruct Hrange; assumption).
  assert (Hbefore : forall i, (i < need)%nat ->
     CircuitBreaker.state (CircuitBreaker.run cb (CircuitBreaker.successes i))
       = CircuitHalfOpen /\
     CircuitBreaker.successCount (CircuitBreaker.run cb (CircuitBreaker.successes i))
       = s + Z.of_nat i).
  { intros i Hi. destruct i as [|i]; [simpl; split; [exact Hst | unfold s; lia]|].
    apply halfopen_counts; rewrite ?Hcfg; fold s; try assumption;
      unfold need in Hi; lia. }
  assert (Hneed : (1 <= need)%nat) by (unfold need; lia).
  assert (Hclose :
     CircuitBreaker.state (CircuitBreaker.run cb (CircuitBreaker.successes need))
       = CircuitClosed /\
     CircuitBreaker.successCount (CircuitBreaker.run cb (CircuitBreaker.successes need))
       = 0).
  { replace need with (need - 1 + 1)%nat by lia.
    unfold CircuitBreaker.successes. rewrite replicate_add, run_app.
    fold (CircuitBreaker.successes (need - 1)).
    destruct (Hbefore (need - 1)%nat ltac:(lia)) as [H1 H2].
    change (CircuitBreaker.run ?c (replicate 1 CircuitBreaker.CallRecordSuccess))
      with (CircuitBreaker.RecordSuccess c).
    apply halfopen_closing.
    - exact H1.
    - rewrite H2. unfold maxInt64 in *. unfold need. lia.
    - rewrite H2, run_config, Hcfg. unfold need. lia. }
  split; [|split; [exact Hs1|split; [|split; [exact Hbefore|split; [apply Hclose|split; [apply Hclose|]]]]]].
  - intros now. unfold CircuitBreaker.RecordFailure. rewrite Hst. reflexivity.
  - intros cb0 Hreach0 Hst0.
    destruct (reachable_counters_ok cfg cb0 Hrange Hreach0) as [_ Hok0].
    unfold counters_ok in Hok0. rewrite Hst0 in Hok0.
    unfold CircuitBreaker.RecordSuccess. rewrite Hst0, Hok0. split; reflexivity.
  - intros i Hi. replace i with (need + (i - need))%nat by lia.
    unfold CircuitBreaker.successes. rewrite replicate_add, run_app.
    apply closed_stays_closed. apply Hclose.
Qed.

Lemma halfopen_recovery_witness :
  let cfg := CircuitBreaker_cfg DefaultReliabilityConfig in
  let cb := CircuitBreaker.run (CircuitBreaker.New cfg)
              (CircuitBreaker.failures [1; 2; 3; 4; 5]
               ++ [CircuitBreaker.CallRecordSuccess]) in
  CircuitBreaker.state (CircuitBreaker.run cb (CircuitBreaker.successes 2))
    = CircuitClosed /\
  CircuitBreaker.successCount (CircuitBreaker.run cb (CircuitBreaker.successes 2))
    = 0.
Proof.
  intros cfg cb.
  destruct (halfopen_recovery cfg cb) as (_ & _ & _ & _ & Hclosed & Hzero & _).
  - unfold in_int64, minInt64, maxInt64. simpl. lia.
  - apply reachable_run.
  - reflexivity.
  - split; [exact Hclosed | exact Hzero].
Defined.

(** C10. [Allow] leaves every field of the breaker as it was.  On an open
    breaker whose recovery timeout has elapsed it answers true and the
    breaker is still open.  Among the methods of the breaker, the one that
    takes an open breaker to half-open is [RecordSuccess], and it always
    does. *)
Theorem breaker_allow_frame (cb : CircuitBreaker.t) (now : Time) (r : Q) :
  fst (CircuitBreaker.Allow cb now r) = cb /\
  (CircuitBreaker.state cb = CircuitOpen ->
   RecoveryTimeout (CircuitBreaker.config cb)
     <= Time_Sub now (CircuitBreaker.lastFailureTime cb) ->
   snd (CircuitBreaker.Allow cb now r) = true /\
   CircuitBreaker.state (fst (CircuitBreaker.Allow cb now r)) = CircuitOpen) /\
  (CircuitBreaker.state cb = CircuitOpen ->
   forall c, CircuitBreaker.state (CircuitBreaker.step cb c) = CircuitHalfOpen
             <-> c = CircuitBreaker.CallRecordSuccess).
Proof.
  split; [apply Allow_unchanged|]. split.
  - intros Hst Hto. rewrite Allow_unchanged. split; [|exact Hst].
    unfold CircuitBreaker.Allow. rewrite Hst. simpl.
    unfold CircuitBreaker.shouldAttemptReset. apply Z.leb_le. exact Hto.
  - intros Hst c. split.
    + destruct c as [now' r'|now'| | |]; simpl; intros H.
      * rewrite Allow_unchanged, Hst in H. discriminate H.
      * unfold CircuitBreaker.RecordFailure in H. rewrite Hst in H.
        simpl in H. discriminate H.
      * reflexivity.
      * discriminate H.
      * rewrite Hst in H. discriminate H.
    + intros ->. simpl. unfold CircuitBreaker.RecordSuccess. rewrite Hst.
      reflexivity.
Qed.

Lemma breaker_allow_frame_witness :
  let cfg := CircuitBreaker_cfg DefaultReliabilityConfig in
  let cb := CircuitBreaker.run (CircuitBreaker.New cfg)
              (CircuitBreaker.failures [1; 2; 3; 4; 5]) in
  let now := 5 + 60 * Second in
  CircuitBreaker.state cb = CircuitOpen /\
  CircuitBreaker.Allow cb now 0 = (cb, true) /\
  CircuitBreaker.state (CircuitBreaker.step cb CircuitBreaker.CallRecordSuccess)
    = CircuitHalfOpen.
Proof.
  intros cfg cb now.
  destruct (breaker_allow_frame cb now 0) as (Hsame & Hopen & Honly).
  assert (Hst : CircuitBreaker.state cb = CircuitOpen) by reflexivity.
  assert (Hto : RecoveryTimeout (CircuitBreaker.config cb)
                <= Time_Sub now (CircuitBreaker.lastFailureTime cb)).
  { vm_compute. intros H. discriminate H. }
  split; [exact Hst|]. split.
  - destruct (Hopen Hst Hto) as [Htrue _].
    rewrite (surjective_pairing (CircuitBreaker.Allow cb now 0)), Hsame, Htrue.
    reflexivity.
  - apply (Honly Hst). reflexivity.
Defined.

(** ** Rate limiter *)

(** The order of the values is the order of the numbers of units. *)
Lemma value_le (x y : F64.t) :
  (F64.value x <= F64.value y)%Q <-> F64.scaled x <= F64.scaled y.
Proof.
  pose proof U_pos as HU.
  unfold F64.value, Qle. cbn [Qnum Qden]. rewrite Z2Pos.id by exact HU.
  split; intros H; nia.
Qed.

Lemma value_nonneg (x : F64.t) : (0 <= F64.value x)%Q <-> 0 <= F64.scaled x.
Proof.
  unfold F64.value, Qle. cbn [Qnum Qden]. split; intros H; lia.
Qed.

Lemma value_le_int (x : F64.t) (z : Z) :
  (F64.value x <= inject_Z z)%Q <-> F64.scaled x <= z * F64.U.
Proof.
  pose proof U_pos as HU.
  unfold F64.value, Qle, inject_Z. cbn [Qnum Qden].
  rewrite Z2Pos.id by exact HU. split; intros H; lia.
Qed.

Section Limiter.

Import RateLimiter.

Lemma Allow_config rl now : config (fst (Allow rl now)) = config rl.
Proof. unfold Allow. destruct (F64.leb _ _); reflexivity. Qed.

Lemma Allow_lastRefill rl now : lastRefill (fst (Allow rl now)) = now.
Proof. unfold Allow. destruct (F64.leb _ _); reflexivity. Qed.

Lemma limiter_run_config times : forall rl, config (run rl times) = config rl.
Proof.
  induction times as [|now times IH]; intros rl; [reflexivity|].
  unfold run. cbn [fold_left]. fold (run (fst (Allow rl now)) times).
  rewrite IH. apply Allow_config.
Qed.

Lemma within_capacity_iff rl :
  within_capacity rl <->
  nnf (tokens rl) /\
  F64.scaled (tokens rl) <= F64.scaled (F64.of_int (BurstSize (config rl))).
Proof.
  unfold within_capacity, nnf. rewrite value_nonneg, value_le. tauto.
Qed.

(** With a burst size of at least 1, a rate that is not negative and a
    clock that did not go back, a call keeps the count between 0 and the
    capacity: the refill is not negative, the minimum with the capacity
    is taken, and 1 is subtracted only from a count of at least 1. *)
Lemma Allow_within_capacity rl now :
  1 <= BurstSize (config rl) <= maxInt64 ->
  0 <= RequestsPerMinute (config rl) <= maxInt64 ->
  lastRefill rl <= now ->
  within_capacity rl -> within_capacity (fst (Allow rl now)).
Proof.
  intros HB HR Hnow Hin. apply within_capacity_iff in Hin as [Ht Hcap].
  apply within_capacity_iff.
  assert (Hel : 0 <= Time_Sub now (lastRefill rl) <= maxInt64).
  { unfold Time_Sub, maxInt64, minInt64.
    destruct (Z.ltb_spec (2 ^ 63 - 1) (now - lastRefill rl)); [lia|].
    destruct (Z.ltb_spec (now - lastRefill rl) (- 2 ^ 63)); lia. }
  pose proof (Duration_Seconds_nnf _ Hel) as Hsecs.
  assert (Hrate : nnf (F64.of_int (RequestsPerMinute (config rl))))
    by (apply of_int_nnf; unfold maxInt64 in HR; lia).
  pose proof (mul_nnw _ _ Hsecs Hrate) as Hmul.
  assert (Hadd : nnw (F64.div (F64.mul (Duration_Seconds (Time_Sub now (lastRefill rl)))
                                       (F64.of_int (RequestsPerMinute (config rl))))
                              (F64.of_int 60))).
  { change (F64.of_int 60) with (S754_finite false 8444249301319680 (-47)).
    apply div_nnw. exact Hmul. }
  pose proof (add_nnw _ _ Ht Hadd) as Hsum.
  destruct (of_int_ge_one (BurstSize (config rl)) ltac:(unfold maxInt64 in HB; lia))
    as (mb & eb & EB & Hbb & _).
  unfold Allow. cbv zeta.
  set (sum := F64.add (tokens rl) _) in *.
  rewrite EB in *.
  destruct (math_Min_cap sum mb eb Hsum Hbb) as (Hm1 & Hm2 & _).
  set (t1 := math_Min sum (S754_finite false mb eb)) in *.
  destruct (F64.leb F64.one t1) eqn:Hge; cbn [fst tokens config].
  - destruct (sub_one t1 Hm1 Hge) as [Hs1 Hs2]. rewrite EB. split; [exact Hs1 | lia].
  - rewrite EB. split; assumption.
Qed.

Lemma run_within_capacity times : forall rl,
  1 <= BurstSize (config rl) <= maxInt64 ->
  0 <= RequestsPerMinute (config rl) <= maxInt64 ->
  nondecreasing (lastRefill rl :: times) ->
  within_capacity rl ->
  within_capacity (run rl times).
Proof.
  induction times as [|now times IH]; intros rl Hburst Hrate Hmono Hin;
    [exact Hin|].
  unfold run. simpl fold_left. fold (run (fst (Allow rl now)) times).
  destruct Hmono as [Hfirst Hrest].
  apply IH.
  - rewrite Allow_config. exact Hburst.
  - rewrite Allow_config. exact Hrate.
  - rewrite Allow_lastRefill. exact Hrest.
  - apply Allow_within_capacity; assumption.
Qed.

Lemma New_within_capacity cfg t0 :
  0 <= BurstSize cfg <= maxInt64 -> within_capacity (New cfg t0).
Proof.
  intros HB. apply within_capacity_iff. cbn [New tokens config].
  split; [|lia]. apply of_int_nnf. unfold maxInt64 in HB. lia.
Qed.

(** Up to [2 ^ 53] the capacity is the burst size itself. *)
Lemma within_capacity_bounds rl :
  0 <= BurstSize (config rl) <= 2 ^ 53 ->
  within_capacity rl -> within_bounds rl.
Proof.
  intros HB (Hv & Hf & Hlo & Hhi). split; [exact Hv|]. split; [exact Hf|].
  split; [exact Hlo|].
  apply value_le_int. apply value_le in Hhi.
  rewrite of_int_scaled in Hhi by lia. exact Hhi.
Qed.

End Limiter.

Lemma nondecreasing_take (k : nat) : forall (t : Time) (l : list Time),
  nondecreasing (t :: l) -> nondecreasing (t :: take k l).
Proof.
  induction k as [|k IH]; intros t l H.
  - simpl. split; exact I.
  - destruct l as [|u l]; [exact H|].
    destruct H as [Htu Hrest]. simpl take. split; [exact Htu|].
    apply IH. exact Hrest.
Qed.

(** The claim of C1 as it is worded, with [BurstSize >= 1] as the only
    condition on the configuration, fails in two ways.  For a negative
    [RequestsPerMinute]: a limiter with burst 1 and rate -60 per minute,
    asked ten seconds after its creation, holds -9 tokens.  And for a
    burst size that is not a binary64 number: a limiter created with
    [BurstSize = 2 ^ 53 + 3] holds [float64(BurstSize) = 2 ^ 53 + 4]
    tokens, one more than its burst size, whatever its rate. *)
Lemma token_bucket_counterexample :
  ~ (forall (cfg : RateLimitConfig) (t0 : Time) (times : list Time),
       1 <= BurstSize cfg ->
       nondecreasing (t0 :: times) ->
       RateLimiter.within_bounds (RateLimiter.run (RateLimiter.New cfg t0) times)) /\
  ~ (forall (cfg : RateLimitConfig) (t0 : Time) (times : list Time),
       1 <= BurstSize cfg ->
       0 <= RequestsPerMinute cfg ->
       nondecreasing (t0 :: times) ->
       RateLimiter.within_bounds (RateLimiter.run (RateLimiter.New cfg t0) times)).
Proof.
  split; intros H.
  - pose (cfg := {| RequestsPerMinute := -60; BurstSize := 1;
                    AdaptiveEnabled := false; QuotaPercentage := 0 |}).
    destruct (H cfg 0 [10 * Second]) as (_ & _ & Hlo & _).
    + simpl. lia.
    + simpl. unfold Second. lia.
    + vm_compute in Hlo. apply Hlo. reflexivity.
  - pose (cfg := {| RequestsPerMinute := 60; BurstSize := 2 ^ 53 + 3;
                    AdaptiveEnabled := false; QuotaPercentage := 0 |}).
    destruct (H cfg 0 []) as (_ & _ & _ & Hhi).
    + simpl. lia.
    + simpl. lia.
    + simpl. split; exact I.
    + vm_compute in Hhi. apply Hhi. reflexivity.
Qed.

(** C1 (amended). For every limiter created with [BurstSize >= 1] and
    [RequestsPerMinute >= 0], both in the range of an [int], and every
    sequence of [Allow] calls at clock readings that never go back, the
    token count is a number between 0 and the capacity [Allow] compares
    it with, [float64(BurstSize)], after every call; for
    [BurstSize <= 2 ^ 53], where the conversion is exact, it is within
    [[0, BurstSize]]. *)
Theorem token_bucket_bounds (cfg : RateLimitConfig) (t0 : Time)
        (times : list Time) (k : nat) :
  1 <= BurstSize cfg <= maxInt64 ->
  0 <= RequestsPerMinute cfg <= maxInt64 ->
  nondecreasing (t0 :: times) ->
  RateLimiter.within_capacity
    (RateLimiter.run (RateLimiter.New cfg t0) (take k times)) /\
  (BurstSize cfg <= 2 ^ 53 ->
   RateLimiter.within_bounds
     (RateLimiter.run (RateLimiter.New cfg t0) (take k times))).
Proof.
  intros Hburst Hrate Hmono.
  assert (Hcap : RateLimiter.within_capacity
            (RateLimiter.run (RateLimiter.New cfg t0) (take k times))).
  { apply run_within_capacity.
    - exact Hburst.
    - exact Hrate.
    - apply (nondecreasing_take k t0 times Hmono).
    - apply New_within_capacity. lia. }
  split; [exact Hcap|].
  intros Hexact. apply within_capacity_bounds; [|exact Hcap].
  rewrite limiter_run_config. cbn [RateLimiter.New RateLimiter.config]. lia.
Qed.

Lemma token_bucket_bounds_witness :
  RateLimiter.within_bounds
    (RateLimiter.run
       (RateLimiter.New (RateLimit DefaultReliabilityConfig) 0)
       (take 3 [0; 0; Second; 5 * Second])).
Proof.
  apply (token_bucket_bounds (RateLimit DefaultReliabilityConfig) 0
           [0; 0; Second; 5 * Second] 3).
  - unfold maxInt64. simpl. lia.
  - unfold maxInt64. simpl. lia.
  - simpl. unfold Second. lia.
  - simpl. lia.
Defined.

(** ** Retry manager *)

Section Retry.

Import RetryManager.

Variable rm : t.
Variable wait : Z -> Duration -> selected.
Variable operation : nat -> String.string * option error.

Lemma delays_from_S a m :
  delays_from rm a (S m) = calculateDelay rm a :: delays_from rm (a + 1) m.
Proof.
  unfold delays_from. simpl. rewrite Z.add_0_r. f_equal.
  rewrite <- seq_shift, map_map. apply map_ext. intros i. f_equal. lia.
Qed.

(** [m] attempts in a row that fail retriably and whose delay runs to
    its end bring the loop [m] iterations further. *)
Lemma loop_retries m : forall fuel a lastErr ds,
  1 <= a ->
  a + Z.of_nat m <= MaxAttempts (config rm) ->
  MaxAttempts (config rm) <= maxInt64 ->
  (forall j, a <= j < a + Z.of_nat m ->
     fails_retriably rm operation j /\ wait j (calculateDelay rm j) = TimerFired) ->
  exists lastErr',
    loop rm wait operation (m + fuel) a lastErr (Z.to_nat (a - 1)) ds
    = loop rm wait operation fuel (a + Z.of_nat m) lastErr'
           (Z.to_nat (a + Z.of_nat m - 1)) (ds ++ delays_from rm a m).
Proof.
  induction m as [|m IH]; intros fuel a lastErr ds Ha Hm Hmax Hretry.
  - exists lastErr. simpl. rewrite Z.add_0_r, app_nil_r. reflexivity.
  - destruct (Hretry a) as [(res & e & Hop & Hre) Hwait]; [lia|].
    destruct (IH fuel (a + 1) (Some e) (ds ++ [calculateDelay rm a]))
      as [lastErr' HIH]; try lia.
    { intros j Hj. apply Hretry. lia. }
    exists lastErr'.
    replace (a + Z.of_nat (S m)) with (a + 1 + Z.of_nat m) by lia.
    rewrite delays_from_S.
    replace (ds ++ calculateDelay rm a :: delays_from rm (a + 1) m)
      with ((ds ++ [calculateDelay rm a]) ++ delays_from rm (a + 1) m)
      by (rewrite <- app_assoc; reflexivity).
    rewrite <- HIH. simpl plus. cbn [loop].
    destruct (Z.leb_spec a (MaxAttempts (config rm))); [|lia].
    rewrite Hop. destruct (Z.eqb_spec a (MaxAttempts (config rm))); [lia|].
    rewrite Hre. simpl. rewrite Hwait.
    rewrite wrap64_succ by (unfold minInt64; lia).
    replace (S (Z.to_nat (a - 1))) with (Z.to_nat (a + 1 - 1)) by lia.
    reflexivity.
Qed.

(** [Execute] returns whatever the operation and the context do. *)
Lemma loop_total fuel : forall a lastErr calls ds,
  minInt64 <= a ->
  MaxAttempts (config rm) <= maxInt64 ->
  MaxAttempts (config rm) - a < Z.of_nat fuel ->
  exists out, loop rm wait operation fuel a lastErr calls ds = Some out.
Proof.
  induction fuel as [|fuel IH]; intros a lastErr calls ds Hlo Hmax Hfuel.
  - simpl. destruct (Z.leb_spec a (MaxAttempts (config rm))); [lia|].
    eexists; reflexivity.
  - cbn [loop].
    destruct (Z.leb_spec a (MaxAttempts (config rm))); [|eexists; reflexivity].
    destruct (operation calls) as [res [e|]]; [|eexists; reflexivity].
    destruct (Z.eqb_spec a (MaxAttempts (config rm))); simpl;
      [eexists; reflexivity|].
    destruct (negb (isRetriable rm e)); [eexists; reflexivity|].
    destruct (wait a (calculateDelay rm a)); [eexists; reflexivity|].
    rewrite wrap64_succ by lia.
    apply IH; [lia | exact Hmax | lia].
Qed.

End Retry.

Lemma Execute_total rm wait operation :
  MaxAttempts (RetryManager.config rm) <= maxInt64 ->
  exists out, RetryManager.Execute rm wait operation = Some out.
Proof.
  intros Hmax. unfold RetryManager.Execute.
  apply loop_total; [unfold minInt64; lia | exact Hmax | lia].
Qed.

(** C2. With [MaxAttempts >= 1], an operation every invocation of which
    fails with a retriable error, and a context that is never done,
    [Execute] invokes the operation exactly [MaxAttempts] times and
    returns the error of the last invocation, as it is, with the empty
    string as result. *)
Theorem retry_exhaustion (rm : RetryManager.t)
        (wait : Z -> Duration -> selected)
        (operation : nat -> String.string * option error) :
  1 <= MaxAttempts (RetryManager.config rm) <= maxInt64 ->
  (forall n, exists res e,
     operation n = (res, Some e) /\ RetryManager.isRetriable rm e = true) ->
  (forall k d, wait k d = TimerFired) ->
  exists res e,
    operation (Z.to_nat (MaxAttempts (RetryManager.config rm)) - 1)%nat
      = (res, Some e) /\
    RetryManager.Execute rm wait operation
      = Some {| RetryManager.result := "";
                RetryManager.err := Some e;
                RetryManager.calls :=
                  Z.to_nat (MaxAttempts (RetryManager.config rm));
                RetryManager.delays :=
                  delays_from rm 1
                    (Z.to_nat (MaxAttempts (RetryManager.config rm)) - 1) |}.
Proof.
  intros [Hmin Hmax] Hfail Hwait.
  set (M := MaxAttempts (RetryManager.config rm)) in *.
  destruct (Hfail (Z.to_nat M - 1)%nat) as (res & e & Hop & Hre).
  exists res, e. split; [exact Hop|].
  unfold RetryManager.Execute. fold M.
  destruct (loop_retries rm wait operation (Z.to_nat M - 1) 1 1 None [])
    as [lastErr' Hloop]; fold M; try lia.
  { intros j Hj. split; [|apply Hwait]. apply Hfail. }
  replace (Z.to_nat M) with (Z.to_nat M - 1 + 1)%nat at 1 by lia.
  change (Z.to_nat (1 - 1)) with O in Hloop. rewrite Hloop.
  replace (1 + Z.of_nat (Z.to_nat M - 1)) with M by lia.
  replace (Z.to_nat (M - 1)) with (Z.to_nat M - 1)%nat by lia.
  cbn [RetryManager.loop]. fold M.
  rewrite Z.leb_refl, Hop, Z.eqb_refl. simpl.
  do 3 f_equal. lia.
Qed.

Lemma retry_exhaustion_witness :
  let rm := {| RetryManager.config := Retry DefaultReliabilityConfig;
               RetryManager.random := fun _ => F64.half;
         RetryManager.pow := pow_products |} in
  let operation := fun _ : nat =>
    (""%string, Some "timeout: simulated timeout error"%string) in
  exists res e,
    operation 2%nat = (res, Some e) /\
    RetryManager.Execute rm (fun _ _ => TimerFired) operation
      = Some {| RetryManager.result := "";
                RetryManager.err := Some e;
                RetryManager.calls := 3;
                RetryManager.delays := delays_from rm 1 2 |}.
Proof.
  intros rm operation.
  apply (retry_exhaustion rm (fun _ _ => TimerFired) operation).
  - unfold maxInt64. simpl. lia.
  - intros n. exists ""%string, "timeout: simulated timeout error"%string.
    split; reflexivity.
  - reflexivity.
Defined.

(** C7. When the operation has failed retriably on attempts [1..k], the
    delays after attempts [1..k-1] ran to their end, and the context is
    done while [Execute] waits after attempt [k < MaxAttempts], then
    [Execute] returns the error of the context with the empty string as
    result, and the operation has been invoked [k] times and no more. *)
Theorem cancellation_precedence (rm : RetryManager.t)
        (wait : Z -> Duration -> selected)
        (operation : nat -> String.string * option error)
        (k : Z) (ctxErr : error) :
  MaxAttempts (RetryManager.config rm) <= maxInt64 ->
  1 <= k < MaxAttempts (RetryManager.config rm) ->
  (forall j, 1 <= j <= k -> fails_retriably rm operation j) ->
  (forall j, 1 <= j < k ->
     wait j (RetryManager.calculateDelay rm j) = TimerFired) ->
  wait k (RetryManager.calculateDelay rm k) = CtxDone ctxErr ->
  RetryManager.Execute rm wait operation
    = Some {| RetryManager.result := "";
              RetryManager.err := Some ctxErr;
              RetryManager.calls := Z.to_nat k;
              RetryManager.delays := delays_from rm 1 (Z.to_nat k) |}.
Proof.
  intros Hmax Hk Hfail Htimer Hdone.
  set (M := MaxAttempts (RetryManager.config rm)) in *.
  unfold RetryManager.Execute. fold M.
  destruct (loop_retries rm wait operation (Z.to_nat k - 1)
              (S (Z.to_nat M - Z.to_nat k)) 1 None [])
    as [lastErr' Hloop]; fold M; try lia.
  { intros j Hj. split; [apply Hfail | apply Htimer]; lia. }
  replace (Z.to_nat M)
    with (Z.to_nat k - 1 + S (Z.to_nat M - Z.to_nat k))%nat at 1 by lia.
  change (Z.to_nat (1 - 1)) with O in Hloop. rewrite Hloop.
  replace (1 + Z.of_nat (Z.to_nat k - 1)) with k by lia.
  destruct (Hfail k) as (res & e & Hop & Hre); [lia|].
  cbn [RetryManager.loop]. fold M.
  destruct (Z.leb_spec k M); [|lia].
  rewrite Hop. destruct (Z.eqb_spec k M); [lia|].
  rewrite Hre. simpl. rewrite Hdone. do 2 f_equal.
  - f_equal. lia.
  - replace (Z.to_nat k) with (S (Z.to_nat k - 1)) at 2 by lia.
    unfold delays_from. rewrite seq_S, map_app. simpl.
    do 3 f_equal. lia.
Qed.

Lemma cancellation_precedence_witness :
  let rm := {| RetryManager.config := Retry DefaultReliabilityConfig;
               RetryManager.random := fun _ => F64.half;
         RetryManager.pow := pow_products |} in
  let operation := fun _ : nat =>
    (""%string, Some "network: simulated network error"%string) in
  let wait := fun (j : Z) (_ : Duration) =>
    if j =? 2 then CtxDone "context canceled" else TimerFired in
  RetryManager.Execute rm wait operation
    = Some {| RetryManager.result := "";
              RetryManager.err := Some "context canceled"%string;
              RetryManager.calls := 2;
              RetryManager.delays := delays_from rm 1 2 |}.
Proof.
  intros rm operation wait.
  apply (cancellation_precedence rm wait operation 2 "context canceled"%string).
  - unfold maxInt64. simpl. lia.
  - simpl. lia.
  - intros j Hj. exists ""%string, "network: simulated network error"%string.
    split; reflexivity.
  - intros j Hj. unfold wait. destruct (Z.eqb_spec j 2); [lia | reflexivity].
  - reflexivity.
Defined.

(** ** Monitor *)

Lemma keepRecent_length (s : list Z) :
  (length (Monitor.keepRecent s) <= 1000)%nat.
Proof.
  unfold Monitor.keepRecent.
  destruct (Nat.ltb_spec 1000 (length s)) as [Hlt|Hle]; [|exact Hle].
  rewrite length_drop. lia.
Qed.

(** What is kept after the cut are the most recent samples. *)
Lemma keepRecent_suffix (s : list Z) :
  exists evicted, s = evicted ++ Monitor.keepRecent s.
Proof.
  unfold Monitor.keepRecent.
  destruct (1000 <? length s)%nat.
  - exists (take (length s - 1000) s). symmetry. apply take_drop.
  - exists []. reflexivity.
Qed.

(** [RecordSuccess] enforces the cap of 1000 samples. *)
Lemma RecordSuccess_bounded m d now :
  (length (Monitor.responseTimes (Monitor.RecordSuccess m d now)) <= 1000)%nat.
Proof. apply keepRecent_length. Qed.

(** [RecordFailure] appends and never evicts. *)
Lemma RecordFailure_grows m d now :
  Monitor.responseTimes (Monitor.RecordFailure m d now)
  = Monitor.responseTimes m ++ [d].
Proof. reflexivity. Qed.

Lemma run_failures_length n d now : forall m,
  length (Monitor.responseTimes
            (Monitor.run m (replicate n (Monitor.Failure d now))))
  = (length (Monitor.responseTimes m) + n)%nat.
Proof.
  unfold Monitor.run.
  induction n as [|n IH]; intros m; cbn [replicate fold_left]; [lia|].
  rewrite IH. cbn [Monitor.apply]. rewrite RecordFailure_grows, length_app.
  simpl. lia.
Qed.

(** C5 (the code departs from the claim). While [RecordSuccess] cuts the
    samples back to the 1000 most recent ones, [RecordFailure] only
    appends: after 1001 [RecordFailure] calls on a new monitor, 1001
    samples are retained. *)
Theorem failure_samples_exceed_cap (cfg : MonitoringConfig) (d : Duration)
        (now : Time) :
  length (Monitor.responseTimes
            (Monitor.run (Monitor.New cfg)
                         (replicate 1001 (Monitor.Failure d now))))
  = 1001%nat.
Proof. rewrite run_failures_length. reflexivity. Qed.

(** ** The agent *)

(** C8. When the rate limiter denies the request, [Chat] returns the
    error [rate limit exceeded] with an empty response; the monitor is
    the former one after one [RecordRateLimited], which adds one to the
    total and to the rate-limited count and changes nothing else; the
    circuit breaker is the former one; the retry manager is not run, and
    the call does not depend on the operation or on the context. *)
Theorem chat_rate_limited (wait : Z -> Duration -> selected)
        (performRequest : nat -> String.string * option error)
        (ra : ResilientAgent.t) (clk : ResilientAgent.readings) :
  snd (RateLimiter.Allow (ResilientAgent.rateLimiter ra)
                         (ResilientAgent.limiterNow clk)) = false ->
  exists ra',
    ResilientAgent.Chat wait performRequest ra clk
      = Some (ra', {| ResilientAgent.response := "";
                      ResilientAgent.err := Some "rate limit exceeded"%string;
                      ResilientAgent.executed := None |}) /\
    ResilientAgent.circuitBreaker ra' = ResilientAgent.circuitBreaker ra /\
    ResilientAgent.retryManager ra' = ResilientAgent.retryManager ra /\
    ResilientAgent.monitor ra'
      = Monitor.RecordRateLimited (ResilientAgent.monitor ra) /\
    Monitor.rateLimitedRequests (ResilientAgent.monitor ra')
      = wrap64 (Monitor.rateLimitedRequests (ResilientAgent.monitor ra) + 1) /\
    Monitor.totalRequests (ResilientAgent.monitor ra')
      = wrap64 (Monitor.totalRequests (ResilientAgent.monitor ra) + 1) /\
    Monitor.failedRequests (ResilientAgent.monitor ra')
      = Monitor.failedRequests (ResilientAgent.monitor ra) /\
    Monitor.successfulRequests (ResilientAgent.monitor ra')
      = Monitor.successfulRequests (ResilientAgent.monitor ra) /\
    Monitor.responseTimes (ResilientAgent.monitor ra')
      = Monitor.responseTimes (ResilientAgent.monitor ra) /\
    (forall wait' performRequest',
       ResilientAgent.Chat wait' performRequest' ra clk
       = ResilientAgent.Chat wait performRequest ra clk).
Proof.
  intros Hdenied. unfold ResilientAgent.Chat.
  destruct (RateLimiter.Allow _ _) as [rl allowed]. simpl in Hdenied.
  subst allowed. simpl.
  eexists. split; [reflexivity|]. simpl.
  repeat (split; [reflexivity|]). intros wait' performRequest'. reflexivity.
Qed.

Lemma chat_rate_limited_witness :
  let cfg := DefaultReliabilityConfig in
  let ra := {|
    ResilientAgent.config := cfg;
    ResilientAgent.retryManager :=
      {| RetryManager.config := Retry cfg;
         RetryManager.random := fun _ => F64.half;
         RetryManager.pow := pow_products |};
    ResilientAgent.circuitBreaker := CircuitBreaker.New (CircuitBreaker_cfg cfg);
    ResilientAgent.rateLimiter :=
      RateLimiter.run (RateLimiter.New (RateLimit cfg) 0) (replicate 10 0);
    ResilientAgent.monitor := Monitor.New (Monitoring cfg) |} in
  let clk := {|
    ResilientAgent.startTime := 0; ResilientAgent.limiterNow := 0;
    ResilientAgent.breakerNow := 0; ResilientAgent.breakerDraw := 0;
    ResilientAgent.sinceNow := 0; ResilientAgent.breakerRecordNow := 0;
    ResilientAgent.monitorRecordNow := 0 |} in
  let wait := fun (_ : Z) (_ : Duration) => TimerFired in
  let performRequest := fun _ : nat => ("hello"%string, @None error) in
  exists ra',
    ResilientAgent.Chat wait performRequest ra clk
      = Some (ra', {| ResilientAgent.response := "";
                      ResilientAgent.err := Some "rate limit exceeded"%string;
                      ResilientAgent.executed := None |}) /\
    ResilientAgent.circuitBreaker ra' = ResilientAgent.circuitBreaker ra /\
    Monitor.rateLimitedRequests (ResilientAgent.monitor ra') = 1.
Proof.
  intros cfg ra clk wait performRequest.
  destruct (chat_rate_limited wait performRequest ra clk)
    as (ra' & Hchat & Hcb & _ & _ & Hlimited & _).
  - vm_compute. reflexivity.
  - exists ra'. split; [exact Hchat|]. split; [exact Hcb|].
    rewrite Hlimited. reflexivity.
Defined.

(** ** Backoff delay *)













(** ** The sort and the 95th percentile of [GetMetrics] *)

Lemma swapStep_out_of_range (l : list Z) (k : nat) :
  (length l <= S k)%nat -> Monitor.swapStep l k = l.
Proof.
  intros Hlen. unfold Monitor.swapStep.
  destruct (l !! k); [|reflexivity].
  rewrite (lookup_ge_None_2 l (S k)) by lia. reflexivity.
Qed.

Lemma swapSteps_out_of_range (m : nat) : forall (k : nat) (l : list Z),
  (length l <= S k)%nat -> fold_left Monitor.swapStep (seq k m) l = l.
Proof.
  induction m as [|m IH]; intros k l Hlen; simpl; [reflexivity|].
  rewrite swapStep_out_of_range by exact Hlen. apply IH. lia.
Qed.

Lemma swapStep_at (pre : list Z) (a b : Z) (rest : list Z) :
  Monitor.swapStep (pre ++ a :: b :: rest) (length pre)
  = pre ++ (if b <? a then b :: a :: rest else a :: b :: rest).
Proof.
  unfold Monitor.swapStep.
  rewrite (lookup_app_r pre) by lia.
  rewrite (lookup_app_r pre) by lia.
  replace (length pre - length pre)%nat with O by lia.
  replace (S (length pre) - length pre)%nat with 1%nat by lia.
  cbn [lookup list_lookup].
  destruct (b <? a); [|reflexivity].
  rewrite (insert_app_r_alt pre) by lia.
  rewrite (insert_app_r_alt pre) by lia.
  replace (length pre - length pre)%nat with O by lia.
  replace (S (length pre) - length pre)%nat with 1%nat by lia.
  reflexivity.
Qed.

(** The indexed loop of the source is the pass on lists. *)
Lemma swapSteps_bubblePass (m : nat) : forall (pre l : list Z),
  fold_left Monitor.swapStep (seq (length pre) m) (pre ++ l)
  = pre ++ bubblePass m l.
Proof.
  induction m as [|m IH]; intros pre l; [reflexivity|].
  cbn [seq fold_left].
  destruct l as [|a [|b rest]].
  - rewrite swapStep_out_of_range by (rewrite length_app; simpl; lia).
    rewrite swapSteps_out_of_range by (rewrite length_app; simpl; lia).
    reflexivity.
  - rewrite swapStep_out_of_range by (rewrite length_app; simpl; lia).
    rewrite swapSteps_out_of_range by (rewrite length_app; simpl; lia).
    reflexivity.
  - rewrite swapStep_at. cbn [bubblePass].
    destruct (b <? a).
    + specialize (IH (pre ++ [b]) (a :: rest)).
      rewrite length_app, Nat.add_1_r, <- app_assoc in IH. simpl in IH.
      rewrite IH, <- app_assoc. reflexivity.
    + specialize (IH (pre ++ [a]) (b :: rest)).
      rewrite length_app, Nat.add_1_r, <- app_assoc in IH. simpl in IH.
      rewrite IH, <- app_assoc. reflexivity.
Qed.

Lemma innerLoop_bubblePass (l : list Z) (i : nat) :
  Monitor.innerLoop l i = bubblePass (length l - i - 1) l.
Proof. apply (swapSteps_bubblePass _ [] l). Qed.

Lemma bubblePass_Permutation (m : nat) : forall l : list Z,
  bubblePass m l ≡ₚ l.
Proof.
  induction m as [|m IH]; intros l; [reflexivity|].
  destruct l as [|a [|b rest]]; try reflexivity.
  simpl. destruct (b <? a).
  - rewrite IH. apply Permutation_swap.
  - rewrite IH. reflexivity.
Qed.

Lemma bubblePass_app (m : nat) : forall a b : list Z,
  length a = S m -> bubblePass m (a ++ b) = bubblePass m a ++ b.
Proof.
  induction m as [|m IH]; intros a b Hlen; [reflexivity|].
  destruct a as [|x [|y r]]; try discriminate Hlen.
  simpl in Hlen. cbn [app bubblePass]. destruct (y <? x).
  - change (x :: r ++ b) with ((x :: r) ++ b).
    rewrite IH by (simpl; lia). reflexivity.
  - change (y :: r ++ b) with ((y :: r) ++ b).
    rewrite IH by (simpl; lia). reflexivity.
Qed.

(** A pass over a whole segment moves its maximum to the end. *)
Lemma bubblePass_max (m : nat) : forall a : list Z,
  length a = S m ->
  exists a' mx, bubblePass m a = a' ++ [mx]
                /\ Forall (fun x => x <= mx) a'
                /\ Forall (fun x => x <= mx) a.
Proof.
  induction m as [|m IH]; intros a Hlen.
  - destruct a as [|x [|y r]]; try discriminate Hlen.
    exists [], x. repeat split; [constructor | repeat constructor; lia].
  - destruct a as [|x [|y r]]; try discriminate Hlen.
    simpl in Hlen. cbn [bubblePass]. destruct (Z.ltb_spec y x) as [Hlt|Hge].
    + destruct (IH (x :: r)) as (a' & mx & Heq & Ha' & Ha); [simpl; lia|].
      inversion Ha as [|? ? Hx Hr]; subst.
      exists (y :: a'), mx. rewrite Heq. repeat split.
      * constructor; [lia | exact Ha'].
      * constructor; [exact Hx | constructor; [lia | exact Hr]].
    + destruct (IH (y :: r)) as (a' & mx & Heq & Ha' & Ha); [simpl; lia|].
      inversion Ha as [|? ? Hy Hr]; subst.
      exists (x :: a'), mx. rewrite Heq. repeat split.
      * constructor; [lia | exact Ha'].
      * constructor; [lia | constructor; [exact Hy | exact Hr]].
Qed.

Lemma innerLoop_Permutation (s : list Z) (i : nat) :
  Monitor.innerLoop s i ≡ₚ s.
Proof. rewrite innerLoop_bubblePass. apply bubblePass_Permutation. Qed.

Lemma innerLoop_length (s : list Z) (i : nat) :
  length (Monitor.innerLoop s i) = length s.
Proof. apply Permutation_length, innerLoop_Permutation. Qed.

Lemma innerLoop_sorted_tail (i : nat) (s : list Z) :
  sorted_tail i s -> (S i <= length s)%nat ->
  sorted_tail (S i) (Monitor.innerLoop s i).
Proof.
  intros (a & b & -> & Hlen & Hsorted & Hall) Hi.
  rewrite length_app in Hi.
  rewrite innerLoop_bubblePass, length_app.
  replace (length a + length b - i - 1)%nat with (length a - 1)%nat by lia.
  rewrite bubblePass_app by lia.
  destruct (bubblePass_max (length a - 1) a) as (a' & mx & Heq & Ha' & _); [lia|].
  assert (Hperm : a' ++ [mx] ≡ₚ a).
  { rewrite <- Heq. apply bubblePass_Permutation. }
  rewrite <- Hperm in Hall. apply Forall_app in Hall as [Hall' Hmx].
  apply (proj1 (Forall_singleton _ _)) in Hmx.
  exists a', (mx :: b). rewrite Heq, <- app_assoc. simpl.
  repeat split.
  - lia.
  - constructor; assumption.
  - apply Forall_forall. intros x Hx. constructor.
    + apply (proj1 (Forall_forall _ _) Ha' x Hx).
    + apply (proj1 (Forall_forall _ _) Hall' x Hx).
Qed.

Lemma outerLoop_sorted_tail (k : nat) : forall (i : nat) (s : list Z),
  sorted_tail i s -> (i + k <= length s)%nat ->
  sorted_tail (i + k) (fold_left Monitor.innerLoop (seq i k) s).
Proof.
  induction k as [|k IH]; intros i s Hinv Hlen.
  - rewrite Nat.add_0_r. exact Hinv.
  - cbn [seq fold_left]. replace (i + S k)%nat with (S i + k)%nat by lia.
    apply IH.
    + apply innerLoop_sorted_tail; [exact Hinv | lia].
    + rewrite innerLoop_length. lia.
Qed.

Lemma outerLoop_Permutation (k : nat) : forall (i : nat) (s : list Z),
  fold_left Monitor.innerLoop (seq i k) s ≡ₚ s.
Proof.
  induction k as [|k IH]; intros i s; [reflexivity|].
  cbn [seq fold_left]. rewrite IH. apply innerLoop_Permutation.
Qed.

(** The nested loops of [GetMetrics] sort the copy. *)
Lemma sortCopy_Permutation (l : list Z) : Monitor.sortCopy l ≡ₚ l.
Proof. apply outerLoop_Permutation. Qed.

Lemma sortCopy_StronglySorted (l : list Z) :
  StronglySorted Z.le (Monitor.sortCopy l).
Proof.
  destruct l as [|x l]; [constructor|].
  unfold Monitor.sortCopy.
  destruct (outerLoop_sorted_tail (length (x :: l) - 1) 0 (x :: l))
    as (a & b & Heq & Hlen & Hsorted & Hall).
  - exists (x :: l), []. rewrite app_nil_r.
    repeat split; [constructor|].
    apply Forall_forall. intros; constructor.
  - simpl. lia.
  - simpl plus in Heq, Hlen. rewrite Heq.
    assert (Hla : length a = 1%nat).
    { apply (f_equal length) in Heq.
      change (fold_left Monitor.innerLoop
                (seq 0 (length (x :: l) - 1)) (x :: l))
        with (Monitor.sortCopy (x :: l)) in Heq.
      rewrite (Permutation_length (sortCopy_Permutation (x :: l))) in Heq.
      rewrite length_app in Heq. simpl in Heq, Hlen. lia. }
    destruct a as [|y [|? ?]]; try discriminate Hla.
    apply (proj1 (Forall_singleton _ _)) in Hall. simpl.
    constructor; assumption.
Qed.

Lemma sortCopy_merge_sort (l : list Z) :
  Monitor.sortCopy l = merge_sort Z.le l.
Proof.
  apply (StronglySorted_unique Z.le).
  - apply sortCopy_StronglySorted.
  - apply StronglySorted_merge_sort; apply _.
  - rewrite sortCopy_Permutation, merge_sort_Permutation. reflexivity.
Qed.

Lemma p95Index_floor (n : nat) : Monitor.p95Index n = (95 * n / 100)%nat.
Proof.
  unfold Monitor.p95Index, Q_to_int, Qmult, inject_Z. cbn [Qnum Qden].
  change (Z.pos (1 * 100)) with 100.
  rewrite Z.quot_div_nonneg by lia.
  apply Nat2Z.inj.
  rewrite Z2Nat.id by (apply Z.div_pos; lia).
  rewrite Nat2Z.inj_div, Nat2Z.inj_mul. f_equal. lia.
Qed.

Lemma nearestRank_ceiling (n : nat) :
  Z.of_nat (nearestRank n) = - ((- (95 * Z.of_nat n)) / 100).
Proof.
  unfold nearestRank, Qceiling, Qfloor, Qdiv, Qmult, Qinv, Qopp, inject_Z.
  cbn [Qnum Qden]. change (Z.pos (1 * 1 * 100)) with 100.
  replace (95 * Z.of_nat n * 1) with (95 * Z.of_nat n) by lia.
  rewrite Z2Nat.id; [reflexivity|].
  Z.to_euclidean_division_equations. lia.
Qed.

(** Off the multiples of 20 the index of the source is the nearest rank,
    counted from 0; on them it is one more. *)
Lemma nearestRank_p95Index (n : nat) :
  (n mod 20 <> 0)%nat -> (nearestRank n - 1)%nat = Monitor.p95Index n.
Proof.
  intros Hmod. rewrite p95Index_floor.
  assert (Hr := nearestRank_ceiling n).
  assert (Hz : Z.of_nat n mod 20 <> 0).
  { intros H. apply Hmod. apply Nat2Z.inj. rewrite Nat2Z.inj_mod. exact H. }
  apply Nat2Z.inj. rewrite Nat2Z.inj_div, Nat2Z.inj_mul.
  assert (Hpos : 1 <= Z.of_nat (nearestRank n)).
  { rewrite Hr. Z.to_euclidean_division_equations. lia. }
  rewrite Nat2Z.inj_sub by lia. rewrite Hr.
  change (Z.of_nat 95) with 95. change (Z.of_nat 100) with 100.
  change (Z.of_nat 1) with 1.
  Z.to_euclidean_division_equations. lia.
Qed.

Lemma GetMetrics_P95 m cb rl :
  P95ResponseTime (Monitor.GetMetrics m cb rl)
  = if (20 <=? length (Monitor.responseTimes m))%nat
    then nth (Monitor.p95Index (length (Monitor.responseTimes m)))
             (Monitor.sortCopy (Monitor.responseTimes m)) 0
    else 0.
Proof.
  unfold Monitor.GetMetrics.
  destruct (Monitor.responseTimes m) as [|first rest] eqn:Hrts; [reflexivity|].
  destruct (fold_left Monitor.scan (first :: rest) (0, first, first))
    as [[total fastest] slowest].
  cbn [P95ResponseTime].
  rewrite (Permutation_length (sortCopy_Permutation (first :: rest))).
  reflexivity.
Qed.

(** The claim of C9 as it is worded fails on a single sample, where the
    field keeps its zero value, and on twenty samples, where the field is
    the largest sample and the nearest rank is the 19th. *)
Lemma p95_counterexample :
  let cb := CircuitBreaker.New (CircuitBreaker_cfg DefaultReliabilityConfig) in
  let rl := RateLimiter.New (RateLimit DefaultReliabilityConfig) 0 in
  let monitor_of samples :=
    Monitor.run (Monitor.New (Monitoring DefaultReliabilityConfig))
                (map (fun d => Monitor.Success d 0) samples) in
  let m1 := monitor_of [5] in
  let m20 := monitor_of [20; 19; 18; 17; 16; 15; 14; 13; 12; 11;
                         10; 9; 8; 7; 6; 5; 4; 3; 2; 1] in
  (Monitor.responseTimes m1 <> []
   /\ P95ResponseTime (Monitor.GetMetrics m1 cb rl)
      <> nearestRankP95 (Monitor.responseTimes m1))
  /\ (Monitor.responseTimes m20 <> []
      /\ P95ResponseTime (Monitor.GetMetrics m20 cb rl)
         <> nearestRankP95 (Monitor.responseTimes m20)).
Proof.
  repeat split; vm_compute; intros H; discriminate H.
Qed.

(** C9 (amended). With at least 20 retained samples, [P95ResponseTime]
    is the element of index [floor(0.95 * n)], counted from 0, of the
    samples sorted in ascending order; when [n] is not a multiple of 20
    this is the nearest-rank 95th percentile.  With fewer than 20 samples
    the field is 0. *)
Theorem p95_response_time (m : Monitor.t) (cb : CircuitBreaker.t)
        (rl : RateLimiter.t) :
  let rts := Monitor.responseTimes m in
  ((20 <= length rts)%nat ->
   P95ResponseTime (Monitor.GetMetrics m cb rl)
   = nth (95 * length rts / 100) (merge_sort Z.le rts) 0) /\
  ((20 <= length rts)%nat -> (length rts mod 20 <> 0)%nat ->
   P95ResponseTime (Monitor.GetMetrics m cb rl) = nearestRankP95 rts) /\
  ((length rts < 20)%nat ->
   P95ResponseTime (Monitor.GetMetrics m cb rl) = 0).
Proof.
  intros rts. unfold rts. rewrite GetMetrics_P95.
  split; [|split].
  - intros Hn. destruct (Nat.leb_spec 20 (length (Monitor.responseTimes m)));
      [|lia].
    rewrite p95Index_floor, sortCopy_merge_sort. reflexivity.
  - intros Hn Hmod.
    destruct (Nat.leb_spec 20 (length (Monitor.responseTimes m))); [|lia].
    unfold nearestRankP95.
    rewrite nearestRank_p95Index by exact Hmod.
    rewrite sortCopy_merge_sort. reflexivity.
  - intros Hn. destruct (Nat.leb_spec 20 (length (Monitor.responseTimes m)));
      [lia | reflexivity].
Qed.

Lemma p95_response_time_witness :
  let cb := CircuitBreaker.New (CircuitBreaker_cfg DefaultReliabilityConfig) in
  let rl := RateLimiter.New (RateLimit DefaultReliabilityConfig) 0 in
  let m := Monitor.run (Monitor.New (Monitoring DefaultReliabilityConfig))
             (map (fun d => Monitor.Success d 0)
                  [21; 20; 19; 18; 17; 16; 15; 14; 13; 12; 11;
                   10; 9; 8; 7; 6; 5; 4; 3; 2; 1]) in
  P95ResponseTime (Monitor.GetMetrics m cb rl) = 20 /\
  nearestRankP95 (Monitor.responseTimes m) = 20.
Proof.
  intros cb rl m.
  destruct (p95_response_time m cb rl) as (Hidx & Hrank & _).
  assert (Hn : (20 <= length (Monitor.responseTimes m))%nat)
    by (vm_compute; lia).
  assert (Hmod : (length (Monitor.responseTimes m) mod 20 <> 0)%nat)
    by (vm_compute; lia).
  split.
  - rewrite (Hidx Hn). vm_compute. reflexivity.
  - rewrite <- (Hrank Hn Hmod), (Hidx Hn). vm_compute. reflexivity.
Defined.

(** * Further properties of the code *)

(** ** Substring search *)

Lemma append_cons c (s t : String.string) :
  String.append (String c s) t = String c (String.append s t).
Proof. reflexivity. Qed.

Lemma append_nil_r (s : String.string) : String.append s "" = s.
Proof.
  induction s as [|c s IH]; [reflexivity|]. rewrite append_cons, IH. reflexivity.
Qed.

Lemma append_assoc (s t u : String.string) :
  String.append (String.append s t) u = String.append s (String.append t u).
Proof.
  induction s as [|c s IH]; [reflexivity|].
  rewrite !append_cons, IH. reflexivity.
Qed.

Lemma length_append (s t : String.string) :
  String.length (String.append s t) = (String.length s + String.length t)%nat.
Proof.
  induction s as [|c s IH]; [reflexivity|].
  rewrite append_cons. simpl. rewrite IH. reflexivity.
Qed.

Lemma substring_prefix (sub post : String.string) :
  String.substring 0 (String.length sub) (String.append sub post) = sub.
Proof.
  induction sub as [|c sub IH]; [destruct post; reflexivity|].
  rewrite append_cons. simpl. rewrite IH. reflexivity.
Qed.

Lemma substring_skip (pre : String.string) : forall n s,
  String.substring (String.length pre) n (String.append pre s)
  = String.substring 0 n s.
Proof.
  induction pre as [|c pre IH]; intros n s; [reflexivity|].
  rewrite append_cons. simpl. apply IH.
Qed.

Lemma substring_0_inv (n : nat) : forall s sub,
  String.substring 0 n s = sub -> String.length sub = n ->
  exists post, s = String.append sub post.
Proof.
  induction n as [|n IH]; intros s sub Hsub Hlen.
  - destruct sub; [|discriminate Hlen]. exists s. reflexivity.
  - destruct s as [|c s]; simpl in Hsub.
    + subst sub. discriminate Hlen.
    + subst sub. simpl in Hlen.
      destruct (IH s (String.substring 0 n s) eq_refl) as [post Hpost]; [lia|].
      exists post. rewrite append_cons. f_equal. exact Hpost.
Qed.

(** A slice of the right length that equals [sub] is an occurrence. *)
Lemma substring_occurs (i : nat) : forall s sub,
  (i + String.length sub <= String.length s)%nat ->
  String.substring i (String.length sub) s = sub ->
  occurs_at s sub i.
Proof.
  induction i as [|i IH]; intros s sub Hin Hsub.
  - destruct (substring_0_inv _ s sub Hsub eq_refl) as [post Hpost].
    exists ""%string, post. split; [exact Hpost | reflexivity].
  - destruct s as [|c s]; [simpl in Hin; lia|].
    simpl in Hsub, Hin.
    destruct (IH s sub) as (pre & post & Heq & Hlen); [lia | exact Hsub |].
    exists (String c pre), post. split.
    + rewrite append_cons. f_equal. exact Heq.
    + simpl. lia.
Qed.

Lemma occurs_substring s sub i :
  occurs_at s sub i -> String.substring i (String.length sub) s = sub.
Proof.
  intros (pre & post & -> & <-).
  rewrite substring_skip. apply substring_prefix.
Qed.

Lemma occurs_in_range s sub i :
  occurs_at s sub i -> (i + String.length sub <= String.length s)%nat.
Proof.
  intros (pre & post & -> & <-). rewrite !length_append. lia.
Qed.

(** The test of the loop body at index [i]. *)
Lemma slice_eqb_occurs s sub (i : Z) :
  0 <= i <= len s - len sub ->
  String.eqb (slice s i (i + len sub)) sub = true
  <-> occurs_at s sub (Z.to_nat i).
Proof.
  intros Hi. unfold slice, len in *.
  replace (Z.to_nat (i + Z.of_nat (String.length sub) - i))
    with (String.length sub) by lia.
  rewrite String.eqb_eq. split.
  - apply substring_occurs. lia.
  - apply occurs_substring.
Qed.

(** The loop of [indexOfSubstring] from [i] returns the first offset at or
    after [i] where [sub] occurs, and -1 when there is none. *)
Lemma indexOfSubstring_from_spec (fuel : nat) : forall (i : Z) s sub,
  0 <= i ->
  len s - len sub - i < Z.of_nat fuel ->
  let r := indexOfSubstring_from fuel i s sub in
  (r = -1 /\ forall j, (Z.to_nat i <= j)%nat -> ~ occurs_at s sub j) \/
  (i <= r /\ occurs_at s sub (Z.to_nat r)
   /\ forall j, (Z.to_nat i <= j < Z.to_nat r)%nat -> ~ occurs_at s sub j).
Proof.
  induction fuel as [|fuel IH]; intros i s sub Hi Hfuel; simpl.
  - left. split; [reflexivity|].
    intros j Hj Hocc. apply occurs_in_range in Hocc. unfold len in *. lia.
  - destruct (Z.leb_spec i (len s - len sub)) as [Hle|Hgt].
    + destruct (String.eqb (slice s i (i + len sub)) sub) eqn:Heq.
      * right. split; [lia|]. split.
        -- apply slice_eqb_occurs; [lia | exact Heq].
        -- intros j Hj. lia.
      * assert (Hno : ~ occurs_at s sub (Z.to_nat i)).
        { intros Hocc. apply slice_eqb_occurs in Hocc; [congruence | lia]. }
        destruct (IH (i + 1) s sub) as [[Hr Hnone]|(Hr & Hocc & Hnone)];
          [lia | lia | |].
        -- left. split; [exact Hr|]. intros j Hj.
           destruct (Nat.eq_dec j (Z.to_nat i)) as [->|Hne]; [exact Hno|].
           apply Hnone. lia.
        -- right. split; [lia|]. split; [exact Hocc|]. intros j Hj.
           destruct (Nat.eq_dec j (Z.to_nat i)) as [->|Hne]; [exact Hno|].
           apply Hnone. lia.
    + left. split; [reflexivity|].
      intros j Hj Hocc. apply occurs_in_range in Hocc. unfold len in *. lia.
Qed.

Lemma indexOfSubstring_spec (s sub : String.string) :
  (indexOfSubstring s sub = -1 /\ forall j, ~ occurs_at s sub j) \/
  (0 <= indexOfSubstring s sub
   /\ occurs_at s sub (Z.to_nat (indexOfSubstring s sub))
   /\ forall j, (j < Z.to_nat (indexOfSubstring s sub))%nat
                -> ~ occurs_at s sub j).
Proof.
  unfold indexOfSubstring.
  assert (Hspec := indexOfSubstring_from_spec (S (String.length s)) 0 s sub).
  cbv zeta in Hspec. change (Z.to_nat 0) with 0%nat in Hspec.
  destruct Hspec as [[Hr Hnone]|(Hr & Hocc & Hnone)];
    [lia | unfold len; lia | |].
  - left. split; [exact Hr|]. intros j. apply Hnone. lia.
  - right. split; [exact Hr|]. split; [exact Hocc|].
    intros j Hj. apply Hnone. split; [lia | exact Hj].
Qed.

(** X1. [indexOfSubstring] returns -1 exactly when the substring occurs
    nowhere; otherwise it returns the offset of its first occurrence. *)
Theorem indexOfSubstring_first (s sub : String.string) :
  (indexOfSubstring s sub = -1 /\ forall j, ~ occurs_at s sub j) \/
  (0 <= indexOfSubstring s sub
   /\ occurs_at s sub (Z.to_nat (indexOfSubstring s sub))
   /\ forall j, (j < Z.to_nat (indexOfSubstring s sub))%nat
                -> ~ occurs_at s sub j).
Proof. apply indexOfSubstring_spec. Qed.

Lemma contains_iff_occurs (s sub : String.string) :
  contains s sub = true <-> exists i, occurs_at s sub i.
Proof.
  unfold contains. split.
  - intros H. apply andb_true_iff in H as [Hlen H]. apply Z.leb_le in Hlen.
    apply orb_true_iff in H as [H|H].
    + apply String.eqb_eq in H. subst s. exists 0%nat, ""%string, ""%string.
      rewrite append_nil_r. split; reflexivity.
    + apply andb_true_iff in H as [Hlt H]. apply Z.ltb_lt in Hlt.
      apply orb_true_iff in H as [H|H]; [apply orb_true_iff in H as [H|H]|].
      * exists (Z.to_nat 0). replace (len sub) with (0 + len sub) in H by lia.
        apply slice_eqb_occurs in H; [exact H | lia].
      * exists (Z.to_nat (len s - len sub)).
        replace (len s) with (len s - len sub + len sub) in H at 2 by lia.
        apply slice_eqb_occurs in H; [exact H | unfold len in *; lia].
      * destruct (indexOfSubstring_spec s sub) as [[Hr _]|(_ & Hocc & _)].
        -- rewrite Hr in H. discriminate H.
        -- eexists. exact Hocc.
  - intros [i Hocc].
    assert (Hrange := occurs_in_range _ _ _ Hocc).
    apply andb_true_iff. split; [apply Z.leb_le; unfold len; lia|].
    apply orb_true_iff.
    destruct (String.eqb_spec s sub) as [Heq|Hne]; [left; reflexivity | right].
    apply andb_true_iff. split.
    + apply Z.ltb_lt. unfold len.
      destruct (Nat.eq_dec (String.length sub) (String.length s)) as [Hl|Hl];
        [|lia].
      exfalso. apply Hne.
      destruct Hocc as (pre & post & Heq & Hpre).
      rewrite Heq, !length_append in Hl.
      destruct pre; [|simpl in Hl; lia]. destruct post; [|simpl in Hl; lia].
      rewrite Heq, append_nil_r. reflexivity.
    + apply orb_true_iff. right.
      destruct (indexOfSubstring_spec s sub) as [[_ Hnone]|(Hr & _ & _)].
      * exfalso. exact (Hnone i Hocc).
      * apply negb_true_iff. apply Z.eqb_neq. lia.
Qed.

(** X2. [contains] answers true exactly when the substring occurs
    somewhere in the string; in particular the empty string is contained
    in every string. *)
Theorem contains_occurs (s sub : String.string) :
  (contains s sub = true <-> exists i, occurs_at s sub i)
  /\ contains s "" = true.
Proof.
  split; [apply contains_iff_occurs|].
  apply contains_iff_occurs. exists 0%nat, ""%string, s.
  split; reflexivity.
Qed.

(** ** Error classification *)

Lemma contains_wrapError (cat err : String.string) :
  contains (wrapError cat err) cat = true.
Proof.
  apply contains_iff_occurs. exists 0%nat, ""%string, (String.append ": " err).
  split; reflexivity.
Qed.

Lemma wrapError_suffix (cat err : String.string) :
  exists prefix, wrapError cat err = String.append prefix err.
Proof.
  exists (String.append cat ": "). unfold wrapError.
  rewrite append_assoc. reflexivity.
Qed.

(** X3. [classifyError] keeps the message of the error it is given as
    the end of the message it returns.  When the message holds one of the
    six keywords the error is returned under a category that the default
    configuration retries; when it holds none the error is returned as
    it is. *)
Theorem classifyError_categories (rm : RetryManager.t) (err : error) :
  RetriableErrors (RetryManager.config rm)
    = RetriableErrors (Retry DefaultReliabilityConfig) ->
  let keyword :=
    contains err "rate limit" || contains err "timeout"
    || contains err "server error" || contains err "internal error"
    || contains err "network" || contains err "connection" in
  (exists prefix, classifyError err = String.append prefix err) /\
  (keyword = true -> RetryManager.isRetriable rm (classifyError err) = true) /\
  (keyword = false -> classifyError err = err).
Proof.
  intros Hcfg keyword. unfold keyword, classifyError, RetryManager.isRetriable.
  rewrite Hcfg. cbn [RetriableErrors Retry DefaultReliabilityConfig existsb].
  destruct (contains err "rate limit"); cbn [orb].
  { split; [apply wrapError_suffix|]. split; [|discriminate].
    intros _. rewrite contains_wrapError. reflexivity. }
  destruct (contains err "timeout"); cbn [orb].
  { split; [apply wrapError_suffix|]. split; [|discriminate].
    intros _. rewrite (contains_wrapError "timeout"). apply orb_true_r. }
  destruct (contains err "server error"); cbn [orb].
  { split; [apply wrapError_suffix|]. split; [|discriminate].
    intros _. rewrite (contains_wrapError "server_error"), !orb_true_r. reflexivity. }
  destruct (contains err "internal error"); cbn [orb].
  { split; [apply wrapError_suffix|]. split; [|discriminate].
    intros _. rewrite (contains_wrapError "server_error"), !orb_true_r. reflexivity. }
  destruct (contains err "network"); cbn [orb].
  { split; [apply wrapError_suffix|]. split; [|discriminate].
    intros _. rewrite (contains_wrapError "network"), !orb_true_r. reflexivity. }
  destruct (contains err "connection"); cbn [orb].
  { split; [apply wrapError_suffix|]. split; [|discriminate].
    intros _. rewrite (contains_wrapError "network"), !orb_true_r. reflexivity. }
  split; [exists ""%string; reflexivity|]. split; [discriminate | reflexivity].
Qed.

Lemma classifyError_categories_witness :
  let rm := {| RetryManager.config := Retry DefaultReliabilityConfig;
               RetryManager.random := fun _ => F64.zero;
         RetryManager.pow := pow_products |} in
  classifyError "dial tcp: connection refused"
    = "network: dial tcp: connection refused"%string /\
  RetryManager.isRetriable rm (classifyError "dial tcp: connection refused")
    = true /\
  classifyError "invalid api key" = "invalid api key"%string.
Proof.
  intros rm.
  destruct (classifyError_categories rm "dial tcp: connection refused" eq_refl)
    as (_ & Hretry & _).
  destruct (classifyError_categories rm "invalid api key" eq_refl)
    as (_ & _ & Hsame).
  split; [reflexivity|]. split; [apply Hretry | apply Hsame]; reflexivity.
Defined.

(** ** Fault injector *)

Section Faults.

Import FaultInjector.

Lemma visits_elem_of fi entries ft expiry :
  visits fi entries ->
  (ft, expiry) ∈ entries <-> activeFailures fi !! ft = Some expiry.
Proof.
  unfold visits. intros Hperm. rewrite Hperm. apply elem_of_map_to_list.
Qed.

Lemma firstFault_Some now entries e :
  firstFault now entries = Some e ->
  exists ft expiry, (ft, expiry) ∈ entries /\ now < expiry
                    /\ faultError ft = Some e.
Proof.
  induction entries as [|[ft expiry] rest IH]; simpl; [discriminate|].
  destruct (Z.ltb_spec now expiry) as [Hlt|Hge].
  - destruct (faultError ft) as [e'|] eqn:Hft.
    + intros [= ->]. exists ft, expiry.
      split; [apply list_elem_of_here | split; assumption].
    + intros H. destruct (IH H) as (ft' & expiry' & Hin & Hrest).
      exists ft', expiry'. split; [apply list_elem_of_further, Hin | exact Hrest].
  - intros H. destruct (IH H) as (ft' & expiry' & Hin & Hrest).
    exists ft', expiry'. split; [apply list_elem_of_further, Hin | exact Hrest].
Qed.

Lemma firstFault_None now entries ft expiry :
  firstFault now entries = None ->
  (ft, expiry) ∈ entries -> now < expiry -> faultError ft = None.
Proof.
  induction entries as [|[ft' expiry'] rest IH]; simpl; intros Hnone Hin Hlt.
  - apply elem_of_nil in Hin. contradiction.
  - apply elem_of_cons in Hin as [[= <- <-]|Hin].
    + destruct (Z.ltb_spec now expiry); [|lia].
      destruct (faultError ft); [discriminate Hnone | reflexivity].
    + apply IH; try assumption.
      destruct (now <? expiry'); [|exact Hnone].
      destruct (faultError ft'); [discriminate Hnone | exact Hnone].
Qed.

End Faults.

Lemma ShouldFail_error_inv (fi fi' : FaultInjector.t) (now : Time)
      (entries : list (String.string * Z)) (e : error) :
  FaultInjector.visits fi entries ->
  FaultInjector.ShouldFail fi now entries = (fi', Some e) ->
  fi' = fi /\
  exists ft, FaultInjector.active fi now ft
             /\ FaultInjector.faultError ft = Some e.
Proof.
  intros Hvisits. unfold FaultInjector.ShouldFail.
  destruct (FaultInjector.firstFault now entries) as [e'|] eqn:Hfirst;
    [|discriminate].
  intros [= <- <-]. split; [reflexivity|].
  destruct (firstFault_Some _ _ _ Hfirst) as (ft & expiry & Hin & Hlt & Hft).
  exists ft. split; [|exact Hft].
  exists expiry. split; [apply (visits_elem_of fi entries), Hin; exact Hvisits|].
  split; [exact Hlt | rewrite Hft; eexists; reflexivity].
Qed.

Lemma ShouldFail_nil_inv (fi fi' : FaultInjector.t) (now : Time)
      (entries : list (String.string * Z)) :
  FaultInjector.visits fi entries ->
  FaultInjector.ShouldFail fi now entries = (fi', None) ->
  (forall ft, ~ FaultInjector.active fi now ft) /\
  (forall ft expiry,
     FaultInjector.activeFailures fi' !! ft = Some expiry
     <-> FaultInjector.activeFailures fi !! ft = Some expiry
         /\ now <= expiry).
Proof.
  intros Hvisits. unfold FaultInjector.ShouldFail.
  destruct (FaultInjector.firstFault now entries) as [e'|] eqn:Hfirst;
    [discriminate|].
  intros [= <-]. split.
  - intros ft (expiry & Hlook & Hlt & [e He]).
    apply (visits_elem_of fi entries ft expiry Hvisits) in Hlook.
    rewrite (firstFault_None _ _ _ _ Hfirst Hlook Hlt) in He. discriminate He.
  - intros ft expiry. cbn [FaultInjector.activeFailures].
    rewrite map_lookup_filter_Some. cbn [snd]. unfold Time_After.
    rewrite negb_true_iff, Z.ltb_ge. reflexivity.
Qed.

(** X4. Whatever the order in which the map is visited: when
    [ShouldFail] returns an error, it is the error of a fault that is
    active, and the map is as it was; when it returns nil, no known fault
    is active, and the map holds the former entries that the clock
    reading is not after. *)
Theorem ShouldFail_active (fi : FaultInjector.t) (now : Time)
        (entries : list (String.string * Z)) :
  FaultInjector.visits fi entries ->
  match FaultInjector.ShouldFail fi now entries with
  | (fi', Some e) =>
      fi' = fi /\
      exists ft, FaultInjector.active fi now ft
                 /\ FaultInjector.faultError ft = Some e
  | (fi', None) =>
      (forall ft, ~ FaultInjector.active fi now ft) /\
      (forall ft expiry,
         FaultInjector.activeFailures fi' !! ft = Some expiry
         <-> FaultInjector.activeFailures fi !! ft = Some expiry
             /\ now <= expiry)
  end.
Proof.
  intros Hvisits.
  destruct (FaultInjector.ShouldFail fi now entries) as [fi' [e|]] eqn:Hsf.
  - apply (ShouldFail_error_inv fi fi' now entries e Hvisits Hsf).
  - apply (ShouldFail_nil_inv fi fi' now entries Hvisits Hsf).
Qed.

Lemma ShouldFail_active_witness :
  let fi := FaultInjector.InjectFault
              (FaultInjector.InjectFault FaultInjector.New "foo" 10 0)
              "network" (15 * Second) 0 in
  match FaultInjector.ShouldFail fi Second
          (map_to_list (FaultInjector.activeFailures fi)) with
  | (fi', Some e) =>
      fi' = fi /\
      exists ft, FaultInjector.active fi Second ft
                 /\ FaultInjector.faultError ft = Some e
  | (fi', None) =>
      (forall ft, ~ FaultInjector.active fi Second ft) /\
      (forall ft expiry,
         FaultInjector.activeFailures fi' !! ft = Some expiry
         <-> FaultInjector.activeFailures fi !! ft = Some expiry
             /\ Second <= expiry)
  end.
Proof.
  intros fi. apply ShouldFail_active. unfold FaultInjector.visits. reflexivity.
Defined.

(** X5. A fault injected on top of faults none of which is active (of
    another type) fires from the injection until its duration has run
    out and not afterwards, whatever the order in which the map is
    visited; injecting a type again replaces its expiry. *)
Theorem injected_fault_lifetime (fi : FaultInjector.t)
        (ft : String.string) (e : error) (d : Duration) (t0 now : Time)
        (entries : list (String.string * Z)) :
  FaultInjector.faultError ft = Some e ->
  (forall ft', ft' <> ft -> ~ FaultInjector.active fi now ft') ->
  FaultInjector.visits (FaultInjector.InjectFault fi ft d t0) entries ->
  snd (FaultInjector.ShouldFail (FaultInjector.InjectFault fi ft d t0)
                                now entries)
  = if now <? t0 + d then Some e else None.
Proof.
  intros Hft Hothers Hvisits.
  set (fi1 := FaultInjector.InjectFault fi ft d t0) in *.
  assert (Hlook : FaultInjector.activeFailures fi1 !! ft = Some (t0 + d)).
  { unfold fi1, FaultInjector.InjectFault, Time_Add. simpl.
    apply lookup_insert_eq. }
  destruct (FaultInjector.ShouldFail fi1 now entries) as [fi' [e'|]] eqn:Hsf;
    simpl.
  - destruct (ShouldFail_error_inv fi1 fi' now entries e' Hvisits Hsf)
      as (_ & ft' & (expiry & Hl & Hlt & _) & He').
    destruct (decide (ft' = ft)) as [->|Hne].
    + rewrite Hlook in Hl. injection Hl as <-.
      destruct (Z.ltb_spec now (t0 + d)); [congruence | lia].
    + exfalso. apply (Hothers ft' Hne). exists expiry.
      unfold fi1, FaultInjector.InjectFault in Hl. simpl in Hl.
      rewrite lookup_insert_ne in Hl by congruence.
      split; [exact Hl|]. split; [exact Hlt | rewrite He'; eexists; reflexivity].
  - destruct (ShouldFail_nil_inv fi1 fi' now entries Hvisits Hsf) as [Hnone _].
    destruct (Z.ltb_spec now (t0 + d)) as [Hlt|Hge]; [|reflexivity].
    exfalso. apply (Hnone ft). exists (t0 + d).
    split; [exact Hlook|]. split; [exact Hlt | rewrite Hft; eexists; reflexivity].
Qed.

Lemma injected_fault_lifetime_witness :
  let fi := FaultInjector.InjectFault FaultInjector.New "timeout" Second 0 in
  let fi1 := FaultInjector.InjectFault fi "timeout" (5 * Second) Second in
  snd (FaultInjector.ShouldFail fi1 (3 * Second)
         (map_to_list (FaultInjector.activeFailures fi1)))
  = Some "timeout: simulated timeout error"%string.
Proof.
  intros fi fi1.
  apply (injected_fault_lifetime fi "timeout"
           "timeout: simulated timeout error" (5 * Second) Second (3 * Second)).
  - reflexivity.
  - intros ft' Hne (expiry & Hl & _).
    unfold fi, FaultInjector.InjectFault, FaultInjector.New in Hl. simpl in Hl.
    rewrite lookup_insert_ne, lookup_empty in Hl by congruence. discriminate Hl.
  - unfold FaultInjector.visits. reflexivity.
Defined.

(** Of the errors the fault injector produces, the default configuration
    retries all but the one of type [quota]. *)
Lemma fault_errors_retriable (rm : RetryManager.t) (ft : String.string)
        (e : error) :
  RetriableErrors (RetryManager.config rm)
    = RetriableErrors (Retry DefaultReliabilityConfig) ->
  FaultInjector.faultError ft = Some e ->
  RetryManager.isRetriable rm e = negb (String.eqb ft "quota").
Proof.
  intros Hcfg. unfold RetryManager.isRetriable, FaultInjector.faultError.
  rewrite Hcfg.
  destruct (String.eqb_spec ft "timeout") as [->|_];
    [intros [= <-]; reflexivity|].
  destruct (String.eqb_spec ft "ratelimit") as [->|_];
    [intros [= <-]; reflexivity|].
  destruct (String.eqb_spec ft "server_error") as [->|_];
    [intros [= <-]; reflexivity|].
  destruct (String.eqb_spec ft "network") as [->|_];
    [intros [= <-]; reflexivity|].
  destruct (String.eqb_spec ft "quota") as [->|_];
    [intros [= <-]; reflexivity | discriminate].
Qed.

(** X7. While a known fault is active, [performRequest] returns the
    error of an active fault with an empty response, and what the client
    would answer plays no part.  When none is active, an error of the
    client is returned classified, a response without choices is the
    error [no response choices received], and otherwise the content of
    the first choice is returned. *)
Theorem performRequest_outcome (fi : FaultInjector.t) (now : Time)
        (entries : list (String.string * Z)) (answer : completion) :
  FaultInjector.visits fi entries ->
  ((exists ft, FaultInjector.active fi now ft) ->
   (exists ft e, FaultInjector.active fi now ft
                 /\ FaultInjector.faultError ft = Some e
                 /\ performRequest fi now entries answer
                    = (fi, (""%string, Some e))) /\
   forall answer', performRequest fi now entries answer'
                   = performRequest fi now entries answer) /\
  ((forall ft, ~ FaultInjector.active fi now ft) ->
   snd (performRequest fi now entries answer)
   = match answer with
     | CompletionError err => (""%string, Some (classifyError err))
     | CompletionChoices [] =>
         (""%string, Some "no response choices received"%string)
     | CompletionChoices (content :: _) => (content, None)
     end).
Proof.
  intros Hvisits. unfold performRequest.
  destruct (FaultInjector.ShouldFail fi now entries) as [fi' [e|]] eqn:Hsf.
  - destruct (ShouldFail_error_inv fi fi' now entries e Hvisits Hsf)
      as (-> & ft & Hact & Hft).
    split.
    + intros _. split; [|reflexivity]. exists ft, e. repeat split; assumption.
    + intros Hnone. exfalso. exact (Hnone ft Hact).
  - destruct (ShouldFail_nil_inv fi fi' now entries Hvisits Hsf) as [Hnone _].
    split.
    + intros [ft Hact]. exfalso. exact (Hnone ft Hact).
    + intros _. destruct answer as [err|[|content rest]]; reflexivity.
Qed.

Lemma performRequest_outcome_witness :
  let fi := FaultInjector.InjectFault FaultInjector.New "quota" (20 * Second) 0 in
  performRequest fi Second (map_to_list (FaultInjector.activeFailures fi))
                 (CompletionChoices ["hello"%string])
  = performRequest fi Second (map_to_list (FaultInjector.activeFailures fi))
                   (CompletionError "boom") /\
  snd (performRequest (FaultInjector.ClearFaults fi) Second []
                      (CompletionError "read: connection reset"))
  = (""%string, Some "network: read: connection reset"%string).
Proof.
  intros fi. split.
  - destruct (performRequest_outcome fi Second
                (map_to_list (FaultInjector.activeFailures fi))
                (CompletionError "boom")) as [Hactive _].
    + unfold FaultInjector.visits. reflexivity.
    + destruct Hactive as [_ Hsame].
      * exists "quota"%string, (20 * Second). split; [|split].
        -- unfold fi, FaultInjector.InjectFault. simpl. apply lookup_insert_eq.
        -- unfold Second. lia.
        -- eexists. reflexivity.
      * apply Hsame.
  - destruct (performRequest_outcome (FaultInjector.ClearFaults fi) Second []
                (CompletionError "read: connection reset")) as [_ Hnone].
    + unfold FaultInjector.visits, FaultInjector.ClearFaults. simpl.
      rewrite map_to_list_empty. reflexivity.
    + rewrite Hnone; [reflexivity|].
      intros ft (expiry & Hl & _).
      unfold FaultInjector.ClearFaults in Hl. simpl in Hl.
      rewrite lookup_empty in Hl. discriminate Hl.
Defined.

(** ** Retry manager, continued *)

(** What the loop keeps from any attempt on: it ends, with no more
    invocations than attempts left and no more delays than invocations. *)
Lemma loop_bounds rm wait operation (fuel : nat) :
  forall a lastErr calls ds,
  1 <= a ->
  MaxAttempts (RetryManager.config rm) <= maxInt64 ->
  MaxAttempts (RetryManager.config rm) - a < Z.of_nat fuel ->
  Z.of_nat calls = a - 1 ->
  (length ds <= calls)%nat ->
  exists out,
    RetryManager.loop rm wait operation fuel a lastErr calls ds = Some out /\
    Z.of_nat (RetryManager.calls out)
      <= Z.max (a - 1) (MaxAttempts (RetryManager.config rm)) /\
    (length (RetryManager.delays out) <= RetryManager.calls out)%nat /\
    (a <= MaxAttempts (RetryManager.config rm) ->
     (calls < RetryManager.calls out)%nat).
Proof.
  induction fuel as [|fuel IH]; intros a lastErr calls ds Ha Hmax Hfuel Hc Hds.
  - simpl. destruct (Z.leb_spec a (MaxAttempts (RetryManager.config rm)));
      [lia|].
    eexists. split; [reflexivity|]. simpl. repeat split; lia.
  - cbn [RetryManager.loop].
    destruct (Z.leb_spec a (MaxAttempts (RetryManager.config rm))) as [Hle|Hgt].
    2:{ eexists. split; [reflexivity|]. simpl. repeat split; lia. }
    destruct (operation calls) as [res [e|]].
    2:{ eexists. split; [reflexivity|]. simpl. repeat split; lia. }
    destruct (Z.eqb_spec a (MaxAttempts (RetryManager.config rm))); simpl.
    { eexists. split; [reflexivity|]. simpl. repeat split; lia. }
    destruct (negb (RetryManager.isRetriable rm e)).
    { eexists. split; [reflexivity|]. simpl. repeat split; lia. }
    destruct (wait a (RetryManager.calculateDelay rm a)).
    { eexists. split; [reflexivity|]. simpl. rewrite length_app. simpl.
      repeat split; lia. }
    rewrite wrap64_succ by (unfold minInt64; lia).
    destruct (IH (a + 1) (Some e) (S calls)
                 (ds ++ [RetryManager.calculateDelay rm a]))
      as (out & Hout & Hcalls & Hdelays & Hmore); try lia.
    { rewrite length_app. simpl. lia. }
    exists out. split; [exact Hout|]. repeat split; lia.
Qed.

(** X8. Whatever the operation and the context do, [Execute] returns,
    having invoked the operation at most [MaxAttempts] times (at least
    once when [MaxAttempts >= 1]) and having started at most one delay
    per invocation. *)
Theorem Execute_attempts_bounded (rm : RetryManager.t)
        (wait : Z -> Duration -> selected)
        (operation : nat -> String.string * option error) :
  MaxAttempts (RetryManager.config rm) <= maxInt64 ->
  exists out,
    RetryManager.Execute rm wait operation = Some out /\
    Z.of_nat (RetryManager.calls out)
      <= Z.max 0 (MaxAttempts (RetryManager.config rm)) /\
    (length (RetryManager.delays out) <= RetryManager.calls out)%nat /\
    (1 <= MaxAttempts (RetryManager.config rm) ->
     (1 <= RetryManager.calls out)%nat).
Proof.
  intros Hmax. unfold RetryManager.Execute.
  destruct (loop_bounds rm wait operation
              (Z.to_nat (MaxAttempts (RetryManager.config rm))) 1 None O [])
    as (out & Hout & Hcalls & Hdelays & Hmore); simpl; try lia.
  exists out. split; [exact Hout|]. repeat split; [lia | lia |].
  intros H. specialize (Hmore H). lia.
Qed.

Lemma Execute_attempts_bounded_witness :
  let rm := {| RetryManager.config := Retry DefaultReliabilityConfig;
               RetryManager.random := fun _ => F64.half;
         RetryManager.pow := pow_products |} in
  let operation := fun n : nat =>
    if (n <? 1)%nat then (""%string, Some "timeout"%string)
    else (""%string, Some "bad request"%string) in
  exists out,
    RetryManager.Execute rm (fun _ _ => TimerFired) operation = Some out /\
    Z.of_nat (RetryManager.calls out) <= 3.
Proof.
  intros rm operation.
  destruct (Execute_attempts_bounded rm (fun _ _ => TimerFired) operation)
    as (out & Hout & Hcalls & _).
  - unfold maxInt64. simpl. lia.
  - exists out. split; [exact Hout | exact Hcalls].
Defined.

Lemma Execute_stops (rm : RetryManager.t)
      (wait : Z -> Duration -> selected)
      (operation : nat -> String.string * option error)
      (k : Z) (res : String.string) (outcome : option error) :
  MaxAttempts (RetryManager.config rm) <= maxInt64 ->
  1 <= k <= MaxAttempts (RetryManager.config rm) ->
  (forall j, 1 <= j < k ->
     fails_retriably rm operation j
     /\ wait j (RetryManager.calculateDelay rm j) = TimerFired) ->
  operation (Z.to_nat (k - 1)) = (res, outcome) ->
  match outcome with
  | None => True
  | Some e => RetryManager.isRetriable rm e = false
  end ->
  RetryManager.Execute rm wait operation
  = Some {| RetryManager.result :=
              match outcome with None => res | Some _ => ""%string end;
            RetryManager.err := outcome;
            RetryManager.calls := Z.to_nat k;
            RetryManager.delays := delays_from rm 1 (Z.to_nat k - 1) |}.
Proof.
  intros Hmax Hk Hretry Hop Hfinal.
  set (M := MaxAttempts (RetryManager.config rm)) in *.
  unfold RetryManager.Execute. fold M.
  destruct (loop_retries rm wait operation (Z.to_nat k - 1)
              (S (Z.to_nat M - Z.to_nat k)) 1 None [])
    as [lastErr' Hloop]; fold M; try lia.
  { intros j Hj. apply Hretry. lia. }
  replace (Z.to_nat M)
    with (Z.to_nat k - 1 + S (Z.to_nat M - Z.to_nat k))%nat at 1 by lia.
  change (Z.to_nat (1 - 1)) with O in Hloop. rewrite Hloop.
  replace (1 + Z.of_nat (Z.to_nat k - 1)) with k by lia.
  cbn [RetryManager.loop]. fold M.
  destruct (Z.leb_spec k M); [|lia].
  rewrite Hop. destruct outcome as [e|].
  - rewrite Hfinal, orb_true_r. simpl. do 2 f_equal. lia.
  - do 2 f_equal. lia.
Qed.

(** X9. [Execute] stops at the first attempt that does not fail with a
    retriable error.  When attempts [1..k-1] fail retriably with their
    delays run to the end and attempt [k <= MaxAttempts] succeeds, the
    result of that attempt is returned with a nil error after [k]
    invocations; when attempt [k] fails with an error that is not
    retriable, that error is returned after [k] invocations, with
    attempts to spare or not. *)
Theorem Execute_stops_at (rm : RetryManager.t)
        (wait : Z -> Duration -> selected)
        (operation : nat -> String.string * option error)
        (k : Z) (res : String.string) (outcome : option error) :
  MaxAttempts (RetryManager.config rm) <= maxInt64 ->
  1 <= k <= MaxAttempts (RetryManager.config rm) ->
  (forall j, 1 <= j < k ->
     fails_retriably rm operation j
     /\ wait j (RetryManager.calculateDelay rm j) = TimerFired) ->
  operation (Z.to_nat (k - 1)) = (res, outcome) ->
  match outcome with
  | None => True
  | Some e => RetryManager.isRetriable rm e = false
  end ->
  RetryManager.Execute rm wait operation
  = Some {| RetryManager.result :=
              match outcome with None => res | Some _ => ""%string end;
            RetryManager.err := outcome;
            RetryManager.calls := Z.to_nat k;
            RetryManager.delays := delays_from rm 1 (Z.to_nat k - 1) |}.
Proof. apply Execute_stops. Qed.

Lemma Execute_stops_at_witness :
  let rm := {| RetryManager.config := Retry DefaultReliabilityConfig;
               RetryManager.random := fun _ => F64.half;
         RetryManager.pow := pow_products |} in
  let operation := fun n : nat =>
    if (n <? 1)%nat then (""%string, Some "timeout"%string)
    else (""%string, Some "bad request"%string) in
  RetryManager.Execute rm (fun _ _ => TimerFired) operation
  = Some {| RetryManager.result := "";
            RetryManager.err := Some "bad request"%string;
            RetryManager.calls := 2;
            RetryManager.delays := delays_from rm 1 1 |}.
Proof.
  intros rm operation.
  apply (Execute_stops_at rm (fun _ _ => TimerFired) operation 2
           ""%string (Some "bad request"%string)).
  - unfold maxInt64. simpl. lia.
  - simpl. lia.
  - intros j Hj. assert (j = 1) as -> by lia. split; [|reflexivity].
    exists ""%string, "timeout"%string. split; reflexivity.
  - reflexivity.
  - reflexivity.
Defined.

(** ** Circuit breaker, continued *)

(** X11. The transitions of the breaker.  A method call changes the
    state only in these ways: closed to open by a [RecordFailure] that
    reaches the threshold; open to half-open by [RecordSuccess]; half-open
    to open by [RecordFailure]; half-open to closed by a [RecordSuccess]
    that reaches the success threshold; and to closed by [Reset].  So a
    closed breaker never becomes half-open in one step, and an open one
    is closed by nothing but [Reset]. *)
Theorem breaker_transitions (cb : CircuitBreaker.t) (c : CircuitBreaker.call) :
  match CircuitBreaker.state cb, CircuitBreaker.state (CircuitBreaker.step cb c) with
  | CircuitClosed, CircuitClosed
  | CircuitOpen, CircuitOpen
  | CircuitHalfOpen, CircuitHalfOpen => True
  | CircuitClosed, CircuitOpen =>
      (exists now, c = CircuitBreaker.CallRecordFailure now) /\
      FailureThreshold (CircuitBreaker.config cb)
        <= wrap64 (CircuitBreaker.failureCount cb + 1)
  | CircuitClosed, CircuitHalfOpen => False
  | CircuitOpen, CircuitHalfOpen => c = CircuitBreaker.CallRecordSuccess
  | CircuitOpen, CircuitClosed => c = CircuitBreaker.CallReset
  | CircuitHalfOpen, CircuitOpen =>
      exists now, c = CircuitBreaker.CallRecordFailure now
  | CircuitHalfOpen, CircuitClosed =>
      c = CircuitBreaker.CallReset \/
      (c = CircuitBreaker.CallRecordSuccess /\
       ConsecutiveSuccesses (CircuitBreaker.config cb)
         <= wrap64 (CircuitBreaker.successCount cb + 1))
  end.
Proof.
  destruct c as [now r|now| | |]; simpl.
  - rewrite Allow_unchanged. destruct (CircuitBreaker.state cb); exact I.
  - unfold CircuitBreaker.RecordFailure.
    destruct (CircuitBreaker.state cb); simpl; try exact I.
    + destruct (Z.leb_spec (FailureThreshold (CircuitBreaker.config cb))
                  (wrap64 (CircuitBreaker.failureCount cb + 1))); simpl;
        [|exact I].
      split; [eexists; reflexivity | assumption].
    + eexists; reflexivity.
  - unfold CircuitBreaker.RecordSuccess.
    destruct (CircuitBreaker.state cb) eqn:Hst; simpl; try exact I;
      try reflexivity.
    destruct (Z.leb_spec (ConsecutiveSuccesses (CircuitBreaker.config cb))
                (wrap64 (CircuitBreaker.successCount cb + 1))); simpl.
    + right. split; [reflexivity | assumption].
    + exact I.
  - destruct (CircuitBreaker.state cb); try exact I; try reflexivity.
    left. reflexivity.
  - destruct (CircuitBreaker.state cb); exact I.
Qed.

(** The failure counter in every reachable state. *)
Lemma step_failures_ok cb c :
  FailureThreshold (CircuitBreaker.config cb) <= maxInt64 ->
  match CircuitBreaker.state cb with
  | CircuitClosed =>
      CircuitBreaker.failureCount cb = 0 \/
      0 < CircuitBreaker.failureCount cb
        < FailureThreshold (CircuitBreaker.config cb)
  | CircuitOpen => True
  | CircuitHalfOpen => CircuitBreaker.failureCount cb = 0
  end ->
  match CircuitBreaker.state (CircuitBreaker.step cb c) with
  | CircuitClosed =>
      CircuitBreaker.failureCount (CircuitBreaker.step cb c) = 0 \/
      0 < CircuitBreaker.failureCount (CircuitBreaker.step cb c)
        < FailureThreshold (CircuitBreaker.config cb)
  | CircuitOpen => True
  | CircuitHalfOpen => CircuitBreaker.failureCount (CircuitBreaker.step cb c) = 0
  end.
Proof.
  intros Hmax Hok. destruct c as [now r|now| | |]; simpl.
  - rewrite Allow_unchanged. exact Hok.
  - unfold CircuitBreaker.RecordFailure.
    destruct (CircuitBreaker.state cb); simpl; try exact I.
    assert (Hw : wrap64 (CircuitBreaker.failureCount cb + 1)
                 = CircuitBreaker.failureCount cb + 1).
    { apply wrap64_succ. unfold minInt64, maxInt64 in *. lia. }
    rewrite Hw.
    destruct (Z.leb_spec (FailureThreshold (CircuitBreaker.config cb))
                (CircuitBreaker.failureCount cb + 1)); simpl; [exact I|].
    right. lia.
  - unfold CircuitBreaker.RecordSuccess.
    destruct (CircuitBreaker.state cb) eqn:Hst; simpl.
    + left. reflexivity.
    + reflexivity.
    + destruct (_ <=? _); simpl; [left; reflexivity | reflexivity].
  - left. reflexivity.
  - exact Hok.
Qed.

(** X12. In every state a breaker can reach: while closed the failure
    counter is below the threshold (or 0); while open the success counter
    is 0; while half-open the failure counter is 0 and at least one
    success has been counted. *)
Theorem breaker_invariants (cfg : CircuitBreakerConfig) (cb : CircuitBreaker.t) :
  in_int64 (FailureThreshold cfg) ->
  in_int64 (ConsecutiveSuccesses cfg) ->
  CircuitBreaker.reachable cfg cb ->
  CircuitBreaker.config cb = cfg /\
  match CircuitBreaker.state cb with
  | CircuitClosed =>
      CircuitBreaker.failureCount cb = 0 \/
      0 < CircuitBreaker.failureCount cb < FailureThreshold cfg
  | CircuitOpen => CircuitBreaker.successCount cb = 0
  | CircuitHalfOpen =>
      CircuitBreaker.failureCount cb = 0 /\ 1 <= CircuitBreaker.successCount cb
  end.
Proof.
  intros HN HK Hreach.
  destruct (reachable_counters_ok cfg cb HK Hreach) as [Hcfg Hok].
  split; [exact Hcfg|].
  assert (Hfail :
    match CircuitBreaker.state cb with
    | CircuitClosed =>
        CircuitBreaker.failureCount cb = 0 \/
        0 < CircuitBreaker.failureCount cb
          < FailureThreshold (CircuitBreaker.config cb)
    | CircuitOpen => True
    | CircuitHalfOpen => CircuitBreaker.failureCount cb = 0
    end).
  { clear Hok Hcfg. induction Hreach as [|cb c Hreach IH].
    - left. reflexivity.
    - assert (Hc : CircuitBreaker.config cb = cfg)
        by apply (reachable_counters_ok cfg cb HK Hreach).
      rewrite step_config.
      apply step_failures_ok; [rewrite Hc; apply HN | exact IH]. }
  unfold counters_ok in Hok. rewrite Hcfg in Hfail.
  destruct (CircuitBreaker.state cb).
  - exact Hfail.
  - exact Hok.
  - split; [exact Hfail | apply Hok].
Qed.

Lemma breaker_invariants_witness :
  let cfg := CircuitBreaker_cfg DefaultReliabilityConfig in
  let cb := CircuitBreaker.run (CircuitBreaker.New cfg)
              (CircuitBreaker.failures [1; 2; 3; 4; 5]
               ++ [CircuitBreaker.CallRecordSuccess]) in
  CircuitBreaker.failureCount cb = 0 /\ 1 <= CircuitBreaker.successCount cb.
Proof.
  intros cfg cb.
  destruct (breaker_invariants cfg cb) as [_ Hinv].
  - unfold in_int64, minInt64, maxInt64. simpl. lia.
  - unfold in_int64, minInt64, maxInt64. simpl. lia.
  - apply reachable_run.
  - exact Hinv.
Defined.

(** X13. Failures count only while they are consecutive: from a closed
    breaker with counter 0, any number of rounds, each made of fewer
    failures than the threshold followed by one success, leaves the
    breaker closed with counter 0. *)
Theorem breaker_needs_consecutive (cb : CircuitBreaker.t)
        (rounds : list (list Time)) :
  CircuitBreaker.state cb = CircuitClosed ->
  CircuitBreaker.failureCount cb = 0 ->
  FailureThreshold (CircuitBreaker.config cb) <= maxInt64 ->
  Forall (fun times => Z.of_nat (length times)
                       < FailureThreshold (CircuitBreaker.config cb)) rounds ->
  let calls :=
    concat (map (fun times => CircuitBreaker.failures times
                              ++ [CircuitBreaker.CallRecordSuccess]) rounds) in
  CircuitBreaker.state (CircuitBreaker.run cb calls) = CircuitClosed /\
  CircuitBreaker.failureCount (CircuitBreaker.run cb calls) = 0.
Proof.
  intros Hst Hfc Hmax Hrounds. simpl.
  revert cb Hst Hfc Hmax Hrounds.
  induction rounds as [|times rounds IH]; intros cb Hst Hfc Hmax Hrounds.
  - split; assumption.
  - inversion Hrounds as [|? ? Hlen Hrest]; subst.
    cbn [map concat]. rewrite !run_app.
    destruct (failures_below_threshold times cb Hst) as [Hst1 _];
      [lia | lia | exact Hmax |].
    set (cb1 := CircuitBreaker.run cb (CircuitBreaker.failures times)) in *.
    change (CircuitBreaker.run cb1 [CircuitBreaker.CallRecordSuccess])
      with (CircuitBreaker.RecordSuccess cb1).
    assert (Hsucc : CircuitBreaker.RecordSuccess cb1
                    = {| CircuitBreaker.config := CircuitBreaker.config cb1;
                         CircuitBreaker.state := CircuitClosed;
                         CircuitBreaker.failureCount := 0;
                         CircuitBreaker.lastFailureTime :=
                           CircuitBreaker.lastFailureTime cb1;
                         CircuitBreaker.successCount :=
                           wrap64 (CircuitBreaker.successCount cb1 + 1) |}).
    { unfold CircuitBreaker.RecordSuccess. rewrite Hst1. reflexivity. }
    assert (Hcfg : CircuitBreaker.config (CircuitBreaker.RecordSuccess cb1)
                   = CircuitBreaker.config cb).
    { rewrite Hsucc. unfold cb1. simpl. apply run_config. }
    apply IH.
    + rewrite Hsucc. reflexivity.
    + rewrite Hsucc. reflexivity.
    + rewrite Hcfg. exact Hmax.
    + rewrite Hcfg. exact Hrest.
Qed.

Lemma breaker_needs_consecutive_witness :
  let cb := CircuitBreaker.New (CircuitBreaker_cfg DefaultReliabilityConfig) in
  let calls :=
    concat (map (fun times => CircuitBreaker.failures times
                              ++ [CircuitBreaker.CallRecordSuccess])
                [[1; 2; 3; 4]; [6; 7; 8; 9]; [11; 12; 13; 14]]) in
  CircuitBreaker.state (CircuitBreaker.run cb calls) = CircuitClosed /\
  CircuitBreaker.failureCount (CircuitBreaker.run cb calls) = 0.
Proof.
  intros cb.
  apply (breaker_needs_consecutive cb
           [[1; 2; 3; 4]; [6; 7; 8; 9]; [11; 12; 13; 14]]).
  - reflexivity.
  - reflexivity.
  - unfold maxInt64. simpl. lia.
  - repeat constructor; simpl; lia.
Defined.

(** X14. Every recorded failure restarts the recovery timeout: on a
    breaker that a [RecordFailure] at time [t] leaves open, [Allow] at a
    later time answers true exactly when the recovery timeout has passed
    since [t], whatever failures were recorded before. *)
Theorem failure_restarts_timeout (cb : CircuitBreaker.t) (t now : Time) (r : Q) :
  CircuitBreaker.state (CircuitBreaker.RecordFailure cb t) = CircuitOpen ->
  t <= now -> now - t <= maxInt64 ->
  snd (CircuitBreaker.Allow (CircuitBreaker.RecordFailure cb t) now r)
  = (RecoveryTimeout (CircuitBreaker.config cb) <=? now - t).
Proof.
  intros Hopen Hle Hrange. unfold CircuitBreaker.Allow. rewrite Hopen.
  unfold CircuitBreaker.shouldAttemptReset, CircuitBreaker.RecordFailure.
  cbn [snd CircuitBreaker.config CircuitBreaker.lastFailureTime].
  unfold Time_Sub, minInt64.
  destruct (Z.ltb_spec maxInt64 (now - t)); [lia|].
  destruct (Z.ltb_spec (now - t) (- 2 ^ 63)); [lia | reflexivity].
Qed.

Lemma failure_restarts_timeout_witness :
  let cb := CircuitBreaker.run
              (CircuitBreaker.New (CircuitBreaker_cfg DefaultReliabilityConfig))
              (CircuitBreaker.failures [1; 2; 3; 4; 5]) in
  snd (CircuitBreaker.Allow (CircuitBreaker.RecordFailure cb (50 * Second))
                            (61 * Second) 0) = false.
Proof.
  intros cb.
  rewrite (failure_restarts_timeout cb (50 * Second) (61 * Second) 0).
  - reflexivity.
  - reflexivity.
  - unfold Second. lia.
  - unfold Second, maxInt64. lia.
Defined.

(** ** Rate limiter, continued *)

Lemma Allow_answer rl now :
  let tokens1 :=
    math_Min
      (F64.add (RateLimiter.tokens rl)
         (F64.div
            (F64.mul (Duration_Seconds (Time_Sub now (RateLimiter.lastRefill rl)))
                     (F64.of_int (RequestsPerMinute (RateLimiter.config rl))))
            (F64.of_int 60)))
      (F64.of_int (BurstSize (RateLimiter.config rl))) in
  snd (RateLimiter.Allow rl now) = F64.leb F64.one tokens1 /\
  RateLimiter.tokens (fst (RateLimiter.Allow rl now))
  = if F64.leb F64.one tokens1 then F64.sub tokens1 F64.one else tokens1.
Proof.
  unfold RateLimiter.Allow. cbv zeta.
  destruct (F64.leb _ _); split; reflexivity.
Qed.

(** No time, no refill: at the instant of the last call the bucket
    receives a zero. *)
Lemma refill_same_instant (t : Time) (rate : Z) :
  in_int64 rate ->
  exists s, F64.div (F64.mul (Duration_Seconds (Time_Sub t t)) (F64.of_int rate))
                    (F64.of_int 60) = S754_zero s.
Proof.
  intros Hr.
  replace (Time_Sub t t) with 0
    by (unfold Time_Sub; rewrite Z.sub_diag; reflexivity).
  change (Duration_Seconds 0) with F64.zero.
  assert (Hf : F64.is_finite (F64.of_int rate) = true)
    by (apply of_int_finite; unfold in_int64, minInt64, maxInt64 in Hr; lia).
  destruct (F64.of_int rate) as [s|s| |s m e]; try discriminate Hf.
  - exists s. destruct s; reflexivity.
  - exists s. destruct s; reflexivity.
Qed.

Lemma of_int_cases (n : Z) :
  0 <= n <= 2 ^ 53 ->
  (n = 0 /\ F64.of_int n = F64.zero) \/
  (0 < n /\ exists m e, F64.of_int n = S754_finite false m e
                        /\ bounded 53 1024 m e = true
                        /\ Zpos m * 2 ^ (e - F64.E0) = n * F64.U).
Proof.
  intros Hn. destruct (Z.eq_dec n 0) as [->|Hne].
  - left. split; reflexivity.
  - right. split; [lia|].
    destruct (of_int_ge_one n) as (m & e & E & Hb & _).
    { change (2 ^ 63) with (1024 * 2 ^ 53). lia. }
    exists m, e. split; [exact E|]. split; [exact Hb|].
    rewrite <- (of_int_scaled n) by lia. rewrite E. reflexivity.
Qed.

Lemma add_zero_r (n : Z) (s : bool) :
  0 <= n <= 2 ^ 53 -> F64.add (F64.of_int n) (S754_zero s) = F64.of_int n.
Proof.
  intros Hn.
  destruct (of_int_cases n Hn) as [[_ ->]|(_ & m & e & -> & _)].
  - destruct s; reflexivity.
  - reflexivity.
Qed.

Lemma math_Min_of_int (a b : Z) :
  0 <= a <= b -> b <= 2 ^ 53 ->
  math_Min (F64.of_int a) (F64.of_int b) = F64.of_int a.
Proof.
  intros Hab Hb. pose proof U_pos as HU.
  destruct (of_int_cases a ltac:(lia)) as [[Ha Ea]|(Ha & ma & ea & Ea & Hba & Hsa)];
    destruct (of_int_cases b ltac:(lia)) as [[Hb0 Eb]|(Hb0 & mb & eb & Eb & Hbb & Hsb)];
    rewrite Ea, Eb; try lia; try reflexivity.
  unfold math_Min.
  change (F64.IsInf_neg _ || F64.IsInf_neg _) with false.
  change (F64.IsNaN _ || F64.IsNaN _) with false.
  change (F64.eqb (S754_finite false ma ea) F64.zero) with false.
  cbv iota. cbn [andb].
  rewrite ltb_scaled by (try reflexivity; assumption).
  cbn [F64.scaled cond_Zopp]. rewrite Hsa, Hsb.
  destruct (Z.ltb_spec (a * F64.U) (b * F64.U)) as [Hlt|Hge]; [reflexivity|].
  assert (a = b) by nia. subst b.
  apply scaled_inj; try assumption. lia.
Qed.

Lemma leb_one_of_int (n : Z) :
  0 <= n <= 2 ^ 53 -> F64.leb F64.one (F64.of_int n) = (1 <=? n).
Proof.
  intros Hn. pose proof U_pos as HU.
  rewrite leb_scaled; try reflexivity.
  - rewrite of_int_scaled by lia.
    change (F64.scaled F64.one) with F64.U.
    destruct (Z.leb_spec F64.U (n * F64.U)), (Z.leb_spec 1 n); try reflexivity; nia.
  - apply of_int_valid.
  - apply of_int_finite. change (2 ^ 63) with (1024 * 2 ^ 53). lia.
Qed.

Lemma sub_one_of_int (n : Z) :
  1 <= n <= 2 ^ 53 -> F64.sub (F64.of_int n) F64.one = F64.of_int (n - 1).
Proof.
  intros Hn.
  destruct (of_int_cases n ltac:(lia)) as [[H0 _]|(_ & m & e & E & Hb & Hs)]; [lia|].
  destruct (bounded_inv m e Hb) as (_ & He & _).
  rewrite E. unfold F64.one.
  rewrite sub_finite by (unfold F64.E0; lia).
  fold F64.one. change (F64.scaled F64.one) with F64.U.
  cbn [F64.scaled cond_Zopp]. rewrite Hs.
  rewrite of_int_round. change (2 ^ (- F64.E0)) with F64.U.
  f_equal. ring.
Qed.

Lemma answers_same_instant (k : nat) : forall (rl : RateLimiter.t) (j : Z),
  BurstSize (RateLimiter.config rl) <= 2 ^ 53 ->
  in_int64 (RequestsPerMinute (RateLimiter.config rl)) ->
  0 <= j <= BurstSize (RateLimiter.config rl) ->
  RateLimiter.tokens rl = F64.of_int (BurstSize (RateLimiter.config rl) - j) ->
  let left := Z.to_nat (BurstSize (RateLimiter.config rl) - j) in
  RateLimiter.answers rl (replicate k (RateLimiter.lastRefill rl))
  = replicate (k `min` left) true ++ replicate (k - left) false.
Proof.
  induction k as [|k IH]; intros rl j Hmax Hrate Hj Htok left; [reflexivity|].
  cbn [replicate RateLimiter.answers].
  destruct (RateLimiter.Allow rl (RateLimiter.lastRefill rl))
    as [rl' allowed] eqn:HA.
  destruct (Allow_answer rl (RateLimiter.lastRefill rl)) as [Hans Htok'].
  assert (Hcfg := Allow_config rl (RateLimiter.lastRefill rl)).
  assert (Hlast := Allow_lastRefill rl (RateLimiter.lastRefill rl)).
  rewrite HA in Hans, Htok', Hcfg, Hlast. cbn [fst snd] in *.
  set (B := BurstSize (RateLimiter.config rl)) in *.
  destruct (refill_same_instant (RateLimiter.lastRefill rl) _ Hrate) as [s Hre].
  rewrite Hre, Htok, add_zero_r, math_Min_of_int, leb_one_of_int
    in Hans, Htok' by lia.
  rewrite <- Hlast at 1.
  destruct (Z.leb_spec 1 (B - j)) as [Hone|Hnone]; subst allowed.
  - rewrite (IH rl' (j + 1)).
    + rewrite Hcfg. fold B.
      replace (Z.to_nat (B - (j + 1))) with (left - 1)%nat by (unfold left; lia).
      assert (1 <= left)%nat by (unfold left; lia).
      replace (S k `min` left)%nat with (S (k `min` (left - 1))) by lia.
      replace (S k - left)%nat with (k - (left - 1))%nat by lia.
      reflexivity.
    + rewrite Hcfg. exact Hmax.
    + rewrite Hcfg. exact Hrate.
    + rewrite Hcfg. fold B. lia.
    + rewrite Hcfg, Htok'. fold B. rewrite sub_one_of_int by lia.
      f_equal. lia.
  - rewrite (IH rl' j).
    + rewrite Hcfg. fold B. fold left.
      assert (left = 0)%nat as -> by (unfold left; lia).
      rewrite !Nat.min_0_r, !Nat.sub_0_r. reflexivity.
    + rewrite Hcfg. exact Hmax.
    + rewrite Hcfg. exact Hrate.
    + rewrite Hcfg. fold B. exact Hj.
    + rewrite Hcfg, Htok'. fold B. reflexivity.
Qed.

(** X15. A new limiter whose burst size is at most [2 ^ 53], so that it
    is a binary64 number, asked [k] times at the instant of its creation
    allows the first [BurstSize] calls and denies the others, whatever
    the configured rate. *)
Theorem limiter_burst (cfg : RateLimitConfig) (t0 : Time) (k : nat) :
  0 <= BurstSize cfg <= 2 ^ 53 ->
  in_int64 (RequestsPerMinute cfg) ->
  RateLimiter.answers (RateLimiter.New cfg t0) (replicate k t0)
  = replicate (k `min` Z.to_nat (BurstSize cfg)) true
    ++ replicate (k - Z.to_nat (BurstSize cfg)) false.
Proof.
  intros Hburst Hrate.
  assert (H := answers_same_instant k (RateLimiter.New cfg t0) 0).
  cbn [RateLimiter.New RateLimiter.config RateLimiter.lastRefill
       RateLimiter.tokens] in H.
  rewrite Z.sub_0_r in H. apply H; [lia | exact Hrate | lia | reflexivity].
Qed.

Lemma limiter_burst_witness :
  RateLimiter.answers
    (RateLimiter.New (RateLimit DefaultReliabilityConfig) 7) (replicate 12 7)
  = replicate 10 true ++ replicate 2 false.
Proof.
  apply (limiter_burst (RateLimit DefaultReliabilityConfig) 7 12).
  - simpl. lia.
  - unfold in_int64, minInt64, maxInt64. simpl. lia.
Defined.

(** The sum of a number and a refill is not below the number. *)
Lemma add_ge_l (x y : F64.t) :
  nnf x -> nnw y ->
  F64.add x y = S754_infinity false \/
  (F64.is_finite (F64.add x y) = true /\ F64.scaled x <= F64.scaled (F64.add x y)).
Proof.
  intros Hx [->|Hy].
  - left. destruct x as [s|s| |s m e]; try reflexivity;
      destruct Hx as (_ & Hf & _); discriminate.
  - destruct (nnf_cases x Hx) as [(sx & ->)|(mx & ex & -> & Hbx & Hpx)];
    destruct (nnf_cases y Hy) as [(sy & ->)|(my & ey & -> & Hby & Hpy)].
    + right. destruct sx, sy; split; simpl; try reflexivity; lia.
    + right. split; [reflexivity|]. cbn [F64.add SFadd F64.scaled cond_Zopp] in *. lia.
    + right. split; [reflexivity|]. cbn [F64.add SFadd]. lia.
    + destruct (bounded_inv mx ex Hbx) as (_ & ? & _).
      destruct (bounded_inv my ey Hby) as (_ & ? & _).
      rewrite add_finite by (unfold F64.E0; lia).
      rewrite round_signed_pos by lia.
      cbn [F64.scaled cond_Zopp] in *.
      apply rnd_ge; [lia | exact Hbx | lia].
Qed.

(** X16. A bucket that holds at least one token allows the next call:
    with a burst size of at least 1, a rate that is not negative and a
    clock that did not go back, the refill does not lower the count, so
    that only allowed calls take tokens out of the bucket. *)
Theorem limiter_token_allows (rl : RateLimiter.t) (now : Time) :
  1 <= BurstSize (RateLimiter.config rl) <= maxInt64 ->
  0 <= RequestsPerMinute (RateLimiter.config rl) <= maxInt64 ->
  RateLimiter.lastRefill rl <= now ->
  RateLimiter.within_capacity rl ->
  F64.leb F64.one (RateLimiter.tokens rl) = true ->
  snd (RateLimiter.Allow rl now) = true.
Proof.
  intros HB HR Hnow Hin Hone. pose proof U_pos as HU.
  apply within_capacity_iff in Hin as [Ht Hcap].
  assert (Htok : F64.U <= F64.scaled (RateLimiter.tokens rl)).
  { destruct Ht as (Hv & Hf & _).
    rewrite leb_scaled in Hone by (try reflexivity; assumption).
    apply Z.leb_le in Hone. exact Hone. }
  assert (Hel : 0 <= Time_Sub now (RateLimiter.lastRefill rl) <= maxInt64).
  { unfold Time_Sub, maxInt64, minInt64.
    destruct (Z.ltb_spec (2 ^ 63 - 1) (now - RateLimiter.lastRefill rl)); [lia|].
    destruct (Z.ltb_spec (now - RateLimiter.lastRefill rl) (- 2 ^ 63)); lia. }
  pose proof (Duration_Seconds_nnf _ Hel) as Hsecs.
  assert (Hrate : nnf (F64.of_int (RequestsPerMinute (RateLimiter.config rl))))
    by (apply of_int_nnf; unfold maxInt64 in HR; lia).
  pose proof (mul_nnw _ _ Hsecs Hrate) as Hmul.
  assert (Hadd : nnw (F64.div
                        (F64.mul (Duration_Seconds
                                    (Time_Sub now (RateLimiter.lastRefill rl)))
                                 (F64.of_int (RequestsPerMinute (RateLimiter.config rl))))
                        (F64.of_int 60))).
  { change (F64.of_int 60) with (S754_finite false 8444249301319680 (-47)).
    apply div_nnw. exact Hmul. }
  destruct (of_int_ge_one (BurstSize (RateLimiter.config rl))
              ltac:(unfold maxInt64 in HB; lia)) as (mb & eb & EB & Hbb & HBone).
  pose proof (add_nnw _ _ Ht Hadd) as Hsum.
  pose proof (add_ge_l _ _ Ht Hadd) as Hge.
  destruct (Allow_answer rl now) as [-> _].
  set (sum := F64.add (RateLimiter.tokens rl) _) in *.
  rewrite EB.
  destruct (math_Min_cap sum mb eb Hsum Hbb) as ((Hv1 & Hf1 & _) & _ & Hmin).
  rewrite leb_scaled by (try reflexivity; assumption).
  change (F64.scaled F64.one) with F64.U. apply Z.leb_le.
  destruct Hge as [Hinf|[Hfin Hge]].
  - rewrite Hinf. change (math_Min (S754_infinity false) (S754_finite false mb eb))
      with (S754_finite false mb eb).
    cbn [F64.scaled cond_Zopp]. exact HBone.
  - rewrite (Hmin Hfin). cbn [F64.scaled cond_Zopp] in *. lia.
Qed.

Lemma limiter_token_allows_witness :
  snd (RateLimiter.Allow
         (RateLimiter.New (RateLimit DefaultReliabilityConfig) 0) Second) = true.
Proof.
  apply (limiter_token_allows
           (RateLimiter.New (RateLimit DefaultReliabilityConfig) 0) Second).
  - unfold maxInt64. simpl. lia.
  - unfold maxInt64. simpl. lia.
  - simpl. unfold Second. lia.
  - apply New_within_capacity. unfold maxInt64. simpl. lia.
  - reflexivity.
Defined.

Lemma firstAfter_Some cutoff (l l' : list Z) :
  RateLimiter.firstAfter cutoff l = Some l' ->
  exists pre x rest, l = pre ++ l' /\ l' = x :: rest /\ cutoff < x.
Proof.
  revert l'. induction l as [|t l IH]; intros l'; simpl; [discriminate|].
  unfold Time_After. destruct (Z.ltb_spec cutoff t) as [Hlt|Hge].
  - intros [= <-]. exists [], t, l. repeat split. exact Hlt.
  - intros H. destruct (IH l' H) as (pre & x & rest & -> & -> & Hx).
    exists (t :: pre), x, rest. repeat split. exact Hx.
Qed.

Lemma firstAfter_None cutoff (l : list Z) :
  RateLimiter.firstAfter cutoff l = None -> Forall (fun t => t <= cutoff) l.
Proof.
  induction l as [|t l IH]; simpl; [constructor|].
  unfold Time_After. destruct (Z.ltb_spec cutoff t) as [Hlt|Hge]; [discriminate|].
  intros H. constructor; [exact Hge | apply IH, H].
Qed.

Lemma cleanOld_window (now : Time) (l : list Z) :
  StronglySorted Z.le l -> Forall (fun t => t <= now) l ->
  let l' := RateLimiter.cleanOld (Time_Add now (- Minute)) (l ++ [now]) in
  StronglySorted Z.le l' /\ Forall (fun t => now - Minute < t <= now) l'.
Proof.
  intros Hsorted Hle. cbv zeta. unfold RateLimiter.cleanOld, Time_Add.
  assert (Hsorted1 : StronglySorted Z.le (l ++ [now])).
  { apply StronglySorted_app_2; [|exact Hsorted | repeat constructor].
    intros x1 x2 H1 H2. apply list_elem_of_singleton in H2 as ->.
    apply (proj1 (Forall_forall _ _) Hle x1 H1). }
  assert (Hle1 : Forall (fun t => t <= now) (l ++ [now])).
  { apply Forall_app. split; [exact Hle | repeat constructor; lia]. }
  destruct (RateLimiter.firstAfter (now + - Minute) (l ++ [now])) as [l'|] eqn:Hf.
  - destruct (firstAfter_Some _ _ _ Hf) as (pre & x & rest & Heq & -> & Hx).
    rewrite Heq in Hsorted1, Hle1.
    apply StronglySorted_app_1_r in Hsorted1.
    apply Forall_app in Hle1 as [_ Hle1].
    split; [exact Hsorted1|].
    inversion Hsorted1 as [|? ? Hs Hall]; subst.
    inversion Hle1 as [|? ? Hx1 Hrest1]; subst.
    constructor; [lia|].
    apply Forall_forall. intros y Hy.
    assert (x <= y) by apply (proj1 (Forall_forall _ _) Hall y Hy).
    assert (y <= now) by apply (proj1 (Forall_forall _ _) Hrest1 y Hy).
    lia.
  - exfalso. apply firstAfter_None in Hf.
    apply Forall_app in Hf as [_ Hf].
    inversion Hf as [|? ? Hbad _]. unfold Minute, Second in Hbad. lia.
Qed.

Lemma Allow_request_window rl now :
  RateLimiter.lastRefill rl <= now ->
  request_window rl -> request_window (fst (RateLimiter.Allow rl now)).
Proof.
  intros Hclock (Hsorted & Hle & latest & Hwin).
  unfold request_window. rewrite Allow_lastRefill.
  unfold RateLimiter.Allow. destruct (F64.leb _ _); cbn [fst RateLimiter.requestTimes].
  - destruct (cleanOld_window now (RateLimiter.requestTimes rl)) as [Hs Hw].
    + exact Hsorted.
    + eapply Forall_impl; [exact Hle|]. simpl. intros; lia.
    + split; [exact Hs|]. split.
      * eapply Forall_impl; [exact Hw|]. simpl. intros; lia.
      * exists now. exact Hw.
  - split; [exact Hsorted|]. split.
    + eapply Forall_impl; [exact Hle|]. simpl. intros; lia.
    + exists latest. exact Hwin.
Qed.

(** X18. With a clock that never goes back, the request times the
    limiter keeps (what [GetMetrics] counts as requests per minute) are
    in the order of the calls, and all of them lie within one minute
    before the latest of them. *)
Theorem limiter_request_window (cfg : RateLimitConfig) (t0 : Time)
        (times : list Time) :
  nondecreasing (t0 :: times) ->
  request_window (RateLimiter.run (RateLimiter.New cfg t0) times).
Proof.
  intros Hmono.
  assert (Hgen : forall rl, nondecreasing (RateLimiter.lastRefill rl :: times) ->
                            request_window rl ->
                            request_window (RateLimiter.run rl times)).
  { clear. induction times as [|now times IH]; intros rl Hmono Hw; [exact Hw|].
    destruct Hmono as [Hfirst Hrest].
    unfold RateLimiter.run. cbn [fold_left].
    apply IH.
    - rewrite Allow_lastRefill. exact Hrest.
    - apply Allow_request_window; assumption. }
  apply Hgen; [exact Hmono|].
  repeat split; try constructor. exists t0. constructor.
Qed.

Lemma limiter_request_window_witness :
  request_window
    (RateLimiter.run (RateLimiter.New (RateLimit DefaultReliabilityConfig) 0)
                     [0; Second; 59 * Second; 61 * Second]).
Proof.
  apply (limiter_request_window (RateLimit DefaultReliabilityConfig) 0
           [0; Second; 59 * Second; 61 * Second]).
  simpl. unfold Second. lia.
Defined.

(** ** Monitor, continued *)

Lemma monitor_step_counts m c n :
  0 <= n < maxInt64 -> counts_ok m n -> counts_ok (monitor_step m c) (n + 1).
Proof.
  intros Hn (Hs & Hf & Hr & Htot & Hle & Hretry).
  assert (Hw : forall z, 0 <= z <= n -> wrap64 (z + 1) = z + 1).
  { intros z Hz. apply wrap64_succ. unfold minInt64. lia. }
  destruct c as [[d now|d now]| |]; unfold counts_ok; simpl;
    rewrite ?Hw by lia; repeat split; try tauto; lia.
Qed.

Lemma monitor_run_counts cfg (cs : list monitor_call) :
  Z.of_nat (length cs) <= maxInt64 ->
  counts_ok (monitor_run (Monitor.New cfg) cs) (Z.of_nat (length cs)).
Proof.
  induction cs as [|c cs IH] using rev_ind; intros Hlen.
  - unfold counts_ok. simpl. repeat split; lia.
  - unfold monitor_run in *. rewrite fold_left_app. simpl.
    rewrite length_app in *. simpl in *.
    replace (Z.of_nat (length cs + 1)) with (Z.of_nat (length cs) + 1) by lia.
    apply monitor_step_counts; [lia | apply IH; lia].
Qed.

(** X19. The metrics of a monitor that has served fewer than [2^63]
    calls: the total is the sum of the successful, failed and
    rate-limited requests; the error rate lies in [[0, 1]]; and the retry
    counters, the retry success rate and the count of circuit breaker
    trips are 0, since no method of the monitor ever changes them. *)
Theorem metrics_counters (cfg : MonitoringConfig) (cs : list monitor_call)
        (cb : CircuitBreaker.t) (rl : RateLimiter.t) :
  Z.of_nat (length cs) <= maxInt64 ->
  let mt := Monitor.GetMetrics (monitor_run (Monitor.New cfg) cs) cb rl in
  TotalRequests mt
    = SuccessfulRequests mt + FailedRequests mt + RateLimitedRequests mt /\
  (0 <= ErrorRate mt <= 1)%Q /\
  TotalRetries mt = 0 /\ SuccessfulRetries mt = 0 /\ FailedRetries mt = 0 /\
  (RetrySuccessRate mt == 0)%Q /\ CircuitBreakerTrips mt = 0.
Proof.
  intros Hlen mt.
  destruct (monitor_run_counts cfg cs Hlen)
    as (Hs & Hf & Hr & Htot & Hle & Htr & Hsr & Hfr & Htrips).
  set (m := monitor_run (Monitor.New cfg) cs) in *.
  assert (Hmt : mt = Monitor.GetMetrics m cb rl) by reflexivity.
  unfold Monitor.GetMetrics in Hmt.
  destruct (match Monitor.responseTimes m with
            | [] => (0, 0, 0, 0)
            | first :: _ => _
            end) as [[[avg p95] fastest] slowest].
  rewrite Hmt. cbn [TotalRequests SuccessfulRequests FailedRequests
                    RateLimitedRequests ErrorRate TotalRetries
                    SuccessfulRetries FailedRetries RetrySuccessRate
                    CircuitBreakerTrips].
  rewrite Htr. cbn [Z.ltb Z.compare].
  repeat split; try assumption; try reflexivity.
  - destruct (Z.ltb_spec 0 (Monitor.totalRequests m)); [|apply Qle_refl].
    unfold Monitor.ratio.
    destruct (Monitor.totalRequests m) as [|p|p]; try lia.
    unfold Qle, Qdiv, Qmult, Qinv, inject_Z. simpl. lia.
  - destruct (Z.ltb_spec 0 (Monitor.totalRequests m));
      [|unfold Qle; simpl; lia].
    unfold Monitor.ratio.
    destruct (Monitor.totalRequests m) as [|p|p] eqn:Hp; try lia.
    unfold Qle, Qdiv, Qmult, Qinv, inject_Z. simpl. lia.
Qed.

Lemma metrics_counters_witness :
  let cs := [MonitorRecord (Monitor.Success 5 1); MonitorRateLimited;
             MonitorRecord (Monitor.Failure 7 2)] in
  let mt := Monitor.GetMetrics
              (monitor_run (Monitor.New (Monitoring DefaultReliabilityConfig)) cs)
              (CircuitBreaker.New (CircuitBreaker_cfg DefaultReliabilityConfig))
              (RateLimiter.New (RateLimit DefaultReliabilityConfig) 0) in
  TotalRequests mt = 3 /\ (ErrorRate mt <= 1)%Q /\ CircuitBreakerTrips mt = 0.
Proof.
  intros cs mt.
  destruct (metrics_counters (Monitoring DefaultReliabilityConfig) cs
              (CircuitBreaker.New (CircuitBreaker_cfg DefaultReliabilityConfig))
              (RateLimiter.New (RateLimit DefaultReliabilityConfig) 0))
    as (Htot & [_ Hrate] & _ & _ & _ & _ & Htrips).
  - unfold maxInt64. simpl. lia.
  - split; [reflexivity|]. split; [exact Hrate | exact Htrips].
Defined.

Lemma scan_extremes (l : list Z) : forall total fastest slowest,
  let '(_, lo, hi) := fold_left Monitor.scan l (total, fastest, slowest) in
  (lo = fastest \/ lo ∈ l) /\ lo <= fastest /\ Forall (Z.le lo) l /\
  (hi = slowest \/ hi ∈ l) /\ slowest <= hi /\ Forall (fun x => x <= hi) l.
Proof.
  induction l as [|x l IH]; intros total fastest slowest.
  - simpl. repeat split; try (left; reflexivity); try lia; constructor.
  - cbn [fold_left Monitor.scan].
    specialize (IH (wrap64 (total + x))
                   (if x <? fastest then x else fastest)
                   (if slowest <? x then x else slowest)).
    destruct (fold_left Monitor.scan l _) as [[T lo] hi].
    destruct IH as (HF & HFle & HFall & HS & HSle & HSall).
    destruct (Z.ltb_spec x fastest), (Z.ltb_spec slowest x);
      repeat split;
      try (constructor; [lia | assumption]);
      try lia;
      try (destruct HF as [->|HF];
           [(left; reflexivity) || (right; apply list_elem_of_here)
           | right; apply list_elem_of_further, HF]);
      try (destruct HS as [->|HS];
           [(left; reflexivity) || (right; apply list_elem_of_here)
           | right; apply list_elem_of_further, HS]).
Qed.

(** X20. For a monitor that holds samples, [FastestResponse] and
    [SlowestResponse] are the smallest and the largest sample, and when
    at least 20 samples are held [P95ResponseTime] is one of them, so it
    lies between the two. *)
Theorem response_time_extremes (m : Monitor.t) (cb : CircuitBreaker.t)
        (rl : RateLimiter.t) :
  Monitor.responseTimes m <> [] ->
  let mt := Monitor.GetMetrics m cb rl in
  FastestResponse mt ∈ Monitor.responseTimes m /\
  SlowestResponse mt ∈ Monitor.responseTimes m /\
  Forall (fun x => FastestResponse mt <= x <= SlowestResponse mt)
         (Monitor.responseTimes m) /\
  ((20 <= length (Monitor.responseTimes m))%nat ->
   P95ResponseTime mt ∈ Monitor.responseTimes m).
Proof.
  intros Hne mt.
  assert (HP := GetMetrics_P95 m cb rl). fold mt in HP.
  assert (Hmt : mt = Monitor.GetMetrics m cb rl) by reflexivity.
  unfold Monitor.GetMetrics in Hmt.
  destruct (Monitor.responseTimes m) as [|first rest] eqn:Hrts;
    [contradiction|].
  assert (Hscan := scan_extremes (first :: rest) 0 first first).
  destruct (fold_left Monitor.scan (first :: rest) (0, first, first))
    as [[total fastest] slowest].
  destruct Hscan as (HF & _ & HFall & HS & _ & HSall).
  assert (Hfast : FastestResponse mt = fastest) by (rewrite Hmt; reflexivity).
  assert (Hslow : SlowestResponse mt = slowest) by (rewrite Hmt; reflexivity).
  rewrite Hfast, Hslow. clear Hmt.
  split; [|split; [|split]].
  - destruct HF as [->|HF]; [apply list_elem_of_here | exact HF].
  - destruct HS as [->|HS]; [apply list_elem_of_here | exact HS].
  - apply Forall_forall. intros x Hx. split.
    + apply (proj1 (Forall_forall _ _) HFall x Hx).
    + apply (proj1 (Forall_forall _ _) HSall x Hx).
  - intros Hn. rewrite HP.
    destruct (Nat.leb_spec 20 (length (first :: rest))); [|lia].
    assert (Hin : nth (Monitor.p95Index (length (first :: rest)))
                      (Monitor.sortCopy (first :: rest)) 0
                  ∈ Monitor.sortCopy (first :: rest)).
    { apply list_elem_of_In, nth_In.
      rewrite (Permutation_length (sortCopy_Permutation (first :: rest))).
      rewrite p95Index_floor.
      apply Nat.Div0.div_lt_upper_bound. simpl length in *. lia. }
    remember (nth (Monitor.p95Index (length (first :: rest)))
                  (Monitor.sortCopy (first :: rest)) 0) as x.
    rewrite (sortCopy_Permutation (first :: rest)) in Hin. exact Hin.
Qed.

Lemma response_time_extremes_witness :
  let m := Monitor.run (Monitor.New (Monitoring DefaultReliabilityConfig))
             [Monitor.Success 30 1; Monitor.Failure 10 2; Monitor.Success 20 3] in
  let mt := Monitor.GetMetrics m
              (CircuitBreaker.New (CircuitBreaker_cfg DefaultReliabilityConfig))
              (RateLimiter.New (RateLimit DefaultReliabilityConfig) 0) in
  Forall (fun x => FastestResponse mt <= x <= SlowestResponse mt) [30; 10; 20].
Proof.
  intros m mt.
  destruct (response_time_extremes m
              (CircuitBreaker.New (CircuitBreaker_cfg DefaultReliabilityConfig))
              (RateLimiter.New (RateLimit DefaultReliabilityConfig) 0))
    as (_ & _ & Hall & _).
  - discriminate.
  - exact Hall.
Defined.

(** X21. [RecordSuccess] appends the new sample and keeps the latest
    1000: what it retains is the end of the former samples followed by
    the new one, the oldest being dropped first. *)
Theorem RecordSuccess_keeps_latest (m : Monitor.t) (d : Duration) (now : Time) :
  let old := Monitor.responseTimes m ++ [d] in
  let new := Monitor.responseTimes (Monitor.RecordSuccess m d now) in
  new = drop (length old - 1000) old /\
  length new = (length old `min` 1000)%nat /\
  exists kept, new = kept ++ [d].
Proof.
  cbv zeta. cbn [Monitor.RecordSuccess Monitor.responseTimes].
  set (old := Monitor.responseTimes m ++ [d]).
  assert (Hnew : Monitor.keepRecent old = drop (length old - 1000) old).
  { unfold Monitor.keepRecent.
    destruct (Nat.ltb_spec 1000 (length old)); [reflexivity|].
    replace (length old - 1000)%nat with O by lia. reflexivity. }
  rewrite Hnew. split; [reflexivity|]. split.
  - rewrite length_drop. lia.
  - unfold old. rewrite length_app. simpl.
    exists (drop (length (Monitor.responseTimes m) + 1 - 1000)
                 (Monitor.responseTimes m)).
    rewrite drop_app_le by lia. reflexivity.
Qed.

Lemma scan_total (l : list Z) : forall total fastest slowest,
  0 <= total -> Forall (Z.le 0) l -> total + Zsum l <= maxInt64 ->
  fst (fst (fold_left Monitor.scan l (total, fastest, slowest)))
  = total + Zsum l.
Proof.
  induction l as [|x l IH]; intros total fastest slowest Ht Hpos Hsum.
  - simpl. lia.
  - inversion Hpos as [|? ? Hx Hrest]; subst.
    cbn [fold_left Monitor.scan Zsum fold_right] in *. fold (Zsum l) in *.
    assert (0 <= Zsum l).
    { clear -Hrest. induction Hrest; simpl; [lia|]. fold (Zsum l). lia. }
    rewrite wrap64_id by (unfold in_int64, minInt64; lia).
    rewrite IH; [lia | lia | exact Hrest | lia].
Qed.

Lemma Zsum_bounds (l : list Z) (lo hi : Z) :
  Forall (fun x => lo <= x <= hi) l ->
  Z.of_nat (length l) * lo <= Zsum l <= Z.of_nat (length l) * hi.
Proof.
  induction 1 as [|x l Hx _ IH]; [simpl; lia|].
  cbn [Zsum fold_right length]. fold (Zsum l). lia.
Qed.

(** X22. When no sample is negative and their sum fits in 64 bits,
    [AvgResponseTime] is the sum of the samples divided by their number,
    rounded down, and lies between [FastestResponse] and
    [SlowestResponse]. *)
Theorem average_response_time (m : Monitor.t) (cb : CircuitBreaker.t)
        (rl : RateLimiter.t) :
  Monitor.responseTimes m <> [] ->
  Forall (Z.le 0) (Monitor.responseTimes m) ->
  Zsum (Monitor.responseTimes m) <= maxInt64 ->
  let mt := Monitor.GetMetrics m cb rl in
  AvgResponseTime mt
    = Zsum (Monitor.responseTimes m)
      / Z.of_nat (length (Monitor.responseTimes m)) /\
  FastestResponse mt <= AvgResponseTime mt <= SlowestResponse mt.
Proof.
  intros Hne Hpos Hsum mt.
  assert (Hmt : mt = Monitor.GetMetrics m cb rl) by reflexivity.
  unfold Monitor.GetMetrics in Hmt.
  destruct (Monitor.responseTimes m) as [|first rest] eqn:Hrts;
    [contradiction|].
  assert (Hscan := scan_extremes (first :: rest) 0 first first).
  assert (Htot := scan_total (first :: rest) 0 first first
                             (Z.le_refl 0) Hpos Hsum).
  destruct (fold_left Monitor.scan (first :: rest) (0, first, first))
    as [[total fastest] slowest].
  destruct Hscan as (_ & _ & HFall & _ & _ & HSall).
  cbn [fst] in Htot. rewrite Z.add_0_l in Htot. subst total.
  assert (Havg : AvgResponseTime mt
                 = Z.quot (Zsum (first :: rest))
                          (Z.of_nat (length (first :: rest))))
    by (rewrite Hmt; reflexivity).
  assert (Hfast : FastestResponse mt = fastest) by (rewrite Hmt; reflexivity).
  assert (Hslow : SlowestResponse mt = slowest) by (rewrite Hmt; reflexivity).
  rewrite Havg, Hfast, Hslow. clear Hmt Havg Hfast Hslow.
  set (l := first :: rest) in *.
  assert (Hn : 0 < Z.of_nat (length l)) by (unfold l; simpl; lia).
  assert (Hs0 : 0 <= Zsum l).
  { clear -Hpos. induction Hpos; simpl; [lia|]. fold (Zsum l). lia. }
  rewrite Z.quot_div_nonneg by lia.
  split; [reflexivity|].
  assert (Hb : Z.of_nat (length l) * fastest <= Zsum l
               <= Z.of_nat (length l) * slowest).
  { apply Zsum_bounds. apply Forall_forall. intros x Hx. split.
    - apply (proj1 (Forall_forall _ _) HFall x Hx).
    - apply (proj1 (Forall_forall _ _) HSall x Hx). }
  split.
  - apply Z.div_le_lower_bound; lia.
  - apply Z.div_le_upper_bound; lia.
Qed.

Lemma average_response_time_witness :
  let m := Monitor.run (Monitor.New (Monitoring DefaultReliabilityConfig))
             [Monitor.Success 30 1; Monitor.Failure 10 2; Monitor.Success 21 3] in
  AvgResponseTime
    (Monitor.GetMetrics m
       (CircuitBreaker.New (CircuitBreaker_cfg DefaultReliabilityConfig))
       (RateLimiter.New (RateLimit DefaultReliabilityConfig) 0))
  = 20.
Proof.
  intros m.
  destruct (average_response_time m
              (CircuitBreaker.New (CircuitBreaker_cfg DefaultReliabilityConfig))
              (RateLimiter.New (RateLimit DefaultReliabilityConfig) 0))
    as [Havg _].
  - discriminate.
  - repeat constructor; lia.
  - unfold maxInt64. simpl. lia.
  - rewrite Havg. reflexivity.
Defined.

(** ** Health *)

(** X23. For a limiter whose burst size is in the range of an [int] and
    whose token count is within its bounds, the health status reports
    between 0 and [BurstSize] available tokens, reports the rate limit as
    exceeded exactly when it reports 0 available tokens, and reports the
    agent healthy only if the API connection is up, the breaker is not
    open and a token is available. *)
Theorem health_tokens (m : Monitor.t) (cb : CircuitBreaker.t)
        (rl : RateLimiter.t) (alloc goroutines : Z) (now1 now2 : Time) :
  BurstSize (RateLimiter.config rl) <= maxInt64 ->
  RateLimiter.within_bounds rl ->
  let h := GetHealthStatus m cb rl alloc goroutines now1 now2 in
  0 <= AvailableTokens h <= BurstSize (RateLimiter.config rl) /\
  (RateLimitExceeded h = true <-> AvailableTokens h = 0) /\
  (Overall h = true ->
   APIConnection h = true /\ CircuitBreaker.state cb <> CircuitOpen
   /\ 1 <= AvailableTokens h).
Proof.
  intros Hint (Hv & Hf & Hlo & Hhi) h. unfold h, GetHealthStatus.
  cbn [AvailableTokens RateLimitExceeded Overall APIConnection].
  pose proof U_pos as HU.
  apply value_nonneg in Hlo. apply value_le_int in Hhi.
  set (x := RateLimiter.tokens rl) in *.
  set (B := BurstSize (RateLimiter.config rl)) in *.
  assert (Hto : F64.to_int64 x = F64.scaled x / F64.U).
  { rewrite to_int64_nnf.
    - apply Z.quot_div_nonneg; lia.
    - repeat split; assumption.
    - nia. }
  assert (Hlt : F64.ltb x F64.one = (F64.scaled x <? F64.U)).
  { rewrite ltb_scaled by (try reflexivity; assumption). reflexivity. }
  rewrite Hto, Hlt.
  assert (Hq0 : 0 <= F64.scaled x / F64.U) by (apply Z.div_pos; lia).
  assert (HqB : F64.scaled x / F64.U <= B).
  { apply Z.div_le_upper_bound; lia. }
  assert (Hcases :
    (F64.scaled x < F64.U /\ F64.scaled x / F64.U = 0) \/
    (F64.U <= F64.scaled x /\ 1 <= F64.scaled x / F64.U)).
  { destruct (Z.lt_ge_cases (F64.scaled x) F64.U) as [H|H].
    - left. split; [exact H | apply Z.div_small; lia].
    - right. split; [exact H | apply Z.div_le_lower_bound; lia]. }
  split; [lia|]. split.
  - destruct (Z.ltb_spec (F64.scaled x) F64.U); split; intros; try lia;
      try reflexivity; try discriminate; destruct Hcases; lia.
  - intros H. apply andb_true_iff in H as [H Hrate].
    apply andb_true_iff in H as [Hapi Hopen].
    split; [exact Hapi|]. split.
    + intros Hst. rewrite Hst in Hopen. discriminate Hopen.
    + destruct (Z.ltb_spec (F64.scaled x) F64.U); [discriminate Hrate|].
      destruct Hcases; lia.
Qed.

Lemma health_tokens_witness :
  let rl := RateLimiter.run
              (RateLimiter.New (RateLimit DefaultReliabilityConfig) 0)
              (replicate 10 0) in
  let h := GetHealthStatus (Monitor.New (Monitoring DefaultReliabilityConfig))
             (CircuitBreaker.New (CircuitBreaker_cfg DefaultReliabilityConfig))
             rl 0 1 maxInt64 maxInt64 in
  RateLimitExceeded h = true <-> AvailableTokens h = 0.
Proof.
  intros rl h.
  apply (health_tokens (Monitor.New (Monitoring DefaultReliabilityConfig))
           (CircuitBreaker.New (CircuitBreaker_cfg DefaultReliabilityConfig))
           rl 0 1 maxInt64 maxInt64).
  - vm_compute. intros H. discriminate H.
  - split; [reflexivity|]. split; [reflexivity|].
    split; vm_compute; intros H; discriminate H.
Defined.

(** X24. A monitor that has recorded no success reports the API as
    disconnected, and with it the agent as unhealthy, at every clock
    reading of the present (more than [2^63] nanoseconds after the zero
    time).  A monitor whose last success is later than its last failure
    reports the API as connected. *)
Theorem health_api_connection (m : Monitor.t) (cb : CircuitBreaker.t)
        (rl : RateLimiter.t) (alloc goroutines : Z) (now1 now2 : Time) :
  let h := GetHealthStatus m cb rl alloc goroutines now1 now2 in
  (Monitor.lastAPISuccess m = 0 -> maxInt64 <= now1 ->
   APIConnection h = false /\ Overall h = false) /\
  (Monitor.lastAPIFailure m < Monitor.lastAPISuccess m ->
   Monitor.lastAPISuccess m <= now1 <= now2 ->
   now1 - Monitor.lastAPISuccess m < maxInt64 ->
   APIConnection h = true).
Proof.
  intros h. unfold h, GetHealthStatus. cbn [APIConnection Overall].
  split.
  - intros Hnever Hnow. rewrite Hnever.
    assert (Hs : Time_Sub now1 0 = maxInt64).
    { unfold Time_Sub, maxInt64, minInt64 in *. repeat case_match; lia. }
    assert (Hf : Time_Sub now2 (Monitor.lastAPIFailure m) <= maxInt64).
    { unfold Time_Sub, maxInt64, minInt64. repeat case_match; lia. }
    rewrite Hs.
    destruct (Z.ltb_spec maxInt64 (Time_Sub now2 (Monitor.lastAPIFailure m)));
      [lia|]. split; reflexivity.
  - intros Hlater Hclock Hrange. apply Z.ltb_lt.
    unfold Time_Sub, maxInt64, minInt64 in *. repeat case_match; lia.
Qed.

Lemma health_api_connection_witness :
  let now := 2 ^ 66 in
  let h0 := GetHealthStatus (Monitor.New (Monitoring DefaultReliabilityConfig))
              (CircuitBreaker.New (CircuitBreaker_cfg DefaultReliabilityConfig))
              (RateLimiter.New (RateLimit DefaultReliabilityConfig) now)
              0 1 now now in
  let m := Monitor.RecordSuccess
             (Monitor.New (Monitoring DefaultReliabilityConfig)) 5 now in
  let h1 := GetHealthStatus m
              (CircuitBreaker.New (CircuitBreaker_cfg DefaultReliabilityConfig))
              (RateLimiter.New (RateLimit DefaultReliabilityConfig) now)
              0 1 (now + 1) (now + 2) in
  Overall h0 = false /\ APIConnection h1 = true.
Proof.
  intros now h0 m h1. split.
  - apply (health_api_connection
             (Monitor.New (Monitoring DefaultReliabilityConfig))
             (CircuitBreaker.New (CircuitBreaker_cfg DefaultReliabilityConfig))
             (RateLimiter.New (RateLimit DefaultReliabilityConfig) now)
             0 1 now now).
    + reflexivity.
    + unfold now, maxInt64. lia.
  - apply (health_api_connection m
             (CircuitBreaker.New (CircuitBreaker_cfg DefaultReliabilityConfig))
             (RateLimiter.New (RateLimit DefaultReliabilityConfig) now)
             0 1 (now + 1) (now + 2)).
    + simpl. unfold now. lia.
    + simpl. unfold now. lia.
    + simpl. unfold now, maxInt64. lia.
Defined.

(** ** The agent, continued *)

Lemma Chat_breaker_rejects (wait : Z -> Duration -> selected)
      (performRequest : nat -> String.string * option error)
      (ra : ResilientAgent.t) (clk : ResilientAgent.readings) :
  snd (RateLimiter.Allow (ResilientAgent.rateLimiter ra)
                         (ResilientAgent.limiterNow clk)) = true ->
  snd (CircuitBreaker.Allow (ResilientAgent.circuitBreaker ra)
                            (ResilientAgent.breakerNow clk)
                            (ResilientAgent.breakerDraw clk)) = false ->
  ResilientAgent.Chat wait performRequest ra clk
  = Some ({| ResilientAgent.config := ResilientAgent.config ra;
             ResilientAgent.retryManager := ResilientAgent.retryManager ra;
             ResilientAgent.circuitBreaker := ResilientAgent.circuitBreaker ra;
             ResilientAgent.rateLimiter :=
               fst (RateLimiter.Allow (ResilientAgent.rateLimiter ra)
                                      (ResilientAgent.limiterNow clk));
             ResilientAgent.monitor :=
               Monitor.RecordFailure (ResilientAgent.monitor ra)
                 (Time_Sub (ResilientAgent.sinceNow clk)
                           (ResilientAgent.startTime clk))
                 (ResilientAgent.monitorRecordNow clk) |},
          {| ResilientAgent.response := "";
             ResilientAgent.err := Some "circuit breaker is open"%string;
             ResilientAgent.executed := None |}).
Proof.
  intros Hallowed Hrejected. unfold ResilientAgent.Chat.
  destruct (RateLimiter.Allow _ _) as [rl allowed]. simpl in Hallowed.
  subst allowed. cbn [negb fst].
  assert (Hcb := Allow_unchanged (ResilientAgent.circuitBreaker ra)
                   (ResilientAgent.breakerNow clk)
                   (ResilientAgent.breakerDraw clk)).
  destruct (CircuitBreaker.Allow _ _ _) as [cb admitted].
  simpl in Hrejected, Hcb. subst admitted cb. reflexivity.
Qed.

(** X25. When the rate limiter admits the request and the circuit
    breaker rejects it, [Chat] returns the error [circuit breaker is
    open] with an empty response; the request has used a token of the
    limiter; the monitor has recorded one failure with the time elapsed;
    the breaker is as it was; the retry manager is not run, and the call
    does not depend on the operation or on the context. *)
Theorem chat_circuit_open (wait : Z -> Duration -> selected)
        (performRequest : nat -> String.string * option error)
        (ra : ResilientAgent.t) (clk : ResilientAgent.readings) :
  snd (RateLimiter.Allow (ResilientAgent.rateLimiter ra)
                         (ResilientAgent.limiterNow clk)) = true ->
  snd (CircuitBreaker.Allow (ResilientAgent.circuitBreaker ra)
                            (ResilientAgent.breakerNow clk)
                            (ResilientAgent.breakerDraw clk)) = false ->
  exists ra',
    ResilientAgent.Chat wait performRequest ra clk
      = Some (ra', {| ResilientAgent.response := "";
                      ResilientAgent.err := Some "circuit breaker is open"%string;
                      ResilientAgent.executed := None |}) /\
    ResilientAgent.circuitBreaker ra' = ResilientAgent.circuitBreaker ra /\
    ResilientAgent.rateLimiter ra'
      = fst (RateLimiter.Allow (ResilientAgent.rateLimiter ra)
                               (ResilientAgent.limiterNow clk)) /\
    ResilientAgent.monitor ra'
      = Monitor.RecordFailure (ResilientAgent.monitor ra)
          (Time_Sub (ResilientAgent.sinceNow clk) (ResilientAgent.startTime clk))
          (ResilientAgent.monitorRecordNow clk) /\
    (forall wait' performRequest',
       ResilientAgent.Chat wait' performRequest' ra clk
       = ResilientAgent.Chat wait performRequest ra clk).
Proof.
  intros Hallowed Hrejected.
  eexists. split; [apply Chat_breaker_rejects; assumption|]. simpl.
  repeat (split; [reflexivity|]). intros wait' performRequest'.
  rewrite !Chat_breaker_rejects by assumption. reflexivity.
Qed.

Lemma chat_circuit_open_witness :
  let cfg := DefaultReliabilityConfig in
  let ra := {|
    ResilientAgent.config := cfg;
    ResilientAgent.retryManager :=
      {| RetryManager.config := Retry cfg;
         RetryManager.random := fun _ => F64.half;
         RetryManager.pow := pow_products |};
    ResilientAgent.circuitBreaker :=
      CircuitBreaker.run (CircuitBreaker.New (CircuitBreaker_cfg cfg))
                         (CircuitBreaker.failures [1; 2; 3; 4; 5]);
    ResilientAgent.rateLimiter := RateLimiter.New (RateLimit cfg) 0;
    ResilientAgent.monitor := Monitor.New (Monitoring cfg) |} in
  let clk := {|
    ResilientAgent.startTime := 6; ResilientAgent.limiterNow := 6;
    ResilientAgent.breakerNow := 6; ResilientAgent.breakerDraw := 0;
    ResilientAgent.sinceNow := 7; ResilientAgent.breakerRecordNow := 7;
    ResilientAgent.monitorRecordNow := 7 |} in
  let wait := fun (_ : Z) (_ : Duration) => TimerFired in
  let performRequest := fun _ : nat => ("hello"%string, @None error) in
  exists ra',
    ResilientAgent.Chat wait performRequest ra clk
      = Some (ra', {| ResilientAgent.response := "";
                      ResilientAgent.err := Some "circuit breaker is open"%string;
                      ResilientAgent.executed := None |}) /\
    Monitor.failedRequests (ResilientAgent.monitor ra') = 1.
Proof.
  intros cfg ra clk wait performRequest.
  destruct (chat_circuit_open wait performRequest ra clk)
    as (ra' & Hchat & _ & _ & Hmon & _).
  - vm_compute. reflexivity.
  - vm_compute. reflexivity.
  - exists ra'. split; [exact Hchat|]. rewrite Hmon. reflexivity.
Defined.

(** X26. Every [Chat] call returns and is counted once: the monitor's
    total grows by one, and so does exactly one of its three outcome
    counters, the successful one when the call returns no error, the
    failed or the rate-limited one when it returns one.  The circuit
    breaker is told one outcome per call, that of [Execute] when it ran
    (however many attempts it made), and nothing otherwise. *)
Theorem chat_records_once (wait : Z -> Duration -> selected)
        (performRequest : nat -> String.string * option error)
        (ra : ResilientAgent.t) (clk : ResilientAgent.readings) :
  MaxAttempts (RetryManager.config (ResilientAgent.retryManager ra))
    <= maxInt64 ->
  exists ra' reply,
    ResilientAgent.Chat wait performRequest ra clk = Some (ra', reply) /\
    let m := ResilientAgent.monitor ra in
    let m' := ResilientAgent.monitor ra' in
    let cb := ResilientAgent.circuitBreaker ra in
    Monitor.totalRequests m' = wrap64 (Monitor.totalRequests m + 1) /\
    match ResilientAgent.err reply with
    | None =>
        Monitor.successfulRequests m'
          = wrap64 (Monitor.successfulRequests m + 1) /\
        Monitor.failedRequests m' = Monitor.failedRequests m /\
        Monitor.rateLimitedRequests m' = Monitor.rateLimitedRequests m
    | Some _ =>
        Monitor.successfulRequests m' = Monitor.successfulRequests m /\
        ((Monitor.failedRequests m' = wrap64 (Monitor.failedRequests m + 1)
          /\ Monitor.rateLimitedRequests m' = Monitor.rateLimitedRequests m)
         \/
         (Monitor.failedRequests m' = Monitor.failedRequests m
          /\ Monitor.rateLimitedRequests m'
             = wrap64 (Monitor.rateLimitedRequests m + 1)))
    end /\
    match ResilientAgent.executed reply with
    | None => ResilientAgent.circuitBreaker ra' = cb
    | Some out =>
        ResilientAgent.err reply = RetryManager.err out /\
        ResilientAgent.circuitBreaker ra'
        = match RetryManager.err out with
          | Some _ =>
              CircuitBreaker.RecordFailure cb (ResilientAgent.breakerRecordNow clk)
          | None => CircuitBreaker.RecordSuccess cb
          end
    end.
Proof.
  intros Hmax. unfold ResilientAgent.Chat.
  destruct (RateLimiter.Allow _ _) as [rl allowed].
  destruct allowed; cbn [negb].
  2:{ do 2 eexists. split; [reflexivity|]. simpl.
      repeat split. right. split; reflexivity. }
  assert (Hcb := Allow_unchanged (ResilientAgent.circuitBreaker ra)
                   (ResilientAgent.breakerNow clk)
                   (ResilientAgent.breakerDraw clk)).
  destruct (CircuitBreaker.Allow _ _ _) as [cb admitted].
  simpl in Hcb. subst cb.
  destruct admitted; cbn [negb].
  2:{ do 2 eexists. split; [reflexivity|]. simpl.
      repeat split. left. split; reflexivity. }
  destruct (Execute_total (ResilientAgent.retryManager ra) wait performRequest
              Hmax) as [out Hout].
  rewrite Hout.
  destruct (RetryManager.err out) as [e|] eqn:Herr.
  - do 2 eexists. split; [reflexivity|]. simpl. rewrite Herr.
    repeat split. left. split; reflexivity.
  - do 2 eexists. split; [reflexivity|]. simpl. rewrite Herr.
    repeat split.
Qed.

Lemma chat_records_once_witness :
  let cfg := DefaultReliabilityConfig in
  let ra := {|
    ResilientAgent.config := cfg;
    ResilientAgent.retryManager :=
      {| RetryManager.config := Retry cfg;
         RetryManager.random := fun _ => F64.half;
         RetryManager.pow := pow_products |};
    ResilientAgent.circuitBreaker := CircuitBreaker.New (CircuitBreaker_cfg cfg);
    ResilientAgent.rateLimiter := RateLimiter.New (RateLimit cfg) 0;
    ResilientAgent.monitor := Monitor.New (Monitoring cfg) |} in
  let clk := {|
    ResilientAgent.startTime := 0; ResilientAgent.limiterNow := 0;
    ResilientAgent.breakerNow := 0; ResilientAgent.breakerDraw := 0;
    ResilientAgent.sinceNow := 9; ResilientAgent.breakerRecordNow := 9;
    ResilientAgent.monitorRecordNow := 9 |} in
  let performRequest := fun _ : nat =>
    (""%string, Some "timeout: simulated timeout error"%string) in
  exists ra' reply,
    ResilientAgent.Chat (fun _ _ => TimerFired) performRequest ra clk
      = Some (ra', reply) /\
    Monitor.totalRequests (ResilientAgent.monitor ra') = 1.
Proof.
  intros cfg ra clk performRequest.
  destruct (chat_records_once (fun _ _ => TimerFired) performRequest ra clk)
    as (ra' & reply & Hchat & Htotal & _).
  - unfold maxInt64. simpl. lia.
  - exists ra', reply. split; [exact Hchat|]. rewrite Htotal. reflexivity.
Defined.

(** X27. With [MaxAttempts <= 0] a request that passes the rate limiter
    and the circuit breaker is reported as a success with an empty
    response: the operation is never invoked, and the breaker and the
    monitor record a success. *)
Theorem chat_without_attempts (wait : Z -> Duration -> selected)
        (performRequest : nat -> String.string * option error)
        (ra : ResilientAgent.t) (clk : ResilientAgent.readings) :
  MaxAttempts (RetryManager.config (ResilientAgent.retryManager ra)) <= 0 ->
  snd (RateLimiter.Allow (ResilientAgent.rateLimiter ra)
                         (ResilientAgent.limiterNow clk)) = true ->
  snd (CircuitBreaker.Allow (ResilientAgent.circuitBreaker ra)
                            (ResilientAgent.breakerNow clk)
                            (ResilientAgent.breakerDraw clk)) = true ->
  exists ra',
    ResilientAgent.Chat wait performRequest ra clk
      = Some (ra', {| ResilientAgent.response := "";
                      ResilientAgent.err := None;
                      ResilientAgent.executed :=
                        Some {| RetryManager.result := "";
                                RetryManager.err := None;
                                RetryManager.calls := 0;
                                RetryManager.delays := [] |} |}) /\
    ResilientAgent.circuitBreaker ra'
      = CircuitBreaker.RecordSuccess (ResilientAgent.circuitBreaker ra) /\
    ResilientAgent.monitor ra'
      = Monitor.RecordSuccess (ResilientAgent.monitor ra)
          (Time_Sub (ResilientAgent.sinceNow clk) (ResilientAgent.startTime clk))
          (ResilientAgent.monitorRecordNow clk).
Proof.
  intros Hzero Hallowed Hadmitted. unfold ResilientAgent.Chat.
  destruct (RateLimiter.Allow _ _) as [rl allowed]. simpl in Hallowed.
  subst allowed. cbn [negb].
  assert (Hcb := Allow_unchanged (ResilientAgent.circuitBreaker ra)
                   (ResilientAgent.breakerNow clk)
                   (ResilientAgent.breakerDraw clk)).
  destruct (CircuitBreaker.Allow _ _ _) as [cb admitted].
  simpl in Hadmitted, Hcb. subst admitted cb. cbn [negb].
  assert (Hexec : RetryManager.Execute (ResilientAgent.retryManager ra)
                    wait performRequest
                  = Some {| RetryManager.result := "";
                            RetryManager.err := None;
                            RetryManager.calls := 0;
                            RetryManager.delays := [] |}).
  { unfold RetryManager.Execute.
    replace (Z.to_nat (MaxAttempts
               (RetryManager.config (ResilientAgent.retryManager ra))))
      with O by lia.
    cbn [RetryManager.loop].
    destruct (Z.leb_spec 1 (MaxAttempts
                (RetryManager.config (ResilientAgent.retryManager ra))));
      [lia | reflexivity]. }
  rewrite Hexec. cbn [RetryManager.err RetryManager.result].
  eexists. split; [reflexivity|]. split; reflexivity.
Qed.

Lemma chat_without_attempts_witness :
  let cfg := DefaultReliabilityConfig in
  let ra := {|
    ResilientAgent.config := cfg;
    ResilientAgent.retryManager :=
      {| RetryManager.config :=
           {| MaxAttempts := 0; BaseDelay := 1; MaxDelay := 1;
              BackoffMultiplier := F64.of_int 2; JitterPercent := 0;
              RetriableErrors := [] |};
         RetryManager.random := fun _ => F64.half;
         RetryManager.pow := pow_products |};
    ResilientAgent.circuitBreaker := CircuitBreaker.New (CircuitBreaker_cfg cfg);
    ResilientAgent.rateLimiter := RateLimiter.New (RateLimit cfg) 0;
    ResilientAgent.monitor := Monitor.New (Monitoring cfg) |} in
  let clk := {|
    ResilientAgent.startTime := 0; ResilientAgent.limiterNow := 0;
    ResilientAgent.breakerNow := 0; ResilientAgent.breakerDraw := 0;
    ResilientAgent.sinceNow := 9; ResilientAgent.breakerRecordNow := 9;
    ResilientAgent.monitorRecordNow := 9 |} in
  let performRequest := fun _ : nat =>
    (""%string, Some "timeout: simulated timeout error"%string) in
  exists ra',
    ResilientAgent.Chat (fun _ _ => TimerFired) performRequest ra clk
      = Some (ra', {| ResilientAgent.response := "";
                      ResilientAgent.err := None;
                      ResilientAgent.executed :=
                        Some {| RetryManager.result := "";
                                RetryManager.err := None;
                                RetryManager.calls := 0;
                                RetryManager.delays := [] |} |}) /\
    Monitor.successfulRequests (ResilientAgent.monitor ra') = 1.
Proof.
  intros cfg ra clk performRequest.
  destruct (chat_without_attempts (fun _ _ => TimerFired) performRequest ra clk)
    as (ra' & Hchat & _ & Hmon).
  - simpl. lia.
  - vm_compute. reflexivity.
  - vm_compute. reflexivity.
  - exists ra'. split; [exact Hchat|]. rewrite Hmon. reflexivity.
Defined.

(** An operation that fails at every invocation makes [Execute] return an
    error, its own or that of the context. *)
Lemma loop_fails rm wait operation (fuel : nat) :
  forall a lastErr calls ds,
  minInt64 <= a <= MaxAttempts (RetryManager.config rm) ->
  MaxAttempts (RetryManager.config rm) <= maxInt64 ->
  MaxAttempts (RetryManager.config rm) - a < Z.of_nat fuel ->
  (forall n, snd (operation n) <> None) ->
  exists out,
    RetryManager.loop rm wait operation fuel a lastErr calls ds = Some out
    /\ RetryManager.err out <> None.
Proof.
  induction fuel as [|fuel IH]; intros a lastErr calls ds Ha Hmax Hfuel Hfail;
    [lia|].
  cbn [RetryManager.loop].
  destruct (Z.leb_spec a (MaxAttempts (RetryManager.config rm))); [|lia].
  specialize (Hfail calls) as Hc.
  destruct (operation calls) as [res [e|]]; [|contradiction].
  destruct (Z.eqb_spec a (MaxAttempts (RetryManager.config rm))); simpl.
  { eexists. split; [reflexivity | discriminate]. }
  destruct (negb (RetryManager.isRetriable rm e)).
  { eexists. split; [reflexivity | discriminate]. }
  destruct (wait a (RetryManager.calculateDelay rm a)).
  { eexists. split; [reflexivity | discriminate]. }
  rewrite wrap64_succ by lia.
  apply IH; try assumption; lia.
Qed.

Lemma Execute_fails rm wait operation :
  1 <= MaxAttempts (RetryManager.config rm) <= maxInt64 ->
  (forall n, snd (operation n) <> None) ->
  exists out,
    RetryManager.Execute rm wait operation = Some out
    /\ RetryManager.err out <> None.
Proof.
  intros [Hmin Hmax] Hfail. unfold RetryManager.Execute.
  apply loop_fails; try assumption; unfold minInt64; lia.
Qed.

(** A [Chat] that passes the limiter on a closed breaker and whose
    operation always fails. *)
Lemma Chat_fails (i : chat_input) (ra : ResilientAgent.t) :
  1 <= MaxAttempts (RetryManager.config (ResilientAgent.retryManager ra))
    <= maxInt64 ->
  CircuitBreaker.state (ResilientAgent.circuitBreaker ra) = CircuitClosed ->
  snd (RateLimiter.Allow (ResilientAgent.rateLimiter ra)
         (ResilientAgent.limiterNow (readings_of i))) = true ->
  (forall n, snd (operation_of i n) <> None) ->
  exists ra' r,
    ResilientAgent.Chat (context_of i) (operation_of i) ra (readings_of i)
      = Some (ra', r) /\
    ResilientAgent.err r <> None /\
    ResilientAgent.retryManager ra' = ResilientAgent.retryManager ra /\
    ResilientAgent.circuitBreaker ra'
      = CircuitBreaker.RecordFailure (ResilientAgent.circuitBreaker ra)
          (ResilientAgent.breakerRecordNow (readings_of i)) /\
    ResilientAgent.rateLimiter ra'
      = fst (RateLimiter.Allow (ResilientAgent.rateLimiter ra)
               (ResilientAgent.limiterNow (readings_of i))).
Proof.
  intros Hmax Hclosed Hallowed Hfail. unfold ResilientAgent.Chat.
  destruct (RateLimiter.Allow _ _) as [rl allowed]. simpl in Hallowed.
  subst allowed. cbn [negb fst].
  unfold CircuitBreaker.Allow. rewrite Hclosed. cbn [negb].
  destruct (Execute_fails (ResilientAgent.retryManager ra) (context_of i)
              (operation_of i) Hmax Hfail) as (out & -> & Herr).
  destruct (RetryManager.err out) as [e|]; [|contradiction].
  do 2 eexists. split; [reflexivity|]. simpl.
  split; [discriminate|]. repeat split.
Qed.

Lemma chats_failing (inputs : list chat_input) : forall ra : ResilientAgent.t,
  let cb := ResilientAgent.circuitBreaker ra in
  1 <= MaxAttempts (RetryManager.config (ResilientAgent.retryManager ra))
    <= maxInt64 ->
  CircuitBreaker.state cb = CircuitClosed ->
  0 <= CircuitBreaker.failureCount cb ->
  CircuitBreaker.failureCount cb + Z.of_nat (length inputs)
    <= FailureThreshold (CircuitBreaker.config cb) ->
  FailureThreshold (CircuitBreaker.config cb) <= maxInt64 ->
  RateLimiter.answers (ResilientAgent.rateLimiter ra)
    (map (fun i => ResilientAgent.limiterNow (readings_of i)) inputs)
  = replicate (length inputs) true ->
  Forall (fun i => forall n, snd (operation_of i n) <> None) inputs ->
  exists ra' replies,
    chats ra inputs = Some (ra', replies) /\
    Forall (fun r => ResilientAgent.err r <> None) replies /\
    ResilientAgent.circuitBreaker ra'
      = CircuitBreaker.run cb
          (CircuitBreaker.failures
             (map (fun i => ResilientAgent.breakerRecordNow (readings_of i))
                  inputs)).
Proof.
  induction inputs as [|i rest IH]; intros ra cb Hmax Hclosed Hfc Hlen HN Hans Hops.
  - exists ra, []. repeat split. constructor.
  - inversion Hops as [|? ? Hop Hrest]; subst.
    cbn [map RateLimiter.answers length replicate] in Hans.
    destruct (RateLimiter.Allow (ResilientAgent.rateLimiter ra)
                (ResilientAgent.limiterNow (readings_of i)))
      as [rl1 allowed] eqn:HA.
    injection Hans as Hallowed Hans.
    destruct (Chat_fails i ra Hmax Hclosed) as (ra1 & r & Hchat & Herr & Hrm & Hcb & Hrl).
    { rewrite HA. exact Hallowed. }
    { exact Hop. }
    rewrite HA in Hrl. cbn [fst] in Hrl.
    cbn [chats]. rewrite Hchat.
    cbn [map CircuitBreaker.failures length] in *.
    fold cb in Hcb.
    destruct rest as [|i2 rest2].
    + exists ra1, [r]. cbn [chats]. split; [reflexivity|].
      split; [repeat constructor; exact Herr|]. exact Hcb.
    + assert (Hw : wrap64 (CircuitBreaker.failureCount cb + 1)
                   = CircuitBreaker.failureCount cb + 1).
      { apply wrap64_succ. unfold minInt64. cbn [length] in Hlen. lia. }
      assert (Hst1 : CircuitBreaker.state (CircuitBreaker.RecordFailure cb
                       (ResilientAgent.breakerRecordNow (readings_of i)))
                     = CircuitClosed).
      { unfold CircuitBreaker.RecordFailure. simpl. rewrite Hclosed, Hw. simpl.
        destruct (Z.leb_spec (FailureThreshold (CircuitBreaker.config cb))
                    (CircuitBreaker.failureCount cb + 1));
          [cbn [length] in Hlen; lia | reflexivity]. }
      destruct (IH ra1) as (ra' & replies & Hchats & Herrs & Hcb').
      * rewrite Hrm. exact Hmax.
      * rewrite Hcb. exact Hst1.
      * rewrite Hcb. simpl. rewrite Hw. lia.
      * rewrite Hcb. simpl. rewrite Hw. cbn [length] in *. lia.
      * rewrite Hcb. simpl. exact HN.
      * rewrite Hrl. exact Hans.
      * exact Hrest.
      * rewrite Hchats. exists ra', (r :: replies).
        split; [reflexivity|]. split; [constructor; assumption|].
        rewrite Hcb', Hcb. reflexivity.
Qed.

(** X28. The pipeline trips.  On an agent whose breaker is closed with
    counter 0, [FailureThreshold] [Chat] calls in a row that the rate
    limiter admits and whose operation fails at every attempt all return
    an error and leave the breaker open; from then on, a call that the
    limiter admits before the recovery timeout has passed since the last
    of these failures returns [circuit breaker is open] without the
    operation being invoked. *)
Theorem pipeline_trips (ra : ResilientAgent.t) (inputs : list chat_input)
        (n : nat) :
  let cb := ResilientAgent.circuitBreaker ra in
  1 <= MaxAttempts (RetryManager.config (ResilientAgent.retryManager ra))
    <= maxInt64 ->
  CircuitBreaker.state cb = CircuitClosed ->
  CircuitBreaker.failureCount cb = 0 ->
  FailureThreshold (CircuitBreaker.config cb) = Z.of_nat (S n) ->
  in_int64 (FailureThreshold (CircuitBreaker.config cb)) ->
  length inputs = S n ->
  RateLimiter.answers (ResilientAgent.rateLimiter ra)
    (map (fun i => ResilientAgent.limiterNow (readings_of i)) inputs)
  = replicate (S n) true ->
  Forall (fun i => forall k, snd (operation_of i k) <> None) inputs ->
  exists ra' replies,
    chats ra inputs = Some (ra', replies) /\
    Forall (fun r => ResilientAgent.err r <> None) replies /\
    CircuitBreaker.state (ResilientAgent.circuitBreaker ra') = CircuitOpen /\
    forall wait performRequest clk,
      snd (RateLimiter.Allow (ResilientAgent.rateLimiter ra')
                             (ResilientAgent.limiterNow clk)) = true ->
      Time_Sub (ResilientAgent.breakerNow clk)
               (CircuitBreaker.lastFailureTime (ResilientAgent.circuitBreaker ra'))
        < RecoveryTimeout (CircuitBreaker.config cb) ->
      exists ra'',
        ResilientAgent.Chat wait performRequest ra' clk
        = Some (ra'', {| ResilientAgent.response := "";
                         ResilientAgent.err :=
                           Some "circuit breaker is open"%string;
                         ResilientAgent.executed := None |}).
Proof.
  intros cb Hmax Hclosed Hfc HN Hrange Hlen Hans Hops.
  destruct (chats_failing inputs ra) as (ra' & replies & Hchats & Herrs & Hcb);
    fold cb; try assumption.
  - lia.
  - rewrite Hfc, Hlen, HN. lia.
  - apply Hrange.
  - rewrite Hlen. exact Hans.
  - fold cb in Hcb.
    assert (Hopen : CircuitBreaker.state (ResilientAgent.circuitBreaker ra')
                    = CircuitOpen).
    { rewrite Hcb.
      set (times := map (fun i => ResilientAgent.breakerRecordNow (readings_of i))
                        inputs).
      assert (Htl : length times = S n) by (unfold times; rewrite length_map; exact Hlen).
      destruct times as [|t0 times0] using rev_ind; [discriminate Htl|].
      clear IHtimes0. rewrite length_app in Htl. simpl in Htl.
      destruct (failures_below_threshold times0 cb Hclosed) as [Hc Hf];
        [lia | lia | apply Hrange |].
      unfold CircuitBreaker.failures in *. rewrite map_app, run_app.
      change (CircuitBreaker.state
                (CircuitBreaker.RecordFailure
                   (CircuitBreaker.run cb
                      (map CircuitBreaker.CallRecordFailure times0)) t0)
              = CircuitOpen).
      apply failure_reaching_threshold.
      - exact Hc.
      - rewrite Hf, run_config. lia.
      - rewrite run_config. exact Hrange. }
    exists ra', replies. split; [exact Hchats|]. split; [exact Herrs|].
    split; [exact Hopen|].
    intros wait performRequest clk Hallowed Hearly.
    eexists. apply Chat_breaker_rejects; [exact Hallowed|].
    unfold CircuitBreaker.Allow. rewrite Hopen. cbn [snd].
    unfold CircuitBreaker.shouldAttemptReset.
    rewrite Hcb at 1. rewrite run_config. apply Z.leb_gt. exact Hearly.
Qed.

Lemma pipeline_trips_witness :
  let cfg := DefaultReliabilityConfig in
  let ra := {|
    ResilientAgent.config := cfg;
    ResilientAgent.retryManager :=
      {| RetryManager.config := Retry cfg;
         RetryManager.random := fun _ => F64.half;
         RetryManager.pow := pow_products |};
    ResilientAgent.circuitBreaker := CircuitBreaker.New (CircuitBreaker_cfg cfg);
    ResilientAgent.rateLimiter := RateLimiter.New (RateLimit cfg) 0;
    ResilientAgent.monitor := Monitor.New (Monitoring cfg) |} in
  let input := {|
    readings_of := {|
      ResilientAgent.startTime := 0; ResilientAgent.limiterNow := 0;
      ResilientAgent.breakerNow := 0; ResilientAgent.breakerDraw := 0;
      ResilientAgent.sinceNow := 1; ResilientAgent.breakerRecordNow := 1;
      ResilientAgent.monitorRecordNow := 1 |};
    context_of := fun _ _ => TimerFired;
    operation_of := fun _ => (""%string, Some "quota: exhausted"%string) |} in
  exists ra' replies,
    chats ra (replicate 5 input) = Some (ra', replies) /\
    CircuitBreaker.state (ResilientAgent.circuitBreaker ra') = CircuitOpen.
Proof.
  intros cfg ra input.
  destruct (pipeline_trips ra (replicate 5 input) 4)
    as (ra' & replies & Hchats & _ & Hopen & _).
  - unfold maxInt64. simpl. lia.
  - reflexivity.
  - reflexivity.
  - reflexivity.
  - unfold in_int64, minInt64, maxInt64. simpl. lia.
  - reflexivity.
  - vm_compute. reflexivity.
  - repeat constructor; discriminate.
  - exists ra', replies. split; [exact Hchats | exact Hopen].
Defined.

(** An operation that always fails retriably, with every delay run to
    its end, is invoked [MaxAttempts] times. *)
Lemma Execute_exhausts (rm : RetryManager.t)
      (wait : Z -> Duration -> selected)
      (operation : nat -> String.string * option error) (e : error) :
  1 <= MaxAttempts (RetryManager.config rm) <= maxInt64 ->
  (forall n, operation n = (""%string, Some e)) ->
  RetryManager.isRetriable rm e = true ->
  (forall k d, wait k d = TimerFired) ->
  RetryManager.Execute rm wait operation
  = Some {| RetryManager.result := "";
            RetryManager.err := Some e;
            RetryManager.calls := Z.to_nat (MaxAttempts (RetryManager.config rm));
            RetryManager.delays :=
              delays_from rm 1
                (Z.to_nat (MaxAttempts (RetryManager.config rm)) - 1) |}.
Proof.
  intros [Hmin Hmax] Hop Hre Hwait.
  set (M := MaxAttempts (RetryManager.config rm)) in *.
  unfold RetryManager.Execute. fold M.
  destruct (loop_retries rm wait operation (Z.to_nat M - 1) 1 1 None [])
    as [lastErr' Hloop]; fold M; try lia.
  { intros j Hj. split; [|apply Hwait].
    exists ""%string, e. split; [apply Hop | exact Hre]. }
  replace (Z.to_nat M) with (Z.to_nat M - 1 + 1)%nat at 1 by lia.
  change (Z.to_nat (1 - 1)) with O in Hloop. rewrite Hloop.
  replace (1 + Z.of_nat (Z.to_nat M - 1)) with M by lia.
  cbn [RetryManager.loop]. fold M.
  rewrite Z.leb_refl, Hop, Z.eqb_refl. simpl.
  do 3 f_equal. lia.
Qed.

(** X29. What an injected fault costs.  While a fault stays active, the
    operation returns its error at every attempt: under the default
    retriable categories [Execute] then makes all [MaxAttempts] attempts
    for the types [timeout], [ratelimit], [server_error] and [network],
    and a single attempt for the type [quota], whose error is not
    retried. *)
Theorem fault_attempts (rm : RetryManager.t) (ft : String.string) (e : error)
        (operation : nat -> String.string * option error) :
  RetriableErrors (RetryManager.config rm)
    = RetriableErrors (Retry DefaultReliabilityConfig) ->
  1 <= MaxAttempts (RetryManager.config rm) <= maxInt64 ->
  FaultInjector.faultError ft = Some e ->
  (forall n, operation n = (""%string, Some e)) ->
  exists out,
    RetryManager.Execute rm (fun _ _ => TimerFired) operation = Some out /\
    RetryManager.err out = Some e /\
    RetryManager.calls out
    = if String.eqb ft "quota" then 1%nat
      else Z.to_nat (MaxAttempts (RetryManager.config rm)).
Proof.
  intros Hcfg Hmax Hft Hop.
  assert (Hre := fault_errors_retriable rm ft e Hcfg Hft).
  destruct (String.eqb ft "quota"); simpl in Hre.
  - eexists. split.
    + apply (Execute_stops rm (fun _ _ => TimerFired) operation 1
               ""%string (Some e));
        [lia | lia | intros j Hj; lia | apply Hop | exact Hre].
    + split; reflexivity.
  - eexists. split.
    + apply (Execute_exhausts rm (fun _ _ => TimerFired) operation e);
        try assumption. reflexivity.
    + split; reflexivity.
Qed.

Lemma fault_attempts_witness :
  let rm := {| RetryManager.config := Retry DefaultReliabilityConfig;
               RetryManager.random := fun _ => F64.half;
         RetryManager.pow := pow_products |} in
  exists out,
    RetryManager.Execute rm (fun _ _ => TimerFired)
      (fun _ => (""%string, Some "quota: simulated quota exhaustion"%string))
    = Some out /\
    RetryManager.calls out = 1%nat.
Proof.
  intros rm.
  destruct (fault_attempts rm "quota" "quota: simulated quota exhaustion"
              (fun _ => (""%string,
                         Some "quota: simulated quota exhaustion"%string)))
    as (out & Hout & _ & Hcalls).
  - reflexivity.
  - unfold maxInt64. simpl. lia.
  - reflexivity.
  - reflexivity.
  - exists out. split; [exact Hout | exact Hcalls].
Defined.

(** X30. [Reset] restores the threshold: from whatever state, after a
    [Reset] the breaker is still closed after fewer consecutive failures
    than the threshold and open after exactly as many. *)
Theorem reset_restores_threshold (cb : CircuitBreaker.t) (n : nat) :
  FailureThreshold (CircuitBreaker.config cb) = Z.of_nat (S n) ->
  in_int64 (FailureThreshold (CircuitBreaker.config cb)) ->
  (forall times, (length times <= n)%nat ->
     CircuitBreaker.state
       (CircuitBreaker.run (CircuitBreaker.Reset cb)
                           (CircuitBreaker.failures times))
     = CircuitClosed) /\
  (forall times, length times = S n ->
     CircuitBreaker.state
       (CircuitBreaker.run (CircuitBreaker.Reset cb)
                           (CircuitBreaker.failures times))
     = CircuitOpen).
Proof.
  intros HN Hrange.
  set (cb0 := CircuitBreaker.Reset cb).
  assert (Hbelow : forall times, (length times <= n)%nat ->
    CircuitBreaker.state (CircuitBreaker.run cb0 (CircuitBreaker.failures times))
      = CircuitClosed /\
    CircuitBreaker.failureCount
      (CircuitBreaker.run cb0 (CircuitBreaker.failures times))
      = Z.of_nat (length times)).
  { intros times Hlen.
    destruct (failures_below_threshold times cb0 eq_refl) as [H1 H2].
    - unfold cb0. cbn [CircuitBreaker.Reset CircuitBreaker.failureCount]. lia.
    - unfold cb0.
      cbn [CircuitBreaker.Reset CircuitBreaker.failureCount CircuitBreaker.config].
      lia.
    - apply Hrange.
    - split; [exact H1|]. rewrite H2. unfold cb0.
      cbn [CircuitBreaker.Reset CircuitBreaker.failureCount]. lia. }
  split.
  - intros times Hlen. apply Hbelow. exact Hlen.
  - intros times Hlen.
    destruct times as [|t0 times0] using rev_ind; [discriminate Hlen|].
    clear IHtimes0. rewrite length_app in Hlen. simpl in Hlen.
    destruct (Hbelow times0) as [Hc Hf]; [lia|].
    unfold CircuitBreaker.failures in *. rewrite map_app, run_app.
    change (CircuitBreaker.state
              (CircuitBreaker.RecordFailure
                 (CircuitBreaker.run cb0
                    (map CircuitBreaker.CallRecordFailure times0)) t0)
            = CircuitOpen).
    apply failure_reaching_threshold.
    + exact Hc.
    + rewrite Hf, run_config. unfold cb0. simpl. lia.
    + rewrite run_config. unfold cb0. simpl. exact Hrange.
Qed.

Lemma reset_restores_threshold_witness :
  let cb := CircuitBreaker.run
              (CircuitBreaker.New (CircuitBreaker_cfg DefaultReliabilityConfig))
              (CircuitBreaker.failures [1; 2; 3; 4; 5]) in
  CircuitBreaker.state
    (CircuitBreaker.run (CircuitBreaker.Reset cb)
                        (CircuitBreaker.failures [6; 7; 8; 9]))
  = CircuitClosed.
Proof.
  intros cb.
  destruct (reset_restores_threshold cb 4) as [Hbelow _].
  - reflexivity.
  - unfold in_int64, minInt64, maxInt64. simpl. lia.
  - apply Hbelow. simpl. lia.
Defined.

(** X6. The probe after the recovery timeout.  On an open breaker whose
    recovery timeout has passed, a [Chat] that the limiter admits runs
    the operation.  When the first attempt succeeds, its response is
    returned and the breaker becomes half-open; when every attempt fails,
    an error is returned, the breaker stays open and the timeout starts
    again at the time of this failure. *)
Theorem chat_probe_after_timeout (wait : Z -> Duration -> selected)
        (performRequest : nat -> String.string * option error)
        (ra : ResilientAgent.t) (clk : ResilientAgent.readings) :
  let cb := ResilientAgent.circuitBreaker ra in
  CircuitBreaker.state cb = CircuitOpen ->
  RecoveryTimeout (CircuitBreaker.config cb)
    <= Time_Sub (ResilientAgent.breakerNow clk) (CircuitBreaker.lastFailureTime cb) ->
  snd (RateLimiter.Allow (ResilientAgent.rateLimiter ra)
                         (ResilientAgent.limiterNow clk)) = true ->
  1 <= MaxAttempts (RetryManager.config (ResilientAgent.retryManager ra))
    <= maxInt64 ->
  (forall res, performRequest O = (res, None) ->
     exists ra',
       ResilientAgent.Chat wait performRequest ra clk
       = Some (ra', {| ResilientAgent.response := res;
                       ResilientAgent.err := None;
                       ResilientAgent.executed :=
                         Some {| RetryManager.result := res;
                                 RetryManager.err := None;
                                 RetryManager.calls := 1;
                                 RetryManager.delays := [] |} |}) /\
       CircuitBreaker.state (ResilientAgent.circuitBreaker ra')
       = CircuitHalfOpen) /\
  ((forall n, snd (performRequest n) <> None) ->
     exists ra' reply,
       ResilientAgent.Chat wait performRequest ra clk = Some (ra', reply) /\
       ResilientAgent.err reply <> None /\
       CircuitBreaker.state (ResilientAgent.circuitBreaker ra') = CircuitOpen /\
       CircuitBreaker.lastFailureTime (ResilientAgent.circuitBreaker ra')
       = ResilientAgent.breakerRecordNow clk).
Proof.
  intros cb Hopen Htimeout Hallowed Hmax.
  assert (Hadmit : CircuitBreaker.Allow cb (ResilientAgent.breakerNow clk)
                     (ResilientAgent.breakerDraw clk) = (cb, true)).
  { unfold CircuitBreaker.Allow. rewrite Hopen.
    unfold CircuitBreaker.shouldAttemptReset.
    apply Z.leb_le in Htimeout. rewrite Htimeout. reflexivity. }
  split.
  - intros res Hres.
    assert (Hexec : RetryManager.Execute (ResilientAgent.retryManager ra)
                      wait performRequest
                    = Some {| RetryManager.result := res;
                              RetryManager.err := None;
                              RetryManager.calls := 1;
                              RetryManager.delays := [] |}).
    { apply (Execute_stops (ResilientAgent.retryManager ra) wait performRequest
               1 res None); [lia | lia | intros j Hj; lia | exact Hres | exact I]. }
    unfold ResilientAgent.Chat.
    destruct (RateLimiter.Allow _ _) as [rl allowed]. simpl in Hallowed.
    subst allowed. cbn [negb]. fold cb. rewrite Hadmit. cbn [negb].
    rewrite Hexec. cbn [RetryManager.err RetryManager.result].
    eexists. split; [reflexivity|]. simpl.
    unfold CircuitBreaker.RecordSuccess. rewrite Hopen. reflexivity.
  - intros Hfail.
    destruct (Execute_fails (ResilientAgent.retryManager ra) wait performRequest
                Hmax Hfail) as (out & Hexec & Herr).
    unfold ResilientAgent.Chat.
    destruct (RateLimiter.Allow _ _) as [rl allowed]. simpl in Hallowed.
    subst allowed. cbn [negb]. fold cb. rewrite Hadmit. cbn [negb].
    rewrite Hexec.
    destruct (RetryManager.err out) as [e|]; [|contradiction].
    do 2 eexists. split; [reflexivity|]. simpl.
    split; [discriminate|]. split; [|reflexivity].
    unfold CircuitBreaker.RecordFailure. simpl. rewrite Hopen. reflexivity.
Qed.

Lemma chat_probe_after_timeout_witness :
  let cfg := DefaultReliabilityConfig in
  let ra := {|
    ResilientAgent.config := cfg;
    ResilientAgent.retryManager :=
      {| RetryManager.config := Retry cfg;
         RetryManager.random := fun _ => F64.half;
         RetryManager.pow := pow_products |};
    ResilientAgent.circuitBreaker :=
      CircuitBreaker.run (CircuitBreaker.New (CircuitBreaker_cfg cfg))
                         (CircuitBreaker.failures [1; 2; 3; 4; 5]);
    ResilientAgent.rateLimiter := RateLimiter.New (RateLimit cfg) 0;
    ResilientAgent.monitor := Monitor.New (Monitoring cfg) |} in
  let clk := {|
    ResilientAgent.startTime := 70 * Second;
    ResilientAgent.limiterNow := 70 * Second;
    ResilientAgent.breakerNow := 70 * Second;
    ResilientAgent.breakerDraw := 0;
    ResilientAgent.sinceNow := 71 * Second;
    ResilientAgent.breakerRecordNow := 71 * Second;
    ResilientAgent.monitorRecordNow := 71 * Second |} in
  let performRequest := fun _ : nat => ("hello"%string, @None error) in
  exists ra',
    ResilientAgent.Chat (fun _ _ => TimerFired) performRequest ra clk
    = Some (ra', {| ResilientAgent.response := "hello";
                    ResilientAgent.err := None;
                    ResilientAgent.executed :=
                      Some {| RetryManager.result := "hello";
                              RetryManager.err := None;
                              RetryManager.calls := 1;
                              RetryManager.delays := [] |} |}) /\
    CircuitBreaker.state (ResilientAgent.circuitBreaker ra') = CircuitHalfOpen.
Proof.
  intros cfg ra clk performRequest.
  destruct (chat_probe_after_timeout (fun _ _ => TimerFired) performRequest
              ra clk) as [Hsuccess _].
  - reflexivity.
  - vm_compute. intros H. discriminate H.
  - vm_compute. reflexivity.
  - unfold maxInt64. simpl. lia.
  - apply Hsuccess. reflexivity.
Defined.
